(** * Order-management API: category hierarchy, statistics and stock keeping

    A shallow embedding of the endpoints of [app/api/v1/endpoints]
    ([categories.py], [analytics.py], [orders.py]) together with the part
    of the relational schema of [app/db/models.py] they read and write.

    The endpoints are thin Python functions around SQL text.  The SQL is
    embedded as list programs (bag semantics, one list element per row):
    joins, GROUP BY, ORDER BY, LIMIT/OFFSET and WITH RECURSIVE have their
    own small definitions in [Module Sql]; the Python loops are embedded
    with the mutable objects they share kept in an explicit store. *)

From stdpp Require Import gmap strings list sorting pretty.
From Stdlib Require Import ZArith QArith Ascii.

Local Open Scope nat_scope.

(** ** Relational operators used by the queries *)

Module Sql.

Section Operators.
Context {A B : Type}.

(** [a LEFT JOIN b ON on]: every left row is kept; a left row without a
    partner is padded with NULLs (here [None]). *)
Definition left_join_row (on : A → B → bool) (r : list B) (a : A)
    : list (A * option B) :=
  match filter (λ b, on a b = true) r with
  | [] => [(a, None)]
  | m => (λ b, (a, Some b)) <$> m
  end.

Definition left_join (on : A → B → bool) (l : list A) (r : list B)
    : list (A * option B) :=
  l ≫= left_join_row on r.

(** [a JOIN b ON on] *)
Definition inner_join (on : A → B → bool) (l : list A) (r : list B)
    : list (A * B) :=
  a ← l; b ← filter (λ b, on a b = true) r; [(a, b)].

(** [LIMIT limit OFFSET offset] *)
Definition limit_offset (limit offset : nat) (l : list A) : list A :=
  take limit (drop offset l).
End Operators.

Section GroupBy.
Context {A K : Type} `{EqDecision K}.

(** Rows are put into the group of their key; groups are listed in the
    order in which their key is first met. *)
Fixpoint group_insert (k : K) (x : A) (gs : list (K * list A))
    : list (K * list A) :=
  match gs with
  | [] => [(k, [x])]
  | (k', xs) :: gs' =>
      if decide (k = k') then (k', xs ++ [x]) :: gs'
      else (k', xs) :: group_insert k x gs'
  end.

Definition group_by (key : A → K) (l : list A) : list (K * list A) :=
  foldl (λ gs x, group_insert (key x) x gs) [] l.
End GroupBy.

(** Aggregates skip NULLs; on no input [SUM], [MIN], [MAX] and [AVG] are
    NULL and [COUNT] is zero.  [AVG] is the exact quotient; the database
    rounds it to the scale of its numeric type. *)
Definition count {A} (l : list (option A)) : Z :=
  Z.of_nat (length (omap (λ x, x) l)).

Definition agg_fold (f : Z → Z → Z) (l : list (option Z)) : option Z :=
  match omap (λ x, x) l with
  | [] => None
  | x :: xs => Some (foldl f x xs)
  end.

Definition sum : list (option Z) → option Z := agg_fold Z.add.
Definition min : list (option Z) → option Z := agg_fold Z.min.
Definition max : list (option Z) → option Z := agg_fold Z.max.

Definition avg (l : list (option Z)) : option Q :=
  match sum l with
  | None => None
  | Some s => Some (Qmake s (Pos.of_nat (length (omap (λ x, x) l))))
  end.

Definition coalesce {A} (o : option A) (d : A) : A := default d o.

(** [ORDER BY key ASC]: NULLs come last. *)
Definition nulls_last {A} (R : relation A) : relation (option A) :=
  λ a b, match a, b with
         | Some x, Some y => R x y
         | _, None => True
         | None, Some _ => False
         end.

Global Instance nulls_last_dec {A} (R : relation A)
    `{∀ x y, Decision (R x y)} (a b : option A) : Decision (nulls_last R a b).
Proof. destruct a, b; simpl; apply _. Defined.
Global Typeclasses Opaque nulls_last.

Definition on_key {A K} (R : relation K) (key : A → K) : relation A :=
  λ a b, R (key a) (key b).

Definition order_by {A K} (R : relation K) `{dec : ∀ x y, Decision (R x y)}
    (key : A → K) (l : list A) : list A :=
  @merge_sort A (on_key R key) (λ a b, dec (key a) (key b)) l.

(** [WITH RECURSIVE]: the working table starts as the non-recursive term;
    each round evaluates the recursive term against the working table
    alone and adds the outcome to the result, until a round yields no
    row.  [None] stands for an evaluation that has not come to an end
    within [fuel] rounds. *)
Fixpoint with_recursive {A} (step : list A → list A) (fuel : nat)
    (working : list A) : option (list A) :=
  match fuel with
  | 0 => None
  | S fuel' =>
      match working with
      | [] => Some []
      | _ => (working ++.) <$> with_recursive step fuel' (step working)
      end
  end.

(** Before a statement is evaluated it is analysed, and the analysis of
    [WITH RECURSIVE] looks at the types of the columns.  Of the types
    only those of text matter here: [String(n)] of SQLAlchemy is
    [character varying(n)], [String] is [character varying] and [Text]
    is [text]. *)
Inductive TextType := VARCHAR (length : option nat) | TEXT.

Global Instance TextType_eq_dec : EqDecision TextType.
Proof. solve_decision. Defined.

(** [a || b] is of type [text], whatever text types [a] and [b] have. *)
Definition concat_type (a b : TextType) : TextType := TEXT.

(** The type of a column of [a UNION ALL b].  [character varying] and
    [text] are converted into each other without a cast, so that the
    type of [a] stands; its length stands when [b] has the same. *)
Definition union_type (a b : TextType) : TextType :=
  if decide (a = b) then a
  else match a with
       | VARCHAR _ => VARCHAR None
       | TEXT => TEXT
       end.

(** The columns of the working table have the types of the non-recursive
    term.  A statement in which UNION ALL gives a column another type is
    refused, whatever the tables hold: "recursive query ... column ... has
    type character varying(255) in non-recursive term but type character
    varying overall". *)
Definition recursive_column_accepted (non_recursive recursive : TextType)
    : Prop :=
  union_type non_recursive recursive = non_recursive.

(** What [db.execute] hands back: the rows of the statement, or the
    refusal of the database, which ends the handler with
    [ProgrammingError]. *)
Inductive Result (A : Type) :=
  | Rows (rows : A)
  | ProgrammingError.
Arguments Rows {A} rows.
Arguments ProgrammingError {A}.

End Sql.

(** The collation "C": text is compared byte by byte. *)
Definition bytewise : relation string := λ a b, String.leb a b = true.

Global Instance bytewise_dec (a b : string) : Decision (bytewise a b).
Proof. unfold bytewise. apply _. Defined.

(** ** The tables of [app/db/models.py]

    Only the columns that the modelled endpoints read or write are kept.
    [Numeric(12, 2)] amounts are exact and counted in hundredths: an
    amount with more than two places, which the database rounds, and an
    amount of more than twelve digits, which it refuses, are not told
    apart from the amounts it stores as they are.  [Integer] columns are
    integers without the bound of 32 bits. *)

Definition Numeric := Z.

Record Category := {
  cat_id : Z;
  cat_name : string;
  cat_parent_id : option Z;
  cat_path : option string;
  cat_level : Z;
  cat_is_active : bool;
}.

(** [name = Column(String(255), nullable=False, index=True)] *)
Definition category_name_type : Sql.TextType := Sql.VARCHAR (Some 255).

Record Nomenclature := {
  nom_id : Z;
  nom_quantity : Z;
  nom_price : Numeric;
  nom_category_id : Z;
  nom_is_active : bool;
}.

Record Client := {
  client_id : Z;
  client_is_active : bool;
}.

Inductive OrderStatus := PENDING | PROCESSING | COMPLETED | CANCELLED | REFUNDED.
Inductive PaymentStatus := UNPAID | PAID | PARTIAL | PAYMENT_REFUNDED.

Global Instance OrderStatus_eq_dec : EqDecision OrderStatus.
Proof. solve_decision. Defined.

Record Order := {
  order_id : Z;
  order_client_id : Z;
  order_status : OrderStatus;
  order_payment_status : PaymentStatus;
}.

Record OrderItem := {
  item_order_id : Z;
  item_nomenclature_id : Z;
  item_quantity : Z;
  item_price : Numeric;
  item_total_price : Numeric;
}.

(** ** [app/api/v1/endpoints/categories.py]: the category tree *)

Module Tree.

(** The columns [id, name, parent_id, level, path] that every row of the
    tree query and every node of the answer carries. *)
Record category_info := {
  info_id : Z;
  info_name : string;
  info_parent_id : option Z;
  info_level : Z;
  info_path : option string;
}.

Global Instance category_info_eq_dec : EqDecision category_info.
Proof. solve_decision. Defined.

(** A row of [category_tree]: the columns above, [depth] and [full_path]. *)
Record TreeRow := {
  row_info : category_info;
  row_depth : Z;
  row_full_path : string;
}.

Definition row_id (r : TreeRow) : Z := info_id (row_info r).
Definition row_parent_id (r : TreeRow) : option Z := info_parent_id (row_info r).

Definition info_of (c : Category) : category_info :=
  {| info_id := cat_id c; info_name := cat_name c;
     info_parent_id := cat_parent_id c; info_level := cat_level c;
     info_path := cat_path c |}.

(** *** The recursive query

    [get_category_tree] and [get_category_children_count] walk the table
    with the same WITH RECURSIVE shape and differ in the columns they
    compute: [root] builds the row of the non-recursive SELECT, [child]
    the row of the recursive one from the joined pair [(c, ct)].  The
    definitions of this section are the evaluation of a statement that
    the database has accepted; whether it accepts the statement is
    [full_path_accepted] below. *)

Section Descend.
Context {R : Type} (id_of : R → Z) (root : Category → R)
  (child : Category → R → R).

(** [SELECT root FROM app.categories
     WHERE parent_id IS NULL AND is_active = TRUE] *)
Definition anchor (cats : list Category) : list R :=
  root <$> filter (λ c, cat_parent_id c = None ∧ cat_is_active c = true) cats.

(** [SELECT child FROM app.categories c JOIN ct ON c.parent_id = ct.id
     WHERE c.is_active = TRUE] *)
Definition recursive_term (cats : list Category) (ct : list R) : list R :=
  (λ p : Category * R, child p.1 p.2)
    <$> filter (λ p : Category * R, cat_is_active p.1 = true)
          (Sql.inner_join
             (λ c r, bool_decide (cat_parent_id c = Some (id_of r))) cats ct).

(** One round for each possible depth and one more to see the empty
    working table: with ids that are a primary key this is enough
    ([descend_terminates]). *)
Definition descend (cats : list Category) : option (list R) :=
  Sql.with_recursive (recursive_term cats) (S (length cats)) (anchor cats).
End Descend.

(** Words of the statements about the recursive query: the rows of round
    [i], and the ids that lie [i] parent pointers below a row without
    parent. *)
Definition round {R : Type} (id_of : R → Z) (root : Category → R)
    (child : Category → R → R) (cats : list Category) (i : nat) : list R :=
  Nat.iter i (recursive_term id_of child cats) (anchor root cats).

Fixpoint at_depth (cats : list Category) (i : nat) (x : Z) : Prop :=
  match i with
  | 0 => ∃ c, c ∈ cats ∧ cat_id c = x ∧ cat_parent_id c = None
  | S i' => ∃ c p, c ∈ cats ∧ cat_id c = x ∧ cat_parent_id c = Some p
                   ∧ at_depth cats i' p
  end.

(** The column [full_path] of both recursive queries: [name as
    full_path] in the non-recursive term, [ct.full_path || ' -> ' ||
    c.name] in the recursive one.  [name_type] is the type that the
    table gives the column [name].  Every other column has one type in
    both terms. *)
Definition full_path_accepted (name_type : Sql.TextType) : Prop :=
  Sql.recursive_column_accepted name_type
    (Sql.concat_type (Sql.concat_type name_type Sql.TEXT) name_type).

Global Instance full_path_accepted_dec name_type :
  Decision (full_path_accepted name_type).
Proof. unfold full_path_accepted, Sql.recursive_column_accepted. apply _. Defined.

(** The rows of the CTE [category_tree] of [get_category_tree], as an
    accepted statement evaluates them:
    [id, name, parent_id, level, path, 0 as depth, name as full_path], then
    [..., ct.depth + 1, ct.full_path || ' -> ' || c.name]. *)
Definition category_tree : list Category → option (list TreeRow) :=
  descend row_id
    (λ c, {| row_info := info_of c; row_depth := 0; row_full_path := cat_name c |})
    (λ c ct, {| row_info := info_of c; row_depth := (row_depth ct + 1)%Z;
                row_full_path := row_full_path ct +:+ " -> " +:+ cat_name c |}).

(** *** The loop of [get_category_tree]

    [category_data] dictionaries are shared: the one stored in
    [categories_dict] is the one appended to [root_categories] or to its
    parent's ["children"], and children appended later are seen through
    every reference.  The objects live in a store in allocation order; a
    reference is an index into it. *)

Abbreviation loc := nat (only parsing).

Record category_data := {
  cd_info : category_info;
  cd_children : list loc;
}.

Record state := {
  store : list category_data;
  categories_dict : gmap Z loc;
  root_categories : list loc;
}.

Definition init : state :=
  {| store := []; categories_dict := ∅; root_categories := [] |}.

(** [d["children"].append(child)] *)
Definition append_child (child : loc) (d : category_data) : category_data :=
  {| cd_info := cd_info d; cd_children := cd_children d ++ [child] |}.

(** The body of [for row in result]. *)
Definition step (st : state) (row : TreeRow) : state :=
  let new := length (store st) in
  let store1 := store st ++ [{| cd_info := row_info row; cd_children := [] |}] in
  let dict1 := <[row_id row := new]> (categories_dict st) in
  match row_parent_id row with
  | None =>
      {| store := store1; categories_dict := dict1;
         root_categories := root_categories st ++ [new] |}
  | Some parent =>
      match dict1 !! parent with
      | Some p =>
          {| store := alter (append_child new) p store1;
             categories_dict := dict1;
             root_categories := root_categories st |}
      | None =>
          {| store := store1; categories_dict := dict1;
             root_categories := root_categories st |}
      end
  end.

Definition run (rows : list TreeRow) : state := foldl step init rows.

(** The value returned, [root_categories], as the nested structure that
    is read off the store when the answer is serialised: a node and,
    below it, the nodes that its ["children"] list refers to.  [None]
    stands for a descent that has not come to an end within [fuel]
    levels.  The check of the answer against the response model is the
    framework's and is not part of the embedding. *)
#[warnings="-register-all"]
Inductive CategoryTree :=
  Node (info : category_info) (children : list CategoryTree).

Definition tree_info (t : CategoryTree) : category_info :=
  match t with Node i _ => i end.
Definition tree_children (t : CategoryTree) : list CategoryTree :=
  match t with Node _ cs => cs end.

Fixpoint to_tree (fuel : nat) (h : list category_data) (l : loc)
    : option CategoryTree :=
  match fuel with
  | 0 => None
  | S fuel' =>
      d ← h !! l;
      cs ← mapM (to_tree fuel' h) (cd_children d);
      Some (Node (cd_info d) cs)
  end.

Definition build_tree (rows : list TreeRow) : option (list CategoryTree) :=
  let st := run rows in
  mapM (to_tree (length (store st)) (store st)) (root_categories st).

(** Every node of a tree, parents before children. *)
Fixpoint tree_nodes (t : CategoryTree) : list category_info :=
  match t with
  | Node i cs => i :: mjoin (tree_nodes <$> cs)
  end.

Definition forest_nodes (f : list CategoryTree) : list category_info :=
  mjoin (tree_nodes <$> f).

(** Every node of a forest as the tree below it, parents before
    children. *)
Fixpoint subtrees (t : CategoryTree) : list CategoryTree :=
  match t with
  | Node _ cs => t :: mjoin (subtrees <$> cs)
  end.

(** *** Words of the statements about the loop *)

(** The rows that reach the answer, in the order of the input: a row
    without parent, and a row whose parent is a row that has reached the
    answer before it. *)
Definition surfaces (seen : list category_info) (row : TreeRow)
    : list category_info :=
  match row_parent_id row with
  | None => seen ++ [row_info row]
  | Some parent =>
      if decide (parent ∈ info_id <$> seen) then seen ++ [row_info row]
      else seen
  end.

Definition surfaced (rows : list TreeRow) : list category_info :=
  foldl surfaces [] rows.

(** Every row with a parent comes after the row of its parent. *)
Definition parents_first (rows : list TreeRow) : Prop :=
  ∀ i row parent,
    rows !! i = Some row → row_parent_id row = Some parent →
    parent ∈ row_id <$> take i rows.

(** The parent pointer of the row with id [x], followed [n] times. *)
Definition parent_of (rows : list TreeRow) (x : Z) : option Z :=
  head (filter (λ row, row_id row = x) rows) ≫= row_parent_id.

Fixpoint ancestor (rows : list TreeRow) (n : nat) (x : Z) : option Z :=
  match n with
  | 0 => Some x
  | S n' => parent_of rows x ≫= ancestor rows n'
  end.

(** [x] is its own ancestor. *)
Definition on_cycle (rows : list TreeRow) (x : Z) : Prop :=
  ∃ n, 0 < n ∧ ancestor rows n x = Some x.

(** [x] reaches, along the parent pointers, a row without parent. *)
Definition rooted (rows : list TreeRow) (x : Z) : Prop :=
  ∃ m y, ancestor rows m x = Some y ∧ parent_of rows y = None.

(** How often a row stands in a forest. *)
Definition occurrences (row : TreeRow) (f : list CategoryTree) : nat :=
  length (filter (λ i, i = row_info row) (forest_nodes f)).

(** A row that names itself as its parent. *)
Definition self_parented (i : category_info) : Prop :=
  info_parent_id i = Some (info_id i).

(** The object that a round of the loop appends the new object to:
    [categories_dict[row.parent_id]], looked up after the new object has
    been entered. *)
Definition target (st : state) (row : TreeRow) : option loc :=
  parent ← row_parent_id row;
  <[row_id row := length (store st)]> (categories_dict st) !! parent.

(** Three readings of what the loop is to do with the rows it is fed:
    a row whose parent is not among the rows is a root of the answer;
    every row stands in the answer once; every row of a circle of parent
    pointers stands in the answer once. *)
Definition orphans_become_roots (rows : list TreeRow) : Prop :=
  ∃ f, build_tree rows = Some f
       ∧ ∀ row p, row ∈ rows → row_parent_id row = Some p →
                  p ∉ row_id <$> rows → row_info row ∈ tree_info <$> f.

Definition every_row_once (rows : list TreeRow) : Prop :=
  ∃ f, build_tree rows = Some f
       ∧ ∀ row, row ∈ rows → occurrences row f = 1.

Definition cycle_rows_once (rows : list TreeRow) : Prop :=
  ∃ f, build_tree rows = Some f
       ∧ ∀ row, row ∈ rows → on_cycle rows (row_id row) →
                occurrences row f = 1.

(** A fresh object for a row. *)
Definition leaf_of (row : TreeRow) : category_data :=
  {| cd_info := row_info row; cd_children := [] |}.

(** What the store and the dictionary hold after the loop. *)
Record linked (rows : list TreeRow) (st : state) : Prop := {
  linked_infos : cd_info <$> store st = row_info <$> rows;
  linked_dict : ∀ x k,
    categories_dict st !! x = Some k →
    ∃ d, store st !! k = Some d ∧ info_id (cd_info d) = x;
  linked_dom : ∀ x,
    x ∈ row_id <$> rows → is_Some (categories_dict st !! x);
}.

(** Children are appended in the order of the rows, to an object that
    is not younger than they are; only a row that names itself as its
    parent is its own child. *)
Record ordered (st : state) : Prop := {
  ordered_children : ∀ k d,
    store st !! k = Some d →
    StronglySorted lt (cd_children d)
    ∧ Forall (λ c, k ≤ c < length (store st)) (cd_children d)
    ∧ (k ∈ cd_children d → self_parented (cd_info d))
    ∧ Forall (λ c, c ≠ k →
                   ∃ i, (cd_info <$> store st) !! c = Some i
                        ∧ ¬ self_parented i) (cd_children d);
  ordered_roots :
    StronglySorted lt (root_categories st)
    ∧ Forall (λ l, ∃ i, (cd_info <$> store st) !! l = Some i
                        ∧ info_parent_id i = None) (root_categories st);
}.

(** The store after a new leaf has been allocated and appended to the
    children of the object at [k], and the nodes of a tree or forest
    after that, when [parent] is the node at [k]. *)
Definition attached (h : list category_data) (k : loc) (leaf : category_info)
    : list category_data :=
  alter (append_child (length h)) k
    (h ++ [{| cd_info := leaf; cd_children := [] |}]).

Definition grown (parent leaf : category_info) (nodes : list category_info)
    : list category_info :=
  nodes ++ (if decide (parent ∈ nodes) then [leaf] else []).

(** [db.execute(query)] of [get_category_tree]: the analysis of the
    statement, then the rows of the CTE, [ORDER BY path].  [collate] is
    the collation the database compares text with, [name_type] the type
    of the column [name] of [app.categories]. *)
Definition tree_query (collate : relation string)
    `{∀ x y, Decision (collate x y)} (name_type : Sql.TextType)
    (cats : list Category) : option (Sql.Result (list TreeRow)) :=
  if decide (full_path_accepted name_type) then
    result ← category_tree cats;
    Some (Sql.Rows (Sql.order_by (Sql.nulls_last collate)
                      (λ r, info_path (row_info r)) result))
  else Some Sql.ProgrammingError.

(** The endpoint: the rows of the statement fed to the loop.  A
    statement that the database refuses ends the handler before the
    loop. *)
Definition get_category_tree (collate : relation string)
    `{∀ x y, Decision (collate x y)} (name_type : Sql.TextType)
    (cats : list Category) : option (Sql.Result (list CategoryTree)) :=
  result ← tree_query collate name_type cats;
  match result with
  | Sql.Rows rows => Sql.Rows <$> build_tree rows
  | Sql.ProgrammingError => Some Sql.ProgrammingError
  end.

(** Words of the statements about the order of the answer: by the
    [path] column, NULLs last, and by [name]; and the reading that, of
    the rows of the CTE handed to the loop in the order of the
    statement, roots and the children of every node stand in the order
    of their names. *)
Definition by_path (collate : relation string) : relation category_info :=
  Sql.on_key (Sql.nulls_last collate) info_path.

Definition by_name (collate : relation string) : relation category_info :=
  Sql.on_key collate info_name.

Definition sorted_forest (R : relation category_info) (f : list CategoryTree)
    : Prop :=
  StronglySorted R (tree_info <$> f)
  ∧ Forall (λ s, StronglySorted R (tree_info <$> tree_children s))
      (f ≫= subtrees).

Definition ordered_by_name (collate : relation string)
    `{∀ x y, Decision (collate x y)} (rows : list TreeRow) : Prop :=
  ∃ f, build_tree
         (Sql.order_by (Sql.nulls_last collate) (λ r, info_path (row_info r))
            rows) = Some f
       ∧ sorted_forest (by_name collate) f.

End Tree.

(** ** [app/api/v1/endpoints/categories.py]: hierarchy, statistics, deletion *)

(** What an endpoint hands back: its value, or the exception that ended
    it ([HTTPException(status_code, detail)], or the database refusing a
    statement). *)
Inductive Response (A : Type) :=
  | Ok (a : A)
  | HTTPException (status_code : Z) (detail : string)
  | IntegrityError.
Arguments Ok {A} a.
Arguments HTTPException {A} status_code detail.
Arguments IntegrityError {A}.

Record Database := {
  categories : list Category;
  nomenclature : list Nomenclature;
  clients : list Client;
  orders : list Order;
  order_items : list OrderItem;
  orders_id_seq : Z;
}.

Module Categories.

(** A row of the view [app.category_hierarchy].  The view is declared in
    the database, outside the Python sources; the endpoint reads its
    columns [id, name, level, path]. *)
Record HierarchyViewRow := {
  view_id : Z;
  view_name : string;
  view_level : Z;
  view_path : option string;
}.

Record CategoryHierarchy := {
  hier_id : Z;
  hier_name : string;
  hier_level : Z;
  hier_path : option string;
  hier_full_path : string;
}.

(** [REPEAT(s, n)]: the empty string when [n] is not positive. *)
Definition sql_repeat (s : string) (n : Z) : string :=
  foldr String.append EmptyString (replicate (Z.to_nat n) s).

(** [CASE WHEN level = 0 THEN name WHEN level = 1 THEN '  ' || name
     WHEN level = 2 THEN '    ' || name WHEN level = 3 THEN '      ' || name
     ELSE REPEAT('  ', level) || name END] *)
Definition tree_display (level : Z) (name : string) : string :=
  if decide (level = 0%Z) then name
  else if decide (level = 1%Z) then "  " +:+ name
  else if decide (level = 2%Z) then "    " +:+ name
  else if decide (level = 3%Z) then "      " +:+ name
  else sql_repeat "  " level +:+ name.

Definition get_category_hierarchy (collate : relation string)
    `{∀ x y, Decision (collate x y)} (view : list HierarchyViewRow)
    : list CategoryHierarchy :=
  (λ row, {| hier_id := view_id row; hier_name := view_name row;
             hier_level := view_level row; hier_path := view_path row;
             hier_full_path := tree_display (view_level row) (view_name row) |})
    <$> Sql.order_by (Sql.nulls_last collate) view_path view.

(** Words of the statements about the labels: [name] behind [spaces]
    spaces, and the answer row that a view row is turned into when the
    label is indented by two spaces for each unit of the row's own
    [level] column. *)
Definition left_pad (spaces : nat) (name : string) : string :=
  String.string_of_list_ascii (replicate spaces " "%char) +:+ name.

Definition by_level (row : HierarchyViewRow) : CategoryHierarchy :=
  {| hier_id := view_id row; hier_name := view_name row;
     hier_level := view_level row; hier_path := view_path row;
     hier_full_path := left_pad (2 * Z.to_nat (view_level row)) (view_name row) |}.

(** The labels are indented by the depth that the recursive query of
    the tree computes for the category. *)
Definition labels_follow_recomputed_depth (collate : relation string)
    `{∀ x y, Decision (collate x y)} (cats : list Category)
    (view : list HierarchyViewRow) : Prop :=
  ∀ rows r h,
    Tree.category_tree cats = Some rows → r ∈ rows →
    h ∈ get_category_hierarchy collate view → hier_id h = Tree.row_id r →
    hier_full_path h = left_pad (2 * Z.to_nat (Tree.row_depth r)) (hier_name h).

(** [get_category_stats].  The answer's prices and value are the exact
    numbers of the query; their final conversion by [float(...)], a
    rounding that keeps zero and the order, is left out. *)
Record CategoryStats := {
  stats_category_id : Z;
  stats_category_name : string;
  stats_products_count : Z;
  stats_total_quantity : Z;
  stats_avg_price : Q;
  stats_min_price : Numeric;
  stats_max_price : Numeric;
  stats_total_value : Numeric;
}.

(** The ON clause of the statistics query:
    [c.id = n.category_id AND n.is_active = TRUE]. *)
Definition stats_on (c : Category) (n : Nomenclature) : bool :=
  bool_decide (cat_id c = nom_category_id n) && nom_is_active n.

(** [FROM app.categories c LEFT JOIN app.nomenclature n
       ON c.id = n.category_id AND n.is_active = TRUE
     WHERE c.is_active = TRUE GROUP BY c.id, c.name] *)
Definition stats_groups (cats : list Category) (noms : list Nomenclature)
    : list ((Z * string) * list (Category * option Nomenclature)) :=
  Sql.group_by (λ p : Category * option Nomenclature, (cat_id p.1, cat_name p.1))
    (filter (λ p : Category * option Nomenclature, cat_is_active p.1 = true)
       (Sql.left_join stats_on cats noms)).

(** The SELECT list over one group. *)
Definition stats_of_group
    (g : (Z * string) * list (Category * option Nomenclature)) : CategoryStats :=
  let col (f : Nomenclature → Z) := (λ p : Category * option Nomenclature, f <$> p.2) <$> g.2 in
  {| stats_category_id := g.1.1;
     stats_category_name := g.1.2;
     stats_products_count := Sql.count (col nom_id);
     stats_total_quantity := Sql.coalesce (Sql.sum (col nom_quantity)) 0%Z;
     stats_avg_price := Sql.coalesce (Sql.avg (col nom_price)) 0%Q;
     stats_min_price := Sql.coalesce (Sql.min (col nom_price)) 0%Z;
     stats_max_price := Sql.coalesce (Sql.max (col nom_price)) 0%Z;
     stats_total_value :=
       Sql.coalesce (Sql.sum (col (λ n, (nom_price n * nom_quantity n)%Z))) 0%Z |}.

(** [ORDER BY total_value DESC NULLS LAST]; after COALESCE no value is
    NULL. *)
Definition get_category_stats (db : Database) : list CategoryStats :=
  Sql.order_by (flip Z.le) stats_total_value
    (stats_of_group <$> stats_groups (categories db) (nomenclature db)).

(** Words of the statements about the statistics: the active inventory
    of a category, its total value, and the aggregate whose numbers are
    all zero. *)
Definition inventory_of (c : Category) (noms : list Nomenclature)
    : list Nomenclature :=
  filter (λ n, nom_category_id n = cat_id c ∧ nom_is_active n = true) noms.

(** The total inventory value of a category: price times quantity,
    added up over its active inventory. *)
Definition inventory_value (c : Category) (noms : list Nomenclature) : Numeric :=
  foldr Z.add 0%Z
    ((λ n, (nom_price n * nom_quantity n)%Z) <$> inventory_of c noms).

Definition zero_stats (c : Category) : CategoryStats :=
  {| stats_category_id := cat_id c;
     stats_category_name := cat_name c;
     stats_products_count := 0%Z;
     stats_total_quantity := 0%Z;
     stats_avg_price := 0%Q;
     stats_min_price := 0%Z;
     stats_max_price := 0%Z;
     stats_total_value := 0%Z |}.

(** [DELETE FROM app.categories WHERE id = :category_id], as
    [delete_category] issues it: no category and no nomenclature row
    refers to the category then, so that neither ON DELETE CASCADE nor
    ON DELETE RESTRICT has a row to act on. *)
Definition without_category (category_id : Z) (db : Database) : Database :=
  {| categories := filter (λ c, cat_id c ≠ category_id) (categories db);
     nomenclature := nomenclature db;
     clients := clients db;
     orders := orders db;
     order_items := order_items db;
     orders_id_seq := orders_id_seq db |}.

Definition delete_category (category_id : Z) (db : Database)
    : Response string * Database :=
  match filter (λ c, cat_id c = category_id) (categories db) with
  | [] => (HTTPException 404 "Категория не найдена", db)
  | _ =>
      let children_count :=
        length (filter (λ c, cat_parent_id c = Some category_id) (categories db)) in
      if decide (0 < children_count) then
        (HTTPException 400 "Нельзя удалить категорию с дочерними элементами", db)
      else
        let products_count :=
          length (filter (λ n, nom_category_id n = category_id) (nomenclature db)) in
        if decide (0 < products_count) then
          (HTTPException 400 "Нельзя удалить категорию с товарами", db)
        else (Ok "Категория удалена", without_category category_id db)
  end.

(** Words of the statements about [delete_category]. *)
Definition has_child (category_id : Z) (db : Database) : Prop :=
  ∃ c, c ∈ categories db ∧ cat_parent_id c = Some category_id.

Definition has_product (category_id : Z) (db : Database) : Prop :=
  ∃ n, n ∈ nomenclature db ∧ nom_category_id n = category_id.

Definition present (category_id : Z) (db : Database) : Prop :=
  ∃ c, c ∈ categories db ∧ cat_id c = category_id.

End Categories.

(** ** [app/schemas/base.py]: pagination *)

Module Pagination.

Record PaginationParams := {
  page : nat;
  size : nat;
}.

(** [(self.page - 1) * self.size]; the schema admits [page >= 1] only. *)
Definition offset (p : PaginationParams) : nat := (page p - 1) * size p.

End Pagination.

(** ** [app/api/v1/endpoints/analytics.py] *)

Module Analytics.

(** A row of the CTE [category_hierarchy]. *)
Record HierarchyRow := {
  h_id : Z;
  h_name : string;
  h_parent_id : option Z;
  h_level : Z;
  h_depth : Z;
  h_full_path : string;
  h_path_array : list Z;
}.

(** [id, name, parent_id, level, 0 as depth, name as full_path,
     ARRAY[id] as path_array] *)
Definition hierarchy_root (c : Category) : HierarchyRow :=
  {| h_id := cat_id c; h_name := cat_name c;
     h_parent_id := cat_parent_id c; h_level := cat_level c;
     h_depth := 0; h_full_path := cat_name c;
     h_path_array := [cat_id c] |}.

(** [c.id, c.name, c.parent_id, c.level, ch.depth + 1,
     ch.full_path || ' -> ' || c.name, ch.path_array || c.id] *)
Definition hierarchy_child (c : Category) (ch : HierarchyRow) : HierarchyRow :=
  {| h_id := cat_id c; h_name := cat_name c;
     h_parent_id := cat_parent_id c; h_level := cat_level c;
     h_depth := (h_depth ch + 1)%Z;
     h_full_path := h_full_path ch +:+ " -> " +:+ cat_name c;
     h_path_array := h_path_array ch ++ [cat_id c] |}.

(** The rows of the CTE, as an accepted statement evaluates them. *)
Definition category_hierarchy : list Category → option (list HierarchyRow) :=
  Tree.descend h_id hierarchy_root hierarchy_child.

Record CategoryChildrenCount := {
  category_name : string;
  children_count : Z;
  level : Z;
  full_path : string;
}.

(** [ON child.parent_id = parent.id AND child.depth = 1] *)
Definition child_on (parent child : HierarchyRow) : bool :=
  bool_decide (h_parent_id child = Some (h_id parent))
  && bool_decide (h_depth child = 1%Z).

(** [FROM category_hierarchy parent
     LEFT JOIN category_hierarchy child
       ON child.parent_id = parent.id AND child.depth = 1
     WHERE parent.depth = 0
     GROUP BY parent.id, parent.name, parent.level, parent.full_path] *)
Definition children_groups (ch : list HierarchyRow)
    : list ((Z * string * Z * string) * list (HierarchyRow * option HierarchyRow)) :=
  Sql.group_by
    (λ p : HierarchyRow * option HierarchyRow,
       (h_id p.1, h_name p.1, h_level p.1, h_full_path p.1))
    (filter (λ p : HierarchyRow * option HierarchyRow, h_depth p.1 = 0%Z)
       (Sql.left_join child_on ch ch)).

(** [SELECT parent.name AS category_name, COUNT(child.id) AS children_count,
     parent.level, parent.full_path] *)
Definition children_of_group
    (g : (Z * string * Z * string) * list (HierarchyRow * option HierarchyRow))
    : CategoryChildrenCount :=
  {| category_name := g.1.1.1.2;
     children_count :=
       Sql.count ((λ p : HierarchyRow * option HierarchyRow, h_id <$> p.2) <$> g.2);
     level := g.1.1.2;
     full_path := g.1.2 |}.

(** The whole answer before [LIMIT :limit OFFSET :offset]:
    [ORDER BY parent.name]. *)
Definition children_counts (collate : relation string)
    `{∀ x y, Decision (collate x y)} (ch : list HierarchyRow)
    : list CategoryChildrenCount :=
  Sql.order_by collate category_name (children_of_group <$> children_groups ch).

(** The endpoint: the analysis of the statement, whose column
    [full_path] is that of [get_category_tree], then its rows.
    [name_type] is the type of the column [name] of [app.categories].  A
    statement that the database refuses ends the handler. *)
Definition get_category_children_count (collate : relation string)
    `{∀ x y, Decision (collate x y)} (name_type : Sql.TextType)
    (cats : list Category) (pagination : Pagination.PaginationParams)
    : option (Sql.Result (list CategoryChildrenCount)) :=
  if decide (Tree.full_path_accepted name_type) then
    ch ← category_hierarchy cats;
    Some (Sql.Rows (Sql.limit_offset (Pagination.size pagination)
                      (Pagination.offset pagination) (children_counts collate ch)))
  else Some Sql.ProgrammingError.

(** [get_category_stats] of this module: the query of
    [Categories.get_category_stats] without the [category_id] column. *)
Record CategoryStatsItem := {
  item_category_name : string;
  item_products_count : Z;
  item_total_quantity : Z;
  item_avg_price : Q;
  item_min_price : Numeric;
  item_max_price : Numeric;
  item_total_value : Numeric;
}.

Definition stats_item_of_group
    (g : (Z * string) * list (Category * option Nomenclature)) : CategoryStatsItem :=
  let col (f : Nomenclature → Z) := (λ p : Category * option Nomenclature, f <$> p.2) <$> g.2 in
  {| item_category_name := g.1.2;
     item_products_count := Sql.count (col nom_id);
     item_total_quantity := Sql.coalesce (Sql.sum (col nom_quantity)) 0%Z;
     item_avg_price := Sql.coalesce (Sql.avg (col nom_price)) 0%Q;
     item_min_price := Sql.coalesce (Sql.min (col nom_price)) 0%Z;
     item_max_price := Sql.coalesce (Sql.max (col nom_price)) 0%Z;
     item_total_value :=
       Sql.coalesce (Sql.sum (col (λ n, (nom_price n * nom_quantity n)%Z))) 0%Z |}.

Definition get_category_stats (db : Database) : list CategoryStatsItem :=
  Sql.order_by (flip Z.le) item_total_value
    (stats_item_of_group
       <$> Categories.stats_groups (categories db) (nomenclature db)).

(** Words of the statements about the children counts: the roots that
    the query starts from, the direct children of a category, and the
    answer row of a root that counts exactly these. *)
Definition roots (cats : list Category) : list Category :=
  filter (λ c, cat_parent_id c = None ∧ cat_is_active c = true) cats.

Definition direct_children (cats : list Category) (c : Category)
    : list Category :=
  filter (λ ch, cat_parent_id ch = Some (cat_id c) ∧ cat_is_active ch = true)
    cats.

Definition immediate_children (cats : list Category) (c : Category)
    : CategoryChildrenCount :=
  {| category_name := cat_name c;
     children_count := Z.of_nat (length (direct_children cats c));
     level := cat_level c;
     full_path := cat_name c |}.

End Analytics.

(** ** [app/api/v1/endpoints/orders.py] *)

Module Orders.

(** *** Statements against the session

    A handler runs its statements inside one transaction.  A statement
    either goes on with a value or ends the handler with an exception. *)

Definition Db (A : Type) : Type := Database → Response A * Database.

Definition ret {A} (a : A) : Db A := λ db, (Ok a, db).

Definition bind {A B} (m : Db A) (k : A → Db B) : Db B :=
  λ db, match m db with
        | (Ok a, db') => k a db'
        | (HTTPException s d, db') => (HTTPException s d, db')
        | (IntegrityError, db') => (IntegrityError, db')
        end.

Local Notation "'let*' x ':=' m 'in' k" := (bind m (λ x, k))
  (at level 10, x pattern, m at level 100, k at level 200).

Definition raise {A} (status_code : Z) (detail : string) : Db A :=
  λ db, (HTTPException status_code detail, db).

Definition query {A} (q : Database → A) : Db A := λ db, (Ok (q db), db).

Definition execute (u : Database → Database) : Db unit := λ db, (Ok (), u db).

(** [for x in l: body(x)] *)
Fixpoint for_each {A} (l : list A) (body : A → Db unit) : Db unit :=
  match l with
  | [] => ret ()
  | x :: l' => let* _ := body x in for_each l' body
  end.

(** A handler that ends with an exception has not reached [db.commit()]:
    its writes are undone when the session is closed.  Values drawn from
    a sequence are not given back. *)
Definition rollback (before after : Database) : Database :=
  {| categories := categories before;
     nomenclature := nomenclature before;
     clients := clients before;
     orders := orders before;
     order_items := order_items before;
     orders_id_seq := orders_id_seq after |}.

Definition handler {A} (m : Db A) : Database → Response A * Database :=
  λ db, match m db with
        | (Ok a, db') => (Ok a, db')
        | (HTTPException s d, db') => (HTTPException s d, rollback db db')
        | (IntegrityError, db') => (IntegrityError, rollback db db')
        end.

Definition set_nomenclature (f : list Nomenclature → list Nomenclature)
    (db : Database) : Database :=
  {| categories := categories db;
     nomenclature := f (nomenclature db);
     clients := clients db;
     orders := orders db;
     order_items := order_items db;
     orders_id_seq := orders_id_seq db |}.

(** [UPDATE app.nomenclature SET quantity = quantity + :delta
     WHERE id = :nomenclature_id] *)
Definition add_quantity (nomenclature_id delta : Z) (n : Nomenclature)
    : Nomenclature :=
  if decide (nom_id n = nomenclature_id) then
    {| nom_id := nom_id n; nom_quantity := (nom_quantity n + delta)%Z;
       nom_price := nom_price n; nom_category_id := nom_category_id n;
       nom_is_active := nom_is_active n |}
  else n.

Definition update_quantity (nomenclature_id delta : Z) : Db unit :=
  execute (set_nomenclature (fmap (add_quantity nomenclature_id delta))).

(** [INSERT INTO app.orders (...) VALUES (...) RETURNING id, ...]: the id
    is the next value of the sequence; [id] is the primary key. *)
Definition insert_order (client : Z) (status : OrderStatus)
    (payment_status : PaymentStatus) : Db Order :=
  λ db,
    let new_id := (orders_id_seq db + 1)%Z in
    let row := {| order_id := new_id; order_client_id := client;
                  order_status := status;
                  order_payment_status := payment_status |} in
    if decide (new_id ∈ order_id <$> orders db) then
      (IntegrityError,
       {| categories := categories db; nomenclature := nomenclature db;
          clients := clients db; orders := orders db;
          order_items := order_items db; orders_id_seq := new_id |})
    else
      (Ok row,
       {| categories := categories db; nomenclature := nomenclature db;
          clients := clients db; orders := orders db ++ [row];
          order_items := order_items db; orders_id_seq := new_id |}).

(** [INSERT INTO app.order_items (...)] under
    [UniqueConstraint("order_id", "nomenclature_id")]. *)
Definition insert_order_item (row : OrderItem) : Db unit :=
  λ db,
    if decide ((item_order_id row, item_nomenclature_id row)
               ∈ (λ i, (item_order_id i, item_nomenclature_id i)) <$> order_items db)
    then (IntegrityError, db)
    else
      (Ok (),
       {| categories := categories db; nomenclature := nomenclature db;
          clients := clients db; orders := orders db;
          order_items := order_items db ++ [row];
          orders_id_seq := orders_id_seq db |}).

(** [DELETE FROM app.orders WHERE id = :order_id]; the items go with the
    order ([ondelete="CASCADE"]). *)
Definition delete_order_row (id : Z) : Db unit :=
  execute (λ db,
    {| categories := categories db; nomenclature := nomenclature db;
       clients := clients db;
       orders := filter (λ o, order_id o ≠ id) (orders db);
       order_items := filter (λ i, item_order_id i ≠ id) (order_items db);
       orders_id_seq := orders_id_seq db |}).

(** *** [app/schemas/order.py] *)

Record OrderItemCreate := {
  nomenclature_id : Z;
  quantity : Z;
  price : Numeric;
  total_price : Numeric;
}.

Record OrderCreate := {
  create_client_id : Z;
  create_status : OrderStatus;
  create_payment_status : PaymentStatus;
  create_items : list OrderItemCreate;
}.

(** [gt=0] on [quantity], [price] and [total_price]; [min_items=1]. *)
Definition OrderCreate_valid (order : OrderCreate) : Prop :=
  1 ≤ length (create_items order)
  ∧ Forall (λ item, (0 < quantity item)%Z ∧ (0 < price item)%Z
                    ∧ (0 < total_price item)%Z) (create_items order).

Global Instance OrderCreate_valid_dec order : Decision (OrderCreate_valid order).
Proof. unfold OrderCreate_valid. apply _. Defined.

Record OrderResponse := {
  resp_id : Z;
  resp_client_id : Z;
  resp_status : OrderStatus;
  resp_payment_status : PaymentStatus;
  resp_items_count : nat;
}.

(** *** [create_order] *)

(** The body of the first loop, [# Проверяем товары]. *)
Definition check_item (item : OrderItemCreate) : Db unit :=
  let* nomenclature_result :=
    query (λ db, head (filter (λ n, nom_id n = nomenclature_id item
                                     ∧ nom_is_active n = true)
                         (nomenclature db))) in
  match nomenclature_result with
  | None =>
      raise 400 ("Товар с ID " +:+ pretty (nomenclature_id item) +:+ " не найден")
  | Some n =>
      if decide (nom_quantity n < quantity item)%Z then
        raise 400
          ("Недостаточно товара " +:+ pretty (nomenclature_id item) +:+ " на складе")
      else if decide (price item ≠ nom_price n) then
        raise 400
          ("Цена товара " +:+ pretty (nomenclature_id item) +:+ " изменилась")
      else ret ()
  end.

(** The body of the second loop, [# Создаем позиции заказа]. *)
Definition place_item (order_result : Order) (item : OrderItemCreate) : Db unit :=
  let* _ := insert_order_item
    {| item_order_id := order_id order_result;
       item_nomenclature_id := nomenclature_id item;
       item_quantity := quantity item;
       item_price := price item;
       item_total_price := total_price item |} in
  update_quantity (nomenclature_id item) (- quantity item).

Definition create_order_body (order : OrderCreate) : Db OrderResponse :=
  let* client_result :=
    query (λ db, head (filter (λ c, client_id c = create_client_id order
                                     ∧ client_is_active c = true)
                         (clients db))) in
  match client_result with
  | None => raise 400 "Клиент не найден"
  | Some _ =>
      let* _ := for_each (create_items order) check_item in
      let* order_result :=
        insert_order (create_client_id order) (create_status order)
          (create_payment_status order) in
      let* _ := for_each (create_items order) (place_item order_result) in
      ret {| resp_id := order_id order_result;
             resp_client_id := order_client_id order_result;
             resp_status := order_status order_result;
             resp_payment_status := order_payment_status order_result;
             resp_items_count := length (create_items order) |}
  end.

(** The handler up to [db.commit()].  A body that does not pass the
    schema is answered with 422 before the handler runs.  [Ok] marks the
    commit and carries the values that the handler goes on with; the
    answer is built after the commit. *)
Definition create_order (order : OrderCreate) (db : Database)
    : Response OrderResponse * Database :=
  if decide (OrderCreate_valid order) then handler (create_order_body order) db
  else (HTTPException 422 "Unprocessable Entity", db).

(** *** [delete_order] *)

Definition delete_order_body (id : Z) : Db string :=
  let* existing := query (λ db, head (filter (λ o, order_id o = id) (orders db))) in
  match existing with
  | None => raise 404 "Заказ не найден"
  | Some o =>
      if decide (order_status o ∈ [COMPLETED; PROCESSING]) then
        raise 400 "Нельзя удалить заказ в статусе 'completed' или 'processing'"
      else
        let* items :=
          query (λ db, filter (λ i, item_order_id i = id) (order_items db)) in
        let* _ :=
          for_each items
            (λ item, update_quantity (item_nomenclature_id item) (item_quantity item)) in
        let* _ := delete_order_row id in
        ret "Заказ удален"
  end.

Definition delete_order (id : Z) (db : Database) : Response string * Database :=
  handler (delete_order_body id) db.

(** Words of the statements about stock.  The foreign key of
    [order_items.order_id]: every item belongs to an order of the table. *)
Definition order_items_reference_orders (db : Database) : Prop :=
  ∀ i, i ∈ order_items db → item_order_id i ∈ order_id <$> orders db.

Global Instance order_items_reference_orders_dec db :
  Decision (order_items_reference_orders db).
Proof.
  refine (cast_if (decide (Forall (λ i, item_order_id i ∈ order_id <$> orders db)
                             (order_items db))));
    unfold order_items_reference_orders; by rewrite Forall_forall in *.
Defined.

(** A stock movement is a nomenclature id and a difference.  [moved ds id]
    is what the movements [ds] add to the row [id]; [move_all ds] is the
    table after one UPDATE for each movement. *)
Fixpoint moved (ds : list (Z * Z)) (id : Z) : Z :=
  match ds with
  | [] => 0
  | d :: ds' => if decide (id = d.1) then (d.2 + moved ds' id)%Z else moved ds' id
  end.

Definition move_all (ds : list (Z * Z)) (noms : list Nomenclature)
    : list Nomenclature :=
  foldl (λ ns d, add_quantity d.1 d.2 <$> ns) noms ds.

(** What an order takes from the stock, and the items it adds to
    [order_items]. *)
Definition taken (items : list OrderItemCreate) : list (Z * Z) :=
  (λ item, (nomenclature_id item, (- quantity item)%Z)) <$> items.

Definition returned (items : list OrderItem) : list (Z * Z) :=
  (λ item, (item_nomenclature_id item, item_quantity item)) <$> items.

Definition item_rows (id : Z) (items : list OrderItemCreate) : list OrderItem :=
  (λ item, {| item_order_id := id;
              item_nomenclature_id := nomenclature_id item;
              item_quantity := quantity item;
              item_price := price item;
              item_total_price := total_price item |}) <$> items.

(** The database after [INSERT INTO app.orders] of the row [o], and after
    the second loop of [create_order] has gone through [items]. *)
Definition inserted (o : Order) (db : Database) : Database :=
  {| categories := categories db;
     nomenclature := nomenclature db;
     clients := clients db;
     orders := orders db ++ [o];
     order_items := order_items db;
     orders_id_seq := order_id o |}.

Definition placed (o : Order) (items : list OrderItemCreate) (db : Database)
    : Database :=
  {| categories := categories db;
     nomenclature := move_all (taken items) (nomenclature db);
     clients := clients db;
     orders := orders db;
     order_items := order_items db ++ item_rows (order_id o) items;
     orders_id_seq := orders_id_seq db |}.

Definition item_key (i : OrderItem) : Z * Z :=
  (item_order_id i, item_nomenclature_id i).

Definition new_order (order : OrderCreate) (db : Database) : Order :=
  {| order_id := (orders_id_seq db + 1)%Z;
     order_client_id := create_client_id order;
     order_status := create_status order;
     order_payment_status := create_payment_status order |}.

End Orders.

(** ** [tests/conftest.py]: the fixtures *)

Module Fixtures.

Definition category (id : Z) (name : string) (parent_id : option Z) (level : Z)
    : Category :=
  {| cat_id := id; cat_name := name; cat_parent_id := parent_id;
     cat_path := Some name; cat_level := level; cat_is_active := true |}.

Definition sample_categories : list Category :=
  [ category 1 "Бытовая техника" None 0;
    category 2 "Компьютеры" None 0;
    category 3 "Стиральные машины" (Some 1%Z) 1;
    category 4 "Холодильники" (Some 1%Z) 1;
    category 5 "Ноутбуки" (Some 2%Z) 1 ].

Definition sample_nomenclature : list Nomenclature :=
  [ {| nom_id := 1; nom_quantity := 5; nom_price := 2500000%Z;
       nom_category_id := 3; nom_is_active := true |};
    {| nom_id := 2; nom_quantity := 3; nom_price := 3500000%Z;
       nom_category_id := 4; nom_is_active := true |};
    {| nom_id := 3; nom_quantity := 2; nom_price := 4500000%Z;
       nom_category_id := 5; nom_is_active := true |} ].

Definition sample_clients : list Client :=
  [ {| client_id := 1; client_is_active := true |};
    {| client_id := 2; client_is_active := true |} ].

Definition sample_db : Database :=
  {| categories := sample_categories;
     nomenclature := sample_nomenclature;
     clients := sample_clients;
     orders := [];
     order_items := [];
     orders_id_seq := 0 |}.

(** The order of [test_delete_order] in [tests/test_api_orders.py]. *)
Definition pending_order : Orders.OrderCreate :=
  {| Orders.create_client_id := 1;
     Orders.create_status := PENDING;
     Orders.create_payment_status := UNPAID;
     Orders.create_items :=
       [ {| Orders.nomenclature_id := 1; Orders.quantity := 1;
            Orders.price := 2500000%Z; Orders.total_price := 2500000%Z |} ] |}.

(** Rows for the loop of [get_category_tree]. *)
Definition tree_row (id : Z) (name : string) (parent_id : option Z)
    : Tree.TreeRow :=
  {| Tree.row_info :=
       {| Tree.info_id := id; Tree.info_name := name;
          Tree.info_parent_id := parent_id; Tree.info_level := 0;
          Tree.info_path := Some name |};
     Tree.row_depth := 0;
     Tree.row_full_path := name |}.

(** The five categories of [sample_categories], parents first. *)
Definition sample_rows : list Tree.TreeRow :=
  [ tree_row 1 "Бытовая техника" None;
    tree_row 3 "Стиральные машины" (Some 1%Z);
    tree_row 4 "Холодильники" (Some 1%Z);
    tree_row 2 "Компьютеры" None;
    tree_row 5 "Ноутбуки" (Some 2%Z) ].

(** A row whose parent is not among the rows. *)
Definition orphan_rows : list Tree.TreeRow :=
  [ tree_row 9 "X" (Some 42%Z) ].

(** A row that comes before the row of its parent. *)
Definition child_first_rows : list Tree.TreeRow :=
  [ tree_row 3 "Стиральные машины" (Some 1%Z);
    tree_row 1 "Бытовая техника" None ].

(** Two rows, each the parent of the other. *)
Definition cycle_rows : list Tree.TreeRow :=
  [ tree_row 1 "A" (Some 2%Z); tree_row 2 "B" (Some 1%Z) ].

(** Two root categories whose [path] is made of ids. *)
Definition id_path_categories : list Category :=
  [ {| cat_id := 1; cat_name := "Компьютеры"; cat_parent_id := None;
       cat_path := Some "1"; cat_level := 0; cat_is_active := true |};
    {| cat_id := 2; cat_name := "Бытовая техника"; cat_parent_id := None;
       cat_path := Some "2"; cat_level := 0; cat_is_active := true |} ].

(** The rows of the CTE of [get_category_tree] for these two. *)
Definition id_path_rows : list Tree.TreeRow :=
  (λ c, {| Tree.row_info := Tree.info_of c; Tree.row_depth := 0;
           Tree.row_full_path := cat_name c |}) <$> id_path_categories.

(** A root with the children A and B, of which A has the children C and
    D. *)
Definition grandchildren_categories : list Category :=
  [ category 1 "Root" None 0;
    category 2 "A" (Some 1%Z) 1;
    category 3 "B" (Some 1%Z) 1;
    category 4 "C" (Some 2%Z) 2;
    category 5 "D" (Some 2%Z) 2 ].

End Fixtures.

(** ** [app/schemas/base.py]: [PaginatedResponse] *)

Module Paginated.

Record PaginatedResponse (A : Type) := {
  items : list A;
  total : Z;
  page : Z;
  size : Z;
  pages : Z;
}.
Arguments items {A} _.
Arguments total {A} _.
Arguments page {A} _.
Arguments size {A} _.
Arguments pages {A} _.

(** [PaginatedResponse.create]: [pages = (total + size - 1) // size].  The
    arguments are plain integers without a constraint; a [size] of zero
    ends the call with ZeroDivisionError, here [None]. *)
Definition create {A} (items : list A) (total page size : Z)
    : option (PaginatedResponse A) :=
  if decide (size = 0%Z) then None
  else Some {| items := items; total := total; page := page; size := size;
               pages := ((total + size - 1) `div` size)%Z |}.

(** Words of the statements about pages: the rows that a query with
    [LIMIT :limit OFFSET :offset] hands back for [PaginationParams(page,
    size)]. *)
Definition page_of {A} (size page : nat) (l : list A) : list A :=
  Sql.limit_offset size
    (Pagination.offset {| Pagination.page := page; Pagination.size := size |}) l.

End Paginated.

(** ** The constraints of [app/db/models.py] *)

Module Integrity.

(** Primary keys, the unique constraint of [order_items] and the
    foreign keys between the modelled tables. *)
Definition primary_keys (db : Database) : Prop :=
  NoDup (cat_id <$> categories db)
  ∧ NoDup (nom_id <$> nomenclature db)
  ∧ NoDup (client_id <$> clients db)
  ∧ NoDup (order_id <$> orders db)
  ∧ NoDup (Orders.item_key <$> order_items db).

Definition foreign_keys (db : Database) : Prop :=
  Forall (λ p, p ∈ cat_id <$> categories db)
    (omap cat_parent_id (categories db))
  ∧ Forall (λ n, nom_category_id n ∈ cat_id <$> categories db) (nomenclature db)
  ∧ Forall (λ o, order_client_id o ∈ client_id <$> clients db) (orders db)
  ∧ Forall (λ i, item_order_id i ∈ order_id <$> orders db) (order_items db)
  ∧ Forall (λ i, item_nomenclature_id i ∈ nom_id <$> nomenclature db)
      (order_items db).

Definition constraints (db : Database) : Prop :=
  primary_keys db ∧ foreign_keys db.

Global Instance constraints_dec db : Decision (constraints db).
Proof. unfold constraints, primary_keys, foreign_keys. apply _. Defined.

(** No stock figure is negative. *)
Definition stock_nonnegative (db : Database) : Prop :=
  Forall (λ n, (0 ≤ nom_quantity n)%Z) (nomenclature db).

(** The five tables of two databases hold the same rows; the sequence
    is not looked at. *)
Definition same_tables (db1 db2 : Database) : Prop :=
  categories db1 = categories db2
  ∧ nomenclature db1 = nomenclature db2
  ∧ clients db1 = clients db2
  ∧ orders db1 = orders db2
  ∧ order_items db1 = order_items db2.

End Integrity.

(** ** Words of the statements about [create_order] and [delete_order] *)

Module OrderRules.
Import Orders.

Definition active_client (db : Database) (id : Z) : Prop :=
  ∃ c, c ∈ clients db ∧ client_id c = id ∧ client_is_active c = true.

(** The item names an active nomenclature row that holds at least the
    quantity asked for and carries the price the item was sent with. *)
Definition in_stock (db : Database) (item : OrderItemCreate) : Prop :=
  ∃ n, n ∈ nomenclature db ∧ nom_id n = nomenclature_id item
       ∧ nom_is_active n = true
       ∧ (quantity item ≤ nom_quantity n)%Z ∧ price item = nom_price n.

(** What [create_order] asks of an order: the schema, the client, each
    item, no nomenclature id named twice, and an id from the sequence
    that no order has. *)
Definition acceptable (order : OrderCreate) (db : Database) : Prop :=
  OrderCreate_valid order
  ∧ active_client db (create_client_id order)
  ∧ Forall (in_stock db) (create_items order)
  ∧ NoDup (nomenclature_id <$> create_items order)
  ∧ (orders_id_seq db + 1)%Z ∉ order_id <$> orders db.

Definition order_present (id : Z) (db : Database) : Prop :=
  ∃ o, o ∈ orders db ∧ order_id o = id.

(** The statuses in which [delete_order] refuses an order. *)
Definition frozen (s : OrderStatus) : Prop := s ∈ [COMPLETED; PROCESSING].

(** The items of an order, and what they hold of a nomenclature row. *)
Definition items_of (id : Z) (db : Database) : list OrderItem :=
  filter (λ i, item_order_id i = id) (order_items db).

Definition held (id nomenclature_id : Z) (db : Database) : Z :=
  moved (returned (items_of id db)) nomenclature_id.

End OrderRules.

(** ** [app/api/v1/endpoints/orders.py]: [update_order] *)

Module OrderUpdates.
Import Orders.

Local Notation "'let*' x ':=' m 'in' k" := (bind m (λ x, k))
  (at level 10, x pattern, m at level 100, k at level 200).

(** [app/schemas/order.py]: every field may be left out. *)
Record OrderUpdate := {
  update_status : option OrderStatus;
  update_payment_status : option PaymentStatus;
  update_notes : option string;
}.

(** [SET status = :status, payment_status = :payment_status,
     notes = :notes, updated_by = :updated_by], with the assignments of
    the fields that are given only.  [notes] and [updated_by] are not
    among the columns kept in [Order]. *)
Definition set_fields (u : OrderUpdate) (o : Order) : Order :=
  {| order_id := order_id o;
     order_client_id := order_client_id o;
     order_status := default (order_status o) (update_status u);
     order_payment_status :=
       default (order_payment_status o) (update_payment_status u) |}.

Definition set_orders (f : list Order → list Order) (db : Database) : Database :=
  {| categories := categories db;
     nomenclature := nomenclature db;
     clients := clients db;
     orders := f (orders db);
     order_items := order_items db;
     orders_id_seq := orders_id_seq db |}.

(** [UPDATE app.orders SET ... WHERE id = :order_id RETURNING ...],
    read with [.first()]. *)
Definition update_returning (id : Z) (u : OrderUpdate) : Db (option Order) :=
  λ db,
    let db' :=
      set_orders (fmap (λ o, if decide (order_id o = id) then set_fields u o else o))
        db in
    (Ok (head (filter (λ o, order_id o = id) (orders db'))), db').

(** An exception that is no [HTTPException] reaches the client as this
    answer. *)
Definition internal_server_error {A} : Response A :=
  HTTPException 500 "Internal Server Error".

(** The handler up to [db.commit()]. *)
Definition update_order_body (id : Z) (u : OrderUpdate) : Db (option Order) :=
  let* existing := query (λ db, head (filter (λ o, order_id o = id) (orders db))) in
  match existing with
  | None => raise 404 "Заказ не найден"
  | Some _ =>
      if decide (update_status u = None ∧ update_payment_status u = None
                 ∧ update_notes u = None) then
        raise 400 "Нет данных для обновления"
      else update_returning id u
  end.

(** [OrderResponse(...)]: the class checks its fields when the answer is
    built.  [items] is the field of [OrderBase], [min_items=1], which
    [OrderResponse] does not declare anew; an answer with fewer items
    ends the handler with ValidationError. *)
Definition OrderResponse_new {A} (answer : A) (items : list OrderItemCreate)
    : Response A :=
  if decide (1 ≤ length items) then Ok answer else internal_server_error.

(** After the commit the handler reads [client_name] and [items_count]
    from a query over [app.clients c ... WHERE c.id = :client_id
    GROUP BY c.name] with [.first()]: without a client row there is no
    group.  Reading a column of [None], be it the updated row or this
    group, ends the handler with AttributeError.  Then the answer is
    built, [OrderResponse(..., items=[])].  Whatever ends the handler
    here, the update is committed.  Of the answer the columns of the
    updated row are kept. *)
Definition update_order (id : Z) (u : OrderUpdate) (db : Database)
    : Response Order * Database :=
  match handler (update_order_body id u) db with
  | (Ok None, db') => (internal_server_error, db')
  | (Ok (Some result), db') =>
      match filter (λ c, client_id c = order_client_id result) (clients db') with
      | [] => (internal_server_error, db')
      | _ => (OrderResponse_new result [], db')
      end
  | (HTTPException status_code detail, db') =>
      (HTTPException status_code detail, db')
  | (IntegrityError, db') => (IntegrityError, db')
  end.

(** [create_order] whole: [Orders.create_order] is the handler up to
    [db.commit()], its [Ok] the values that the handler goes on with;
    after the commit the answer is built, [OrderResponse(..., items=[])]. *)
Definition create_order_answer (order : OrderCreate) (db : Database)
    : Response OrderResponse * Database :=
  match create_order order db with
  | (Ok resp, db') => (OrderResponse_new resp [], db')
  | (HTTPException status_code detail, db') =>
      (HTTPException status_code detail, db')
  | (IntegrityError, db') => (IntegrityError, db')
  end.

(** Words of the statements about [update_order]. *)
Definition nothing_given (u : OrderUpdate) : Prop :=
  update_status u = None ∧ update_payment_status u = None
  ∧ update_notes u = None.

Definition updated (id : Z) (u : OrderUpdate) (o : Order) : Order :=
  if decide (order_id o = id) then set_fields u o else o.

Definition only_status (s : OrderStatus) : OrderUpdate :=
  {| update_status := Some s; update_payment_status := None;
     update_notes := None |}.

End OrderUpdates.

(** ** [app/api/v1/endpoints/nomenclature.py] and [clients.py]: deletion *)

Module NomenclatureApi.

(** [DELETE FROM app.nomenclature WHERE id = :nomenclature_id] *)
Definition without_nomenclature (nomenclature_id : Z) (db : Database) : Database :=
  {| categories := categories db;
     nomenclature := filter (λ n, nom_id n ≠ nomenclature_id) (nomenclature db);
     clients := clients db;
     orders := orders db;
     order_items := order_items db;
     orders_id_seq := orders_id_seq db |}.

Definition delete_nomenclature (nomenclature_id : Z) (db : Database)
    : Response string * Database :=
  match filter (λ n, nom_id n = nomenclature_id) (nomenclature db) with
  | [] => (HTTPException 404 "Товар не найден", db)
  | _ =>
      let orders_count :=
        length (filter (λ i, item_nomenclature_id i = nomenclature_id)
                  (order_items db)) in
      if decide (0 < orders_count) then
        (HTTPException 400 "Нельзя удалить товар, который есть в заказах", db)
      else (Ok "Товар удален", without_nomenclature nomenclature_id db)
  end.

End NomenclatureApi.

Module ClientsApi.

(** [DELETE FROM app.clients WHERE id = :client_id] *)
Definition without_client (id : Z) (db : Database) : Database :=
  {| categories := categories db;
     nomenclature := nomenclature db;
     clients := filter (λ c, client_id c ≠ id) (clients db);
     orders := orders db;
     order_items := order_items db;
     orders_id_seq := orders_id_seq db |}.

Definition delete_client (id : Z) (db : Database) : Response string * Database :=
  match filter (λ c, client_id c = id) (clients db) with
  | [] => (HTTPException 404 "Клиент не найден", db)
  | _ =>
      let orders_count :=
        length (filter (λ o, order_client_id o = id) (orders db)) in
      if decide (0 < orders_count) then
        (HTTPException 400 "Нельзя удалить клиента с заказами", db)
      else (Ok "Клиент удален", without_client id db)
  end.

End ClientsApi.

(** ** Words of the statements about the rows of the tree query *)

Module Lineage.
Import Tree.

(** [ancestors] are the categories from the parent of [c] up to a
    category without parent, nearest first, and [c] and all of them are
    active rows of the table. *)
Fixpoint lineage (cats : list Category) (c : Category)
    (ancestors : list Category) : Prop :=
  c ∈ cats ∧ cat_is_active c = true
  ∧ match ancestors with
    | [] => cat_parent_id c = None
    | p :: rest => cat_parent_id c = Some (cat_id p) ∧ lineage cats p rest
    end.

(** The names from the topmost ancestor down to [c], joined by
    [" -> "]. *)
Fixpoint full_path (c : Category) (ancestors : list Category) : string :=
  match ancestors with
  | [] => cat_name c
  | p :: rest => full_path p rest +:+ " -> " +:+ cat_name c
  end.

(** The two SELECT lists of the query, by name. *)
Definition root_row (c : Category) : TreeRow :=
  {| row_info := info_of c; row_depth := 0; row_full_path := cat_name c |}.

Definition child_row (c : Category) (ct : TreeRow) : TreeRow :=
  {| row_info := info_of c; row_depth := (row_depth ct + 1)%Z;
     row_full_path := row_full_path ct +:+ " -> " +:+ cat_name c |}.

Definition row_for (c : Category) (ancestors : list Category) : TreeRow :=
  {| row_info := info_of c;
     row_depth := Z.of_nat (length ancestors);
     row_full_path := full_path c ancestors |}.

(** [path] puts every category strictly behind its parent. *)
Definition parents_sort_first (collate : relation string)
    (cats : list Category) : Prop :=
  Forall (λ c, Forall (λ p, cat_parent_id c = Some (cat_id p) →
                            ¬ Sql.nulls_last collate (cat_path c) (cat_path p))
                 cats) cats.

(** Every object of the store names, as its parent, the object in
    whose ["children"] it stands. *)
Definition named (st : state) : Prop :=
  ∀ k d, store st !! k = Some d →
         Forall (λ c, ∃ i, (cd_info <$> store st) !! c = Some i
                           ∧ info_parent_id i = Some (info_id (cd_info d)))
           (cd_children d).

Global Instance parents_sort_first_dec (collate : relation string)
    `{∀ x y, Decision (collate x y)} (cats : list Category) :
  Decision (parents_sort_first collate cats).
Proof. unfold parents_sort_first. apply _. Defined.

(** The nodes right below the nodes of a forest name them as parent. *)
Definition children_name_their_parent (f : list CategoryTree) : Prop :=
  Forall (λ s, Forall (λ ch, info_parent_id (tree_info ch)
                             = Some (info_id (tree_info s)))
                 (tree_children s))
    (f ≫= subtrees).

End Lineage.

(** ** Words of the statements about the statistics of the categories *)

Module Inventory.
Import Categories.

(** An aggregate of [categories.py] without its [category_id]: the row of
    [analytics.py]. *)
Definition as_item (s : CategoryStats) : Analytics.CategoryStatsItem :=
  {| Analytics.item_category_name := stats_category_name s;
     Analytics.item_products_count := stats_products_count s;
     Analytics.item_total_quantity := stats_total_quantity s;
     Analytics.item_avg_price := stats_avg_price s;
     Analytics.item_min_price := stats_min_price s;
     Analytics.item_max_price := stats_max_price s;
     Analytics.item_total_value := stats_total_value s |}.

(** The active nomenclature rows of the active categories. *)
Definition on_sale (db : Database) : list Nomenclature :=
  filter (λ n, nom_is_active n = true
               ∧ nom_category_id n
                 ∈ cat_id <$> filter (λ c, cat_is_active c = true) (categories db))
    (nomenclature db).

Definition total {A} (f : A → Z) (l : list A) : Z := foldr Z.add 0%Z (f <$> l).

End Inventory.

(** ** [app/api/v1/endpoints/categories.py]: reading and creating categories *)

Module CategoryApi.

Global Instance Category_eq_dec : EqDecision Category.
Proof. solve_decision. Defined.

(** [app/schemas/category.py]: the columns of the category and
    [children_count]. *)
Record CategoryResponse := {
  category : Category;
  children_count : Z;
}.

(** [ON c.id = child.parent_id AND child.is_active = TRUE] *)
Definition child_on (c child : Category) : bool :=
  bool_decide (cat_parent_id child = Some (cat_id c)) && cat_is_active child.

(** [FROM app.categories c LEFT JOIN app.categories child ON ...
     WHERE ... GROUP BY c.id, c.uuid, c.name, ...]: the grouping columns
    are the columns of [c], the primary key among them. *)
Definition category_groups (where_ : Category → Prop)
    `{∀ c, Decision (where_ c)} (cats : list Category)
    : list (Category * list (Category * option Category)) :=
  Sql.group_by (λ p : Category * option Category, p.1)
    (filter (λ p : Category * option Category, where_ p.1)
       (Sql.left_join child_on cats cats)).

(** [SELECT c.id, ..., COUNT(child.id) as children_count] *)
Definition category_response
    (g : Category * list (Category * option Category)) : CategoryResponse :=
  {| category := g.1;
     children_count :=
       Sql.count ((λ p : Category * option Category, cat_id <$> p.2) <$> g.2) |}.

(** [WHERE c.is_active = :is_active OR :is_active IS NULL] *)
Definition is_active_filter (is_active : option bool) (c : Category) : Prop :=
  Some (cat_is_active c) = is_active ∨ is_active = None.

Global Instance is_active_filter_dec is_active c :
  Decision (is_active_filter is_active c).
Proof. unfold is_active_filter. apply _. Defined.

(** The answer of [get_categories] before [LIMIT :limit OFFSET :offset]:
    [ORDER BY c.name]. *)
Definition categories_listing (collate : relation string)
    `{∀ x y, Decision (collate x y)} (is_active : option bool)
    (cats : list Category) : list CategoryResponse :=
  Sql.order_by collate (λ r, cat_name (category r))
    (category_response <$> category_groups (is_active_filter is_active) cats).

Definition get_categories (collate : relation string)
    `{∀ x y, Decision (collate x y)} (pagination : Pagination.PaginationParams)
    (is_active : option bool) (db : Database) : list CategoryResponse :=
  Sql.limit_offset (Pagination.size pagination) (Pagination.offset pagination)
    (categories_listing collate is_active (categories db)).

(** [get_category]: [WHERE c.id = :category_id], read with [.first()]. *)
Definition get_category (category_id : Z) (db : Database)
    : Response CategoryResponse :=
  match category_response
          <$> category_groups (λ c, cat_id c = category_id) (categories db) with
  | [] => HTTPException 404 "Категория не найдена"
  | result :: _ => Ok result
  end.

(** Words of the statements about reading: the active categories that
    name [c] as their parent, and the answer row of [c] that counts
    them. *)
Definition active_children (cats : list Category) (c : Category)
    : list Category :=
  filter (λ ch, cat_parent_id ch = Some (cat_id c) ∧ cat_is_active ch = true)
    cats.

Definition with_children (cats : list Category) (c : Category)
    : CategoryResponse :=
  {| category := c;
     children_count := Z.of_nat (length (active_children cats c)) |}.

End CategoryApi.

(** ** [app/api/v1/endpoints/categories.py]: [create_category] *)

Module CategoryWrites.
Import Orders CategoryApi.

Local Notation "'let*' x ':=' m 'in' k" := (bind m (λ x, k))
  (at level 10, x pattern, m at level 100, k at level 200).

(** [app/schemas/category.py] *)
Record CategoryCreate := {
  create_name : string;
  create_parent_id : option Z;
  create_is_active : bool;
}.

(** The number of characters of a text that is held as UTF-8: the bytes
    that do not continue a character. *)
Definition characters (s : string) : nat :=
  length (filter (λ a, N.land (N_of_ascii a) 192 ≠ 128%N)
            (String.list_ascii_of_string s)).

(** [min_length=1, max_length=255] *)
Definition CategoryCreate_valid (category : CategoryCreate) : Prop :=
  1 ≤ characters (create_name category) ≤ 255.

Global Instance CategoryCreate_valid_dec category :
  Decision (CategoryCreate_valid category).
Proof. unfold CategoryCreate_valid. apply _. Defined.

(** [a = b] of SQL holds for two values that are not NULL and equal. *)
Definition sql_eq (a b : option Z) : Prop :=
  match a, b with
  | Some x, Some y => x = y
  | _, _ => False
  end.

Global Instance sql_eq_dec a b : Decision (sql_eq a b).
Proof. destruct a, b; simpl; apply _. Defined.

(** The columns of a new row that the handler does not send and the
    database fills in: the id from the sequence of the table, and what
    the defaults and triggers of the database, which are not part of the
    Python sources, make of [level], [path] and [is_active]. *)
Record Generated := {
  gen_id : Z;
  gen_level : Z;
  gen_path : option string;
  gen_is_active : bool;
}.

Definition new_category (category : CategoryCreate) (g : Generated) : Category :=
  {| cat_id := gen_id g;
     cat_name := create_name category;
     cat_parent_id := create_parent_id category;
     cat_path := gen_path g;
     cat_level := gen_level g;
     cat_is_active := gen_is_active g |}.

Definition with_category (row : Category) (db : Database) : Database :=
  {| categories := categories db ++ [row];
     nomenclature := nomenclature db;
     clients := clients db;
     orders := orders db;
     order_items := order_items db;
     orders_id_seq := orders_id_seq db |}.

(** [INSERT INTO app.categories (name, parent_id, created_by) VALUES (...)
     RETURNING ...] under the primary key [id] and the foreign key of
    [parent_id]. *)
Definition insert_category (category : CategoryCreate) (g : Generated)
    : Db Category :=
  λ db,
    let row := new_category category g in
    if decide (cat_id row ∈ cat_id <$> categories db) then (IntegrityError, db)
    else if decide (Forall (λ p, p ∈ cat_id <$> categories db ++ [row])
                      (option_list (cat_parent_id row)))
    then (Ok row, with_category row db)
    else (IntegrityError, db).

(** [# Проверяем существование родительской категории]; [if
    category.parent_id:] holds for an id that is neither [None] nor
    zero. *)
Definition check_parent (category : CategoryCreate) : Db unit :=
  match create_parent_id category with
  | None => ret ()
  | Some parent_id =>
      if decide (parent_id = 0%Z) then ret ()
      else
        let* parent_result :=
          query (λ db, head (filter (λ c, cat_id c = parent_id
                                          ∧ cat_is_active c = true)
                               (categories db))) in
        match parent_result with
        | None => raise 400 "Родительская категория не найдена"
        | Some _ => ret ()
        end
  end.

Definition create_category_body (category : CategoryCreate) (g : Generated)
    : Db CategoryResponse :=
  let* _ := check_parent category in
  let* existing :=
    query (λ db, head (filter (λ c, cat_name c = create_name category
                                    ∧ sql_eq (cat_parent_id c)
                                        (create_parent_id category)
                                    ∧ cat_is_active c = true)
                         (categories db))) in
  match existing with
  | Some _ => raise 400 "Категория с таким именем уже существует"
  | None =>
      let* result := insert_category category g in
      ret {| category := result; children_count := 0 |}
  end.

(** A body that does not pass the schema is answered with 422 before the
    handler runs.  The answer is the row read back; its check against
    the schema class is not part of the embedding. *)
Definition create_category (category : CategoryCreate) (g : Generated)
    (db : Database) : Response CategoryResponse * Database :=
  if decide (CategoryCreate_valid category) then
    handler (create_category_body category g) db
  else (HTTPException 422 "Unprocessable Entity", db).

(** Words of the statements about [create_category]. *)
Definition active_category (db : Database) (id : Z) : Prop :=
  ∃ c, c ∈ categories db ∧ cat_id c = id ∧ cat_is_active c = true.

Global Instance active_category_dec db id : Decision (active_category db id).
Proof.
  refine (cast_if (decide (Exists (λ c, cat_id c = id ∧ cat_is_active c = true)
                             (categories db))));
    unfold active_category; by rewrite Exists_exists in *.
Defined.

(** An active category with the name and the parent of the request. *)
Definition active_namesake (category : CategoryCreate) (db : Database) : Prop :=
  ∃ c p, c ∈ categories db ∧ cat_name c = create_name category
         ∧ cat_parent_id c = Some p ∧ create_parent_id category = Some p
         ∧ cat_is_active c = true.

Global Instance active_namesake_dec category db :
  Decision (active_namesake category db).
Proof.
  unfold active_namesake. destruct (create_parent_id category) as [p|].
  - refine (cast_if (decide (Exists (λ c, cat_name c = create_name category
                                          ∧ cat_parent_id c = Some p
                                          ∧ cat_is_active c = true)
                               (categories db))));
      rewrite Exists_exists in *.
    + match goal with
      | H : ∃ _, _ |- _ => destruct H as (c & Hc & Hn & Hp & Ha)
      end.
      by exists c, p.
    + intros (c & p' & Hc & Hn & Hp & [= <-] & Ha).
      match goal with H : ¬ _ |- _ => apply H end. by exists c.
  - right. by intros (c & p & _ & _ & _ & [=] & _).
Defined.

(** The parent check lets the request pass. *)
Definition parent_accepted (category : CategoryCreate) (db : Database) : Prop :=
  match create_parent_id category with
  | None => True
  | Some p => p = 0%Z ∨ active_category db p
  end.

Global Instance parent_accepted_dec category db :
  Decision (parent_accepted category db).
Proof. unfold parent_accepted. destruct (create_parent_id category); apply _. Defined.

End CategoryWrites.

(** ** [app/api/v1/endpoints/orders.py]: [get_order] *)

Module OrderReads.

(** [app/schemas/order.py]: [OrderDetail].  Of the order and of its
    items the columns of [Order] and [OrderItem] are kept; the names
    that the joins add are not among them. *)
Record OrderDetail := {
  detail_order : Order;
  detail_items_count : nat;
  detail_items : list OrderItem;
}.

(** [FROM app.orders o JOIN app.clients c ON o.client_id = c.id
     WHERE o.id = :order_id], read with [.first()]. *)
Definition order_query (id : Z) (db : Database) : option Order :=
  head (fst <$> filter (λ p : Order * Client, order_id p.1 = id)
                  (Sql.inner_join
                     (λ o c, bool_decide (order_client_id o = client_id c))
                     (orders db) (clients db))).

(** [FROM app.order_items oi JOIN app.nomenclature n
       ON oi.nomenclature_id = n.id
     WHERE oi.order_id = :order_id ORDER BY oi.id].  The rows of
    [order_items] are listed in the order of their ids, the order in
    which the sequence of the table has numbered them. *)
Definition items_query (id : Z) (db : Database) : list OrderItem :=
  fst <$> filter (λ p : OrderItem * Nomenclature, item_order_id p.1 = id)
            (Sql.inner_join
               (λ oi n, bool_decide (item_nomenclature_id oi = nom_id n))
               (order_items db) (nomenclature db)).

Definition get_order (id : Z) (db : Database) : Response OrderDetail :=
  match order_query id db with
  | None => HTTPException 404 "Заказ не найден"
  | Some order_result =>
      let items := items_query id db in
      Ok {| detail_order := order_result;
            detail_items_count := length items;
            detail_items := items |}
  end.

End OrderReads.

(** * Properties *)

(** ** Lists *)

Section ListFacts.
Context {A : Type}.

Lemma filter_nil_iff (P : A → Prop) `{∀ x, Decision (P x)} (l : list A) :
  filter P l = [] ↔ ∀ x, x ∈ l → ¬ P x.
Proof.
  induction l as [|a l IH]; simpl.
  - split; [intros _ x Hx; inversion Hx | done].
  - rewrite filter_cons. destruct (decide (P a)) as [Ha|Ha].
    + split; [done | intros Hall; exfalso; apply (Hall a); [left | done]].
    + rewrite IH. split.
      * intros Hall x Hx. apply elem_of_cons in Hx as [->|Hx]; auto.
      * intros Hall x Hx. apply Hall. by right.
Qed.

Lemma filter_length_pos (P : A → Prop) `{∀ x, Decision (P x)} (l : list A) :
  0 < length (filter P l) ↔ ∃ x, x ∈ l ∧ P x.
Proof.
  split.
  - destruct (filter P l) as [|x t] eqn:E; simpl; [lia | intros _].
    assert (x ∈ filter P l) as Hin by (rewrite E; left).
    apply list_elem_of_filter in Hin as [? ?]. eauto.
  - intros (x & Hx & HP).
    assert (x ∈ filter P l) as Hin by (by apply list_elem_of_filter).
    destruct (filter P l); [inversion Hin | simpl; lia].
Qed.
Lemma filter_all (P : A → Prop) `{∀ x, Decision (P x)} (l : list A) :
Forall P l → filter P l = l.
Proof.
induction 1 as [|x l Hx _ IH]; [done|].
by rewrite filter_cons, decide_True, IH.
Qed.
End ListFacts.

(** ** Deleting a category *)

Module CategoriesFacts.
Import Categories.

Lemma delete_category_cases (category_id : Z) (db : Database) :
  (¬ present category_id db
     ∧ delete_category category_id db
       = (HTTPException 404 "Категория не найдена", db))
  ∨ (present category_id db ∧ has_child category_id db
     ∧ delete_category category_id db
       = (HTTPException 400 "Нельзя удалить категорию с дочерними элементами", db))
  ∨ (present category_id db ∧ ¬ has_child category_id db
     ∧ has_product category_id db
     ∧ delete_category category_id db
       = (HTTPException 400 "Нельзя удалить категорию с товарами", db))
  ∨ (present category_id db ∧ ¬ has_child category_id db
     ∧ ¬ has_product category_id db
     ∧ delete_category category_id db
       = (Ok "Категория удалена", without_category category_id db)).
Proof.
  unfold delete_category, has_child, has_product, present.
  pose proof (filter_length_pos (λ c, cat_parent_id c = Some category_id)
                (categories db)) as Hchild.
  pose proof (filter_length_pos (λ n, nom_category_id n = category_id)
                (nomenclature db)) as Hprod.
  pose proof (filter_length_pos (λ c, cat_id c = category_id)
                (categories db)) as Hpres.
  simpl in *.
  destruct (filter (λ c, cat_id c = category_id) (categories db)) as [|c0 cs].
  { left. split; [|done]. intros Hp. apply Hpres in Hp. simpl in Hp. lia. }
  assert (∃ c, c ∈ categories db ∧ cat_id c = category_id) as Hex
    by (apply Hpres; simpl; lia).
  right. case_decide as Hc.
  { left. split; [done|]. split; [by apply Hchild | done]. }
  right. case_decide as Hp.
  { left. split; [done|]. split; [by rewrite <- Hchild|].
    split; [by apply Hprod | done]. }
  right. split; [done|]. split; [by rewrite <- Hchild|].
  split; [by rewrite <- Hprod | done].
Qed.

(** C9. [delete_category] ends with an exception and leaves the database
    as it was whenever a category row names the category as its parent or
    a nomenclature row names it as its category.  It answers [Ok] exactly
    when the category exists and no such row exists, and then the
    category's row, and nothing else, is gone; whenever it does not
    answer [Ok], the database is as it was. *)
Theorem delete_category_referential_guard (category_id : Z) (db : Database) :
  (has_child category_id db ∨ has_product category_id db →
     ∃ status detail,
       delete_category category_id db = (HTTPException status detail, db))
  ∧ ((∃ msg db', delete_category category_id db = (Ok msg, db'))
       ↔ present category_id db
         ∧ ¬ has_child category_id db ∧ ¬ has_product category_id db)
  ∧ (∀ msg db', delete_category category_id db = (Ok msg, db') →
       db' = without_category category_id db
       ∧ ¬ present category_id db')
  ∧ (∀ r db', delete_category category_id db = (r, db') →
       (∀ msg, r ≠ Ok msg) → db' = db).
Proof.
  assert (¬ present category_id (without_category category_id db)) as Hgone.
  { intros (c & Hin & Hid). simpl in Hin.
    by apply list_elem_of_filter in Hin as [Hne _]. }
  destruct (delete_category_cases category_id db)
    as [(Hn & ->)|[(Hp & Hc & ->)|[(Hp & Hc & Hpr & ->)|(Hp & Hc & Hpr & ->)]]].
  - split_and!; [eauto | | done | by intros ?? [= <- <-]].
    split; [by intros (? & ? & ?) | by intros (? & _)].
  - split_and!; [eauto | | done | by intros ?? [= <- <-]].
    split; [by intros (? & ? & ?) | by intros (_ & ? & _)].
  - split_and!; [eauto | | done | by intros ?? [= <- <-]].
    split; [by intros (? & ? & ?) | by intros (_ & _ & ?)].
  - split_and!.
    + by intros [?|?].
    + split; [done | eauto].
    + by intros ?? [= <- <-].
    + intros ?? [= <- <-] Hne. by destruct (Hne "Категория удалена").
Qed.

End CategoriesFacts.

(** ** The labels of the hierarchy *)

Module HierarchyFacts.
Import Categories.

Lemma sql_repeat_spaces (n : Z) :
  sql_repeat "  " n = String.string_of_list_ascii (replicate (2 * Z.to_nat n) " "%char).
Proof.
  unfold sql_repeat. induction (Z.to_nat n) as [|k IH]; [done|].
  replace (2 * S k) with (S (S (2 * k))) by lia. simpl. by rewrite IH.
Qed.

Lemma tree_display_by_level (level : Z) (name : string) :
  tree_display level name = left_pad (2 * Z.to_nat level) name.
Proof.
  unfold tree_display, left_pad.
  repeat case_decide; subst; try done.
  by rewrite sql_repeat_spaces.
Qed.

(** C4, as the code has it.  Every row of the view comes back once, and
    its label is its name behind two spaces for each unit of the [level]
    column of that row -- the value that is also handed back as [level];
    the endpoint builds no tree and computes no depth. *)
Theorem hierarchy_label_follows_level_column (collate : relation string)
    `{∀ x y, Decision (collate x y)} (view : list HierarchyViewRow) :
  get_category_hierarchy collate view ≡ₚ by_level <$> view
  ∧ Forall (λ h, hier_full_path h
                 = left_pad (2 * Z.to_nat (hier_level h)) (hier_name h))
      (get_category_hierarchy collate view).
Proof.
  assert (get_category_hierarchy collate view ≡ₚ by_level <$> view) as Hp.
  { unfold get_category_hierarchy, Sql.order_by.
    rewrite merge_sort_Permutation.
    erewrite list_fmap_ext; [reflexivity|].
    intros i row _. unfold by_level. by rewrite tree_display_by_level. }
  split; [done|]. rewrite Hp. apply Forall_fmap, Forall_forall. by intros row _.
Qed.

(** C4 as stated fails: a root category whose stored [level] is 3 is
    labelled with six spaces, its recomputed depth being 0. *)
Lemma hierarchy_label_ignores_recomputed_depth :
  ¬ labels_follow_recomputed_depth bytewise
      [{| cat_id := 1; cat_name := "A"; cat_parent_id := None;
          cat_path := Some "A"; cat_level := 3; cat_is_active := true |}]
      [{| view_id := 1; view_name := "A"; view_level := 3;
          view_path := Some "A" |}].
Proof.
  intros Hclaim.
  specialize (Hclaim _ _ _ eq_refl (list_elem_of_here _ _) (list_elem_of_here _ _) eq_refl).
  vm_compute in Hclaim. discriminate.
Qed.

End HierarchyFacts.

(** ** The relational operators *)

Module SqlFacts.
Import Sql.

Section Join.
Context {A B : Type} (on : A → B → bool) (r : list B).

Lemma left_join_row_ne (a : A) : left_join_row on r a ≠ [].
Proof.
  unfold left_join_row. destruct (filter _ r) eqn:E; [done|].
  by rewrite fmap_cons.
Qed.

Lemma left_join_row_fst (a : A) :
  Forall (λ p, p.1 = a) (left_join_row on r a).
Proof.
  unfold left_join_row. destruct (filter _ r) eqn:E.
  - by constructor.
  - apply Forall_fmap, Forall_forall. by intros ??.
Qed.

Lemma left_join_row_snd (a : A) :
  omap snd (left_join_row on r a) = filter (λ b, on a b = true) r.
Proof.
  unfold left_join_row. destruct (filter _ r) as [|b m] eqn:E; [done|].
  clear E. generalize (b :: m). intros l.
  induction l as [|x l IH]; [done|]. csimpl. by rewrite IH.
Qed.

(** A WHERE clause on columns of the left table selects left rows. *)
Lemma filter_left_join (P : A → Prop)
    `{dec1 : ∀ p : A * option B, Decision (P p.1)}
    `{dec2 : ∀ a, Decision (P a)} (l : list A) :
  filter (λ p : A * option B, P p.1) (left_join on l r)
  = left_join on (filter P l) r.
Proof.
  unfold left_join. induction l as [|a l IH]; [done|].
  rewrite bind_cons, filter_app, IH, filter_cons.
  pose proof (left_join_row_fst a) as Hfst.
  destruct (decide (P a)) as [Ha|Ha].
  - rewrite bind_cons. f_equal.
    induction Hfst as [|p m Hp _ IHm]; [done|].
    rewrite filter_cons, decide_True by (by rewrite Hp). by f_equal.
  - replace (filter _ (left_join_row on r a)) with (@nil (A * option B)); [done|].
    induction Hfst as [|p m Hp _ IHm]; [done|].
    rewrite filter_cons, decide_False by (by rewrite Hp). done.
Qed.
End Join.

Section Groups.
Context {A K : Type} `{EqDecision K} (key : A → K).

Lemma group_insert_new (k : K) (x : A) (gs : list (K * list A)) :
  k ∉ gs.*1 → group_insert k x gs = gs ++ [(k, [x])].
Proof.
  induction gs as [|[k' xs] gs IH]; [done|]. simpl. intros Hk.
  apply not_elem_of_cons in Hk as [Hne Hk].
  rewrite decide_False by done. by rewrite IH.
Qed.

Lemma group_insert_last (k : K) (x : A) (xs : list A) (gs : list (K * list A)) :
  k ∉ gs.*1 → group_insert k x (gs ++ [(k, xs)]) = gs ++ [(k, xs ++ [x])].
Proof.
  induction gs as [|[k' ys] gs IH]; simpl.
  - intros _. by rewrite decide_True.
  - intros Hk. apply not_elem_of_cons in Hk as [Hne Hk].
    rewrite decide_False by done. by rewrite IH.
Qed.

Lemma group_fold_last (k : K) (xs b : list A) (gs : list (K * list A)) :
  k ∉ gs.*1 → Forall (λ x, key x = k) b →
  foldl (λ gs x, group_insert (key x) x gs) (gs ++ [(k, xs)]) b
  = gs ++ [(k, xs ++ b)].
Proof.
  intros Hk Hb. revert xs.
  induction Hb as [|x b Hx _ IH]; intros xs; simpl.
  - by rewrite app_nil_r.
  - rewrite Hx, group_insert_last by done. rewrite IH. by rewrite <- app_assoc.
Qed.

Lemma group_fold_block (k : K) (b : list A) (gs : list (K * list A)) :
  k ∉ gs.*1 → b ≠ [] → Forall (λ x, key x = k) b →
  foldl (λ gs x, group_insert (key x) x gs) gs b = gs ++ [(k, b)].
Proof.
  intros Hk Hne Hb. destruct Hb as [|x b Hx Hb]; [done|]. simpl.
  rewrite Hx, group_insert_new by done. by rewrite group_fold_last.
Qed.

(** Rows that arrive block by block, one key for each block and no key
    twice, are grouped into these blocks. *)
Lemma group_by_blocks (blocks : list (K * list A)) :
  NoDup blocks.*1 →
  Forall (λ b, b.2 ≠ [] ∧ Forall (λ x, key x = b.1) b.2) blocks →
  group_by key (mjoin blocks.*2) = blocks.
Proof.
  unfold group_by.
  induction blocks as [|[k b] blocks IH] using rev_ind; [done|].
  rewrite !fmap_app, join_app, foldl_app. simpl. rewrite app_nil_r.
  intros Hnd Hall. apply NoDup_app in Hnd as (Hnd & Hk & _).
  apply Forall_app in Hall as [Hall Hb].
  apply Forall_singleton in Hb as [Hne Hb]. simpl in *.
  rewrite IH by done. apply group_fold_block; [|done..].
  intros Hin. apply (Hk k Hin). left.
Qed.
End Groups.

(** [GROUP BY] columns of the left table of a LEFT JOIN, when these
    columns tell the left rows apart: one group for each left row, made
    of the row's partners. *)
Lemma group_by_left_join {A B K} `{EqDecision K} (key : A → K)
    (on : A → B → bool) (l : list A) (r : list B) :
  NoDup (key <$> l) →
  group_by (λ p : A * option B, key p.1) (left_join on l r)
  = (λ a, (key a, left_join_row on r a)) <$> l.
Proof.
  intros Hnd.
  set (blocks := (λ a, (key a, left_join_row on r a)) <$> l).
  assert (left_join on l r = mjoin blocks.*2) as ->.
  { unfold left_join, blocks. rewrite <- list_fmap_compose.
    induction l as [|a l' IH]; [done|].
    rewrite bind_cons, fmap_cons. simpl. f_equal. apply IH.
    by apply NoDup_cons in Hnd as [_ ?]. }
  apply (group_by_blocks (λ p : A * option B, key p.1)).
  - unfold blocks. by rewrite <- list_fmap_compose.
  - unfold blocks. apply Forall_fmap, Forall_forall. intros a _. simpl. split.
    + apply left_join_row_ne.
    + eapply Forall_impl; [apply left_join_row_fst|]. by intros p ->.
Qed.

Section Order.
Context {A K : Type} (R : relation K) `{dec : ∀ x y, Decision (R x y)}
  (key : A → K).

Global Instance on_key_total `{!Total R} : Total (on_key R key).
Proof. intros a b. apply (total R). Qed.

Global Instance on_key_trans `{!Transitive R} : Transitive (on_key R key).
Proof. intros a b c. unfold on_key. apply transitivity. Qed.

Lemma order_by_Permutation (l : list A) : order_by R key l ≡ₚ l.
Proof. apply merge_sort_Permutation. Qed.

Lemma order_by_Sorted `{!Total R} (l : list A) :
  Sorted (on_key R key) (order_by R key l).
Proof. apply (Sorted_merge_sort (on_key R key)). Qed.

Lemma order_by_StronglySorted `{!Total R, !Transitive R} (l : list A) :
  StronglySorted (on_key R key) (order_by R key l).
Proof. apply (StronglySorted_merge_sort (on_key R key)). Qed.
End Order.

Global Instance nulls_last_total {A} (R : relation A) `{!Total R} :
  Total (nulls_last R).
Proof. intros [x|] [y|]; simpl; auto. Qed.

Global Instance nulls_last_trans {A} (R : relation A) `{!Transitive R} :
  Transitive (nulls_last R).
Proof. intros [x|] [y|] [z|]; simpl; try done; intros; by etrans. Qed.

Global Instance flip_total {A} (R : relation A) `{!Total R} : Total (flip R).
Proof. intros a b. unfold flip. destruct (total R a b); auto. Qed.

(** In a list sorted by [R], what comes later is [R]-above. *)
Lemma StronglySorted_lookup {A} (R : relation A) (l : list A) (i j : nat) (a b : A) :
  StronglySorted R l → l !! i = Some a → l !! j = Some b → i < j → R a b.
Proof.
  intros Hs. revert i j. induction Hs as [|x l Hs IH Hall]; intros i j Hi Hj Hlt.
  - by rewrite lookup_nil in Hi.
  - destruct j as [|j]; [lia|]. destruct i as [|i]; simpl in *.
    + injection Hi as <-. rewrite Forall_forall in Hall.
      apply Hall. by eapply list_elem_of_lookup_2.
    + eapply IH; [done..|lia].
Qed.

End SqlFacts.

(** ** Category statistics *)

Module StatsFacts.
Import Sql SqlFacts Categories.

Lemma NoDup_fmap_filter {A B} (f : A → B) (P : A → Prop)
    `{∀ a, Decision (P a)} (l : list A) :
  NoDup (f <$> l) → NoDup (f <$> filter P l).
Proof.
  induction l as [|a l IH]; [done|]. rewrite fmap_cons, NoDup_cons.
  intros [Ha Hnd]. rewrite filter_cons. case_decide; [|auto].
  rewrite fmap_cons. apply NoDup_cons. split; [|auto].
  intros Hin. apply Ha. apply list_elem_of_fmap in Hin as (x & -> & Hx).
  apply list_elem_of_fmap_2. by apply list_elem_of_filter in Hx as [_ ?].
Qed.

Lemma NoDup_fmap_pair {A B C} (f : A → B) (g : A → C) (l : list A) :
  NoDup (f <$> l) → NoDup ((λ a, (f a, g a)) <$> l).
Proof.
  intros Hnd. apply (NoDup_fmap_1 fst). rewrite <- list_fmap_compose.
  done.
Qed.

(** With ids that are a primary key, the query has one group for each
    active category: the category's row joined with its active
    inventory. *)
Lemma stats_groups_roster (cats : list Category) (noms : list Nomenclature) :
  NoDup (cat_id <$> cats) →
  stats_groups cats noms
  = (λ c, ((cat_id c, cat_name c), left_join_row stats_on noms c))
      <$> filter (λ c, cat_is_active c = true) cats.
Proof.
  intros Hnd. unfold stats_groups.
  etrans.
  { apply (f_equal (group_by _)).
    apply (filter_left_join _ _ (λ c, cat_is_active c = true)). }
  apply (group_by_left_join (λ c, (cat_id c, cat_name c))).
  by apply NoDup_fmap_pair, NoDup_fmap_filter.
Qed.

Lemma left_join_row_no_inventory (c : Category) (noms : list Nomenclature) :
  inventory_of c noms = [] → left_join_row stats_on noms c = [(c, None)].
Proof.
  intros Hinv. unfold left_join_row.
  replace (filter (λ b, stats_on c b = true) noms) with (@nil Nomenclature); [done|].
  symmetry. apply filter_nil_iff. intros n Hn Hon.
  unfold inventory_of in Hinv. rewrite filter_nil_iff in Hinv.
  apply (Hinv n Hn). unfold stats_on in Hon.
  apply andb_true_iff in Hon as [Hid Hact]. apply bool_decide_eq_true in Hid.
  done.
Qed.

(** C6. With category ids that are a primary key, [get_category_stats]
    hands back one aggregate for each active category and no other, and
    the aggregate of an active category without active inventory has
    count, quantity, prices and value zero. *)
Theorem stats_one_aggregate_per_active_category (db : Database) :
  NoDup (cat_id <$> categories db) →
  stats_category_id <$> get_category_stats db
    ≡ₚ cat_id <$> filter (λ c, cat_is_active c = true) (categories db)
  ∧ NoDup (stats_category_id <$> get_category_stats db)
  ∧ ∀ c, c ∈ categories db → cat_is_active c = true →
         inventory_of c (nomenclature db) = [] →
         zero_stats c ∈ get_category_stats db.
Proof.
  intros Hnd.
  assert (get_category_stats db
          ≡ₚ (λ c, stats_of_group
                     ((cat_id c, cat_name c),
                      left_join_row stats_on (nomenclature db) c))
               <$> filter (λ c, cat_is_active c = true) (categories db)) as Hp.
  { unfold get_category_stats. rewrite order_by_Permutation.
    rewrite stats_groups_roster by done. by rewrite <- list_fmap_compose. }
  assert (stats_category_id <$> get_category_stats db
          ≡ₚ cat_id <$> filter (λ c, cat_is_active c = true) (categories db)) as Hids.
  { rewrite Hp, <- list_fmap_compose. done. }
  split_and!; [done | |].
  - rewrite Hids. by apply NoDup_fmap_filter.
  - intros c Hc Hact Hinv. rewrite Hp. apply list_elem_of_fmap.
    exists c. split; [|by apply list_elem_of_filter].
    by rewrite left_join_row_no_inventory.
Qed.

(** C6 at the categories and stock of the test fixtures. *)
Lemma stats_one_aggregate_per_active_category_witness :
  NoDup (cat_id <$> categories Fixtures.sample_db)
  ∧ stats_category_id <$> get_category_stats Fixtures.sample_db
      ≡ₚ cat_id <$> filter (λ c, cat_is_active c = true)
                      (categories Fixtures.sample_db)
  ∧ NoDup (stats_category_id <$> get_category_stats Fixtures.sample_db)
  ∧ ∀ c, c ∈ categories Fixtures.sample_db → cat_is_active c = true →
         inventory_of c (nomenclature Fixtures.sample_db) = [] →
         zero_stats c ∈ get_category_stats Fixtures.sample_db.
Proof.
  assert (NoDup (cat_id <$> categories Fixtures.sample_db)) as Hnd.
  { apply (bool_decide_unpack _). vm_compute. exact I. }
  split; [exact Hnd|].
  exact (stats_one_aggregate_per_active_category Fixtures.sample_db Hnd).
Defined.

(** *** Values and their order *)

Lemma foldl_add (x : Z) (xs : list Z) :
  foldl Z.add x xs = (x + foldr Z.add 0 xs)%Z.
Proof.
  revert x. induction xs as [|y xs IH]; intros x; simpl; [lia|].
  rewrite IH. lia.
Qed.

Lemma omap_column {A B C} (g : A → option B) (w : B → C) (l : list A) :
  omap (λ x, x) ((λ p, w <$> g p) <$> l) = w <$> omap g l.
Proof.
  induction l as [|a l IH]; [done|]. rewrite fmap_cons. cbn [omap list_omap].
  destruct (g a); cbn [fmap option_fmap option_map]; [rewrite fmap_cons|];
    by rewrite <- IH.
Qed.

(** [COALESCE(SUM(w), 0)] over the rows that a left row is joined with
    is the sum of [w] over its partners. *)
Lemma sum_left_join_row {A B} (on : A → B → bool) (r : list B) (a : A)
    (w : B → Z) :
  coalesce (sum ((λ p : A * option B, w <$> p.2) <$> left_join_row on r a)) 0%Z
  = foldr Z.add 0%Z (w <$> filter (λ b, on a b = true) r).
Proof.
  unfold sum, agg_fold. rewrite (omap_column snd w), left_join_row_snd.
  destruct (filter _ r) as [|b bs]; [done|].
  simpl. apply foldl_add.
Qed.

Lemma stats_on_inventory (c : Category) (noms : list Nomenclature) :
  filter (λ n, stats_on c n = true) noms = inventory_of c noms.
Proof.
  apply list_filter_iff. intros n. unfold stats_on.
  rewrite andb_true_iff, bool_decide_eq_true. split; intros [? ?]; done.
Qed.

(** The value in the aggregate of a category is its inventory value. *)
Lemma group_total_value (c : Category) (noms : list Nomenclature) :
  stats_total_value
    (stats_of_group ((cat_id c, cat_name c), left_join_row stats_on noms c))
  = inventory_value c noms.
Proof.
  unfold inventory_value. rewrite <- stats_on_inventory. simpl.
  apply (sum_left_join_row stats_on noms c
           (λ n, (nom_price n * nom_quantity n)%Z)).
Qed.

Lemma item_total_value (c : Category) (noms : list Nomenclature) :
  Analytics.item_total_value
    (Analytics.stats_item_of_group
       ((cat_id c, cat_name c), left_join_row stats_on noms c))
  = inventory_value c noms.
Proof.
  unfold inventory_value. rewrite <- stats_on_inventory. simpl.
  apply (sum_left_join_row stats_on noms c
           (λ n, (nom_price n * nom_quantity n)%Z)).
Qed.

(** A list that is a rearrangement of the images of [l] is the list of
    images of a rearrangement of [l]. *)
Lemma Permutation_fmap_source {A B} (g : A → B) (l : list A) (k : list B) :
  k ≡ₚ g <$> l → ∃ l', l' ≡ₚ l ∧ k = g <$> l'.
Proof.
  intros Hp. remember (g <$> l) as m eqn:Hm. symmetry in Hp.
  revert l Hm. induction Hp as [|y m k _ IH|x y m|m1 m2 m3 _ IH1 _ IH2];
    intros l Hm.
  - symmetry in Hm. apply fmap_nil_inv in Hm as ->. by exists [].
  - symmetry in Hm. apply fmap_cons_inv in Hm as (a & l0 & -> & -> & ->).
    destruct (IH l0 eq_refl) as (l' & Hl' & ->).
    exists (a :: l'). split; [by constructor|done].
  - symmetry in Hm. apply fmap_cons_inv in Hm as (a & l0 & -> & Hm & ->).
    symmetry in Hm. apply fmap_cons_inv in Hm as (b & l1 & -> & -> & ->).
    exists (b :: a :: l1). split; [by constructor|done].
  - destruct (IH1 l Hm) as (l1 & Hl1 & ->).
    destruct (IH2 l1 eq_refl) as (l2 & Hl2 & ->).
    exists l2. split; [by etrans|done].
Qed.

Lemma StronglySorted_fmap_source {A B} (g : A → B) (R : relation B)
    (l : list A) :
  StronglySorted R (g <$> l) → StronglySorted (λ x y, R (g x) (g y)) l.
Proof.
  induction l as [|a l IH]; csimpl; intros Hs; [constructor|].
  apply StronglySorted_inv in Hs as [Hs Hall].
  constructor; [by apply IH|]. by rewrite Forall_fmap in Hall.
Qed.

(** In a list in descending order, a zero stands behind every positive
    number. *)
Lemma zeros_after_positives {A} (v : A → Z) (l : list A) (i j : nat) (a b : A) :
  StronglySorted (flip Z.le) (v <$> l) →
  l !! i = Some a → l !! j = Some b → v a = 0%Z → (0 < v b)%Z → j < i.
Proof.
  intros Hs Hi Hj Ha Hb.
  destruct (decide (j < i)) as [|Hge]; [done|]. exfalso.
  destruct (decide (i = j)) as [->|Hne]; [rewrite Hi in Hj; simplify_eq; lia|].
  assert ((v <$> l) !! i = Some (v a)) as Hi' by (by rewrite list_lookup_fmap, Hi).
  assert ((v <$> l) !! j = Some (v b)) as Hj' by (by rewrite list_lookup_fmap, Hj).
  pose proof (StronglySorted_lookup _ _ i j _ _ Hs Hi' Hj' ltac:(lia)) as Hab.
  unfold flip in Hab. lia.
Qed.

(** C7. Both statistics endpoints list their aggregates by total value,
    highest first.  With category ids that are a primary key, the
    aggregates of either endpoint are those of the active categories,
    one for each, listed in an order in which the total inventory value
    of the categories, price times quantity added up over the active
    inventory, does not go up, and the value in each aggregate is that
    total; a category whose inventory value is zero stands after every
    category whose inventory value is positive. *)
Theorem stats_sorted_by_total_value_desc (db : Database) :
  (StronglySorted (on_key (flip Z.le) stats_total_value) (get_category_stats db)
   ∧ StronglySorted (on_key (flip Z.le) Analytics.item_total_value)
       (Analytics.get_category_stats db))
  ∧ (NoDup (cat_id <$> categories db) →
     ∃ cs cs',
       cs ≡ₚ filter (λ c, cat_is_active c = true) (categories db)
       ∧ cs' ≡ₚ filter (λ c, cat_is_active c = true) (categories db)
       ∧ (λ a, (stats_category_id a, stats_total_value a))
           <$> get_category_stats db
         = (λ c, (cat_id c, inventory_value c (nomenclature db))) <$> cs
       ∧ (λ a, (Analytics.item_category_name a, Analytics.item_total_value a))
           <$> Analytics.get_category_stats db
         = (λ c, (cat_name c, inventory_value c (nomenclature db))) <$> cs'
       ∧ StronglySorted (flip Z.le)
           ((λ c, inventory_value c (nomenclature db)) <$> cs)
       ∧ StronglySorted (flip Z.le)
           ((λ c, inventory_value c (nomenclature db)) <$> cs')
       ∧ ∀ l, l = cs ∨ l = cs' →
              ∀ i j c d,
                l !! i = Some c → l !! j = Some d →
                inventory_value c (nomenclature db) = 0%Z →
                (0 < inventory_value d (nomenclature db))%Z → j < i).
Proof.
  assert (StronglySorted (on_key (flip Z.le) stats_total_value)
            (get_category_stats db)) as H1.
  { apply (order_by_StronglySorted (flip Z.le)); [apply _|].
    intros x y z. unfold flip. lia. }
  assert (StronglySorted (on_key (flip Z.le) Analytics.item_total_value)
            (Analytics.get_category_stats db)) as H2.
  { apply (order_by_StronglySorted (flip Z.le)); [apply _|].
    intros x y z. unfold flip. lia. }
  split; [done|]. intros Hnd.
  set (noms := nomenclature db) in *.
  set (active := filter (λ c, cat_is_active c = true) (categories db)).
  set (G := λ c, stats_of_group
                   ((cat_id c, cat_name c), left_join_row stats_on noms c)).
  set (G' := λ c, Analytics.stats_item_of_group
                    ((cat_id c, cat_name c), left_join_row stats_on noms c)).
  assert (get_category_stats db ≡ₚ G <$> active) as Hp.
  { unfold get_category_stats. rewrite order_by_Permutation.
    rewrite stats_groups_roster by done. by rewrite <- list_fmap_compose. }
  assert (Analytics.get_category_stats db ≡ₚ G' <$> active) as Hp'.
  { unfold Analytics.get_category_stats. rewrite order_by_Permutation.
    rewrite stats_groups_roster by done. by rewrite <- list_fmap_compose. }
  apply Permutation_fmap_source in Hp as (cs & Hcs & Hout).
  apply Permutation_fmap_source in Hp' as (cs' & Hcs' & Hout').
  assert (StronglySorted (flip Z.le) ((λ c, inventory_value c noms) <$> cs))
    as Hs.
  { rewrite Hout in H1. apply StronglySorted_fmap_source in H1.
    eapply StronglySorted_fmap; [|exact H1].
    intros c d. unfold on_key, G. by rewrite !group_total_value. }
  assert (StronglySorted (flip Z.le) ((λ c, inventory_value c noms) <$> cs'))
    as Hs'.
  { rewrite Hout' in H2. apply StronglySorted_fmap_source in H2.
    eapply StronglySorted_fmap; [|exact H2].
    intros c d. unfold on_key, G'. by rewrite !item_total_value. }
  exists cs, cs'. split_and!; [done|done| | |done|done|].
  - rewrite Hout, <- list_fmap_compose. apply list_fmap_ext.
    intros i c _. simpl. f_equal. apply group_total_value.
  - rewrite Hout', <- list_fmap_compose. apply list_fmap_ext.
    intros i c _. simpl. f_equal. apply item_total_value.
  - intros l [->| ->] i j c d Hi Hj Hc Hd.
    + by apply (zeros_after_positives (λ c, inventory_value c noms) cs i j c d).
    + by apply (zeros_after_positives (λ c, inventory_value c noms) cs' i j c d).
Qed.

(** C7 at the categories and stock of the test fixtures: the values are
    125000, 105000 and 90000 and two zeros, in this order. *)
Lemma stats_sorted_by_total_value_desc_witness :
  NoDup (cat_id <$> categories Fixtures.sample_db)
  ∧ stats_total_value <$> get_category_stats Fixtures.sample_db
    = [12500000; 10500000; 9000000; 0; 0]%Z
  ∧ ∃ cs,
      cs ≡ₚ filter (λ c, cat_is_active c = true) (categories Fixtures.sample_db)
      ∧ (λ a, (stats_category_id a, stats_total_value a))
          <$> get_category_stats Fixtures.sample_db
        = (λ c, (cat_id c, inventory_value c (nomenclature Fixtures.sample_db)))
            <$> cs
      ∧ StronglySorted (flip Z.le)
          ((λ c, inventory_value c (nomenclature Fixtures.sample_db)) <$> cs).
Proof.
  assert (NoDup (cat_id <$> categories Fixtures.sample_db)) as Hnd.
  { apply (bool_decide_unpack _). vm_compute. exact I. }
  split; [exact Hnd|]. split; [reflexivity|].
  destruct (proj2 (stats_sorted_by_total_value_desc Fixtures.sample_db) Hnd)
    as (cs & _ & Hcs & _ & Hout & _ & Hs & _).
  by exists cs.
Defined.

End StatsFacts.

(** ** Orders and stock *)

Module OrdersFacts.
Import Orders.

(** *** Running statements *)

Lemma bind_Ok {A B} (m : Db A) (k : A → Db B) (db db2 : Database) (b : B) :
  bind m k db = (Ok b, db2) →
  ∃ a db1, m db = (Ok a, db1) ∧ k a db1 = (Ok b, db2).
Proof.
  unfold bind. destruct (m db) as [[a| |] db1]; [eauto | done | done].
Qed.

Lemma handler_Ok {A} (m : Db A) (db db1 : Database) (a : A) :
  handler m db = (Ok a, db1) ↔ m db = (Ok a, db1).
Proof.
  unfold handler. destruct (m db) as [[a'| |] db']; split; congruence.
Qed.

(** *** Stock movements *)

Lemma add_quantity_id (id delta : Z) (n : Nomenclature) :
  nom_id (add_quantity id delta n) = nom_id n.
Proof. unfold add_quantity. by case_decide. Qed.

Lemma add_quantity_zero (n : Nomenclature) :
  add_quantity (nom_id n) 0 n = n.
Proof.
  unfold add_quantity. rewrite decide_True by done. destruct n; simpl.
  f_equal. lia.
Qed.

Lemma add_quantity_add (id d1 d2 : Z) (n : Nomenclature) :
  add_quantity id d2 (add_quantity id d1 n) = add_quantity id (d1 + d2) n.
Proof.
  unfold add_quantity.
  destruct (decide (nom_id n = id)) as [He|He]; simpl.
  - rewrite decide_True by done. f_equal. lia.
  - by rewrite decide_False.
Qed.

Lemma add_quantity_other (id delta : Z) (n : Nomenclature) :
  nom_id n ≠ id → add_quantity id delta n = n.
Proof. intros Hne. unfold add_quantity. by rewrite decide_False. Qed.

(** Movements act row by row, and on a row they add up. *)
Lemma move_all_rows (ds : list (Z * Z)) (noms : list Nomenclature) :
  move_all ds noms = (λ n, add_quantity (nom_id n) (moved ds (nom_id n)) n) <$> noms.
Proof.
  unfold move_all. revert noms. induction ds as [|[id delta] ds IH]; intros noms.
  - simpl. induction noms as [|n noms IHn]; [done|].
    rewrite fmap_cons, add_quantity_zero. by f_equal.
  - simpl. rewrite IH, <- list_fmap_compose. apply list_fmap_ext.
    intros _ n _. simpl. rewrite add_quantity_id.
    destruct (decide (nom_id n = id)) as [->|Hne].
    + by rewrite add_quantity_add.
    + by rewrite (add_quantity_other id).
Qed.

Lemma moved_app (ds1 ds2 : list (Z * Z)) (id : Z) :
  moved (ds1 ++ ds2) id = (moved ds1 id + moved ds2 id)%Z.
Proof.
  induction ds1 as [|d ds1 IH]; simpl; [done|]. case_decide; lia.
Qed.

Lemma move_all_app (ds1 ds2 : list (Z * Z)) (noms : list Nomenclature) :
  move_all (ds1 ++ ds2) noms = move_all ds2 (move_all ds1 noms).
Proof. unfold move_all. by rewrite foldl_app. Qed.

Lemma moved_opposite (ds : list (Z * Z)) (id : Z) :
  moved ((λ d, (d.1, (- d.2)%Z)) <$> ds) id = (- moved ds id)%Z.
Proof.
  induction ds as [|d ds IH]; [done|]. rewrite fmap_cons. cbn [moved fst snd].
  rewrite IH. case_decide; lia.
Qed.

(** Taking out and putting back the same quantities leaves the stock as
    it was. *)
Lemma move_all_back (ds : list (Z * Z)) (noms : list Nomenclature) :
  move_all ds (move_all ((λ d, (d.1, (- d.2)%Z)) <$> ds) noms) = noms.
Proof.
  rewrite <- move_all_app, move_all_rows.
  induction noms as [|n noms IH]; [done|]. rewrite fmap_cons. f_equal; [|done].
  rewrite moved_app, moved_opposite.
  replace (- moved ds (nom_id n) + moved ds (nom_id n))%Z with 0%Z by lia.
  apply add_quantity_zero.
Qed.

Lemma moved_unique (ds : list (Z * Z)) (id delta : Z) :
  NoDup ds.*1 → (id, delta) ∈ ds → moved ds id = delta.
Proof.
  induction ds as [|[id' delta'] ds IH]; [by intros _ ?%elem_of_nil|].
  rewrite fmap_cons, NoDup_cons. simpl. intros [Hnotin Hnd] Hin.
  assert (∀ ds', id ∉ ds'.*1 → moved ds' id = 0%Z) as Hzero.
  { clear. induction ds' as [|d ds' IH']; [done|]. simpl.
    rewrite not_elem_of_cons. intros [Hne Hnin].
    rewrite decide_False by done. auto. }
  apply elem_of_cons in Hin as [[= -> ->]|Hin].
  - rewrite decide_True by done. rewrite Hzero by done. lia.
  - rewrite decide_False; [by apply IH|].
    intros ->. apply Hnotin. apply list_elem_of_fmap. by exists (id', delta).
Qed.

Lemma moved_absent (ds : list (Z * Z)) (id : Z) :
  id ∉ ds.*1 → moved ds id = 0%Z.
Proof.
  induction ds as [|d ds IH]; [done|].
  rewrite fmap_cons, not_elem_of_cons. intros [Hne Hnin]. simpl.
  rewrite decide_False by done. auto.
Qed.

(** *** The handlers *)

Lemma check_item_state (item : OrderItemCreate) (db : Database) :
  (check_item item db).2 = db.
Proof.
  unfold check_item, bind, query, raise, ret. simpl.
  destruct (head _) as [n|]; [|done]. by repeat case_decide.
Qed.

Lemma check_items_state (items : list OrderItemCreate) (db : Database) :
  (for_each items check_item db).2 = db.
Proof.
  induction items as [|item items IH]; [done|]. simpl. unfold bind.
  pose proof (check_item_state item db) as Hc.
  destruct (check_item item db) as [[[]| |] db1]; simpl in *; subst; done.
Qed.

Lemma place_items_Ok (o : Order) (items : list OrderItemCreate)
    (db db1 : Database) :
  for_each items (place_item o) db = (Ok (), db1) →
  NoDup (nomenclature_id <$> items)
  ∧ Forall (λ item, (order_id o, nomenclature_id item)
                    ∉ item_key <$> order_items db) items
  ∧ db1 = placed o items db.
Proof.
  revert db. induction items as [|item items IH]; intros db.
  - simpl. unfold ret. intros [= <-]. split; [constructor|]. split; [done|].
    unfold placed. simpl. rewrite app_nil_r. by destruct db.
  - simpl. intros ([] & d1 & Hplace & Hrest)%bind_Ok.
    unfold place_item in Hplace.
    apply bind_Ok in Hplace as ([] & d0 & Hins & Hupd).
    unfold insert_order_item in Hins. simpl in Hins.
    case_decide as Hkey; [done|].
    unfold update_quantity, execute, set_nomenclature in Hupd.
    simplify_eq. simpl in *.
    apply IH in Hrest as (Hnd & Hfresh & ->). simpl in Hfresh.
    rewrite fmap_app in Hfresh. simpl in Hfresh. split_and!.
    + apply NoDup_cons. split; [|done].
      intros Hin. apply list_elem_of_fmap in Hin as (item' & Heq & Hin).
      rewrite Forall_forall in Hfresh. apply (Hfresh item' Hin).
      apply elem_of_app. right. rewrite <- Heq. unfold item_key. simpl. left.
    + constructor; [done|]. eapply Forall_impl; [done|].
      intros item' Hnot Hin. apply Hnot. apply elem_of_app. by left.
    + unfold placed. simpl. rewrite <- app_assoc. done.
Qed.

Lemma return_items_Ok (items : list OrderItem) (db : Database) :
  for_each items
    (λ item, update_quantity (item_nomenclature_id item) (item_quantity item)) db
  = (Ok (), set_nomenclature (move_all (returned items)) db).
Proof.
  revert db. induction items as [|item items IH]; intros db.
  - simpl. unfold ret, set_nomenclature. by destruct db.
  - simpl. unfold bind at 1. unfold update_quantity at 1. unfold execute.
    rewrite IH. by destruct db.
Qed.

Lemma returned_item_rows (id : Z) (items : list OrderItemCreate) :
  taken items = (λ d, (d.1, (- d.2)%Z)) <$> returned (item_rows id items).
Proof.
  unfold taken, returned, item_rows. rewrite <- !list_fmap_compose.
  by apply list_fmap_ext.
Qed.

Lemma create_order_Ok (order : OrderCreate) (db db1 : Database)
    (resp : OrderResponse) :
  create_order order db = (Ok resp, db1) →
  (order_id (new_order order db) ∉ order_id <$> orders db)
  ∧ NoDup (nomenclature_id <$> create_items order)
  ∧ resp_id resp = order_id (new_order order db)
  ∧ db1 = placed (new_order order db) (create_items order)
            (inserted (new_order order db) db).
Proof.
  unfold create_order. case_decide as Hvalid; [|done].
  rewrite handler_Ok. unfold create_order_body.
  intros Hbody. apply bind_Ok in Hbody as (client_result & d0 & Hclient & Hbody).
  unfold query in Hclient. injection Hclient as <- <-.
  destruct (head _) as [c|]; [|done].
  apply bind_Ok in Hbody as ([] & d1 & Hcheck & Hbody).
  pose proof (check_items_state (create_items order) db) as Hstate.
  rewrite Hcheck in Hstate. simpl in Hstate. subst d1.
  apply bind_Ok in Hbody as (o & d2 & Hins & Hbody).
  unfold insert_order in Hins. case_decide as Hfresh; [done|].
  injection Hins as <- <-.
  apply bind_Ok in Hbody as ([] & d3 & Hplace & Hret).
  apply place_items_Ok in Hplace as (Hnd & _ & ->).
  unfold ret in Hret. injection Hret as <- <-. done.
Qed.

Lemma delete_order_new (o : Order) (items : list OrderItemCreate)
    (db : Database) :
  order_items_reference_orders db →
  order_id o ∉ order_id <$> orders db →
  order_status o ∉ [COMPLETED; PROCESSING] →
  ∃ db2,
    delete_order (order_id o) (placed o items (inserted o db))
    = (Ok "Заказ удален", db2)
    ∧ nomenclature db2 = nomenclature db.
Proof.
  intros Hfk Hfresh Hstatus.
  assert (filter (λ o', order_id o' = order_id o) (orders db ++ [o]) = [o]) as Hfind.
  { rewrite filter_app.
    replace (filter _ (orders db)) with (@nil Order).
    - simpl. rewrite filter_cons, decide_True by done. done.
    - symmetry. apply filter_nil_iff. intros o' Hin Heq. apply Hfresh.
      rewrite <- Heq. by apply list_elem_of_fmap_2. }
  assert (filter (λ i, item_order_id i = order_id o)
            (order_items db ++ item_rows (order_id o) items)
          = item_rows (order_id o) items) as Hitems.
  { rewrite filter_app.
    replace (filter _ (order_items db)) with (@nil OrderItem).
    - simpl. apply filter_all. unfold item_rows.
      apply Forall_fmap, Forall_forall. by intros ??.
    - symmetry. apply filter_nil_iff. intros i Hin Heq. apply Hfresh.
      rewrite <- Heq. by apply Hfk. }
  unfold delete_order, handler, delete_order_body.
  unfold bind at 1. unfold query at 1. simpl.
  rewrite Hfind. simpl. rewrite decide_False by done.
  unfold bind at 1. unfold query at 1. simpl. rewrite Hitems.
  unfold bind at 1. rewrite return_items_Ok.
  unfold bind, delete_order_row, execute, ret. simpl.
  eexists. split; [done|]. simpl.
  rewrite (returned_item_rows (order_id o)). apply move_all_back.
Qed.

(** C10. An order that [create_order] has accepted has taken from each
    nomenclature row that one of its items names the quantity of that
    item.  When the order is neither completed nor in processing,
    [delete_order] of this order is answered with [Ok], gives each of
    these rows that quantity back, and leaves every nomenclature row as
    it was before the order. *)
Theorem create_then_delete_restores_stock (order : OrderCreate)
    (db db1 : Database) (resp : OrderResponse) :
  order_items_reference_orders db →
  create_order order db = (Ok resp, db1) →
  (∀ item i n,
     item ∈ create_items order → nomenclature db !! i = Some n →
     nom_id n = nomenclature_id item →
     ∃ n1, nomenclature db1 !! i = Some n1
           ∧ nom_quantity n1 = (nom_quantity n - quantity item)%Z)
  ∧ (create_status order ∉ [COMPLETED; PROCESSING] →
     ∃ db2,
       delete_order (resp_id resp) db1 = (Ok "Заказ удален", db2)
       ∧ nomenclature db2 = nomenclature db
       ∧ ∀ item i n1,
           item ∈ create_items order → nomenclature db1 !! i = Some n1 →
           nom_id n1 = nomenclature_id item →
           ∃ n2, nomenclature db2 !! i = Some n2
                 ∧ nom_quantity n2 = (nom_quantity n1 + quantity item)%Z).
Proof.
  intros Hfk (Hfresh & Hnd & Hid & ->)%create_order_Ok.
  assert (∀ item i n,
     item ∈ create_items order → nomenclature db !! i = Some n →
     nom_id n = nomenclature_id item →
     ∃ n1, move_all (taken (create_items order)) (nomenclature db) !! i = Some n1
           ∧ nom_id n1 = nom_id n
           ∧ nom_quantity n1 = (nom_quantity n - quantity item)%Z) as Htaken.
  { intros item i n Hitem Hn Hnid.
    rewrite move_all_rows, list_lookup_fmap, Hn. simpl. eexists.
    split; [done|]. rewrite add_quantity_id. split; [done|].
    rewrite (moved_unique _ _ (- quantity item)%Z).
    - unfold add_quantity. rewrite decide_True by done. simpl. lia.
    - unfold taken. by rewrite <- list_fmap_compose.
    - rewrite Hnid. unfold taken.
      by apply (list_elem_of_fmap_2 (λ item, (nomenclature_id item, (- quantity item)%Z))). }
  split.
  - intros item i n Hitem Hn Hnid.
    destruct (Htaken item i n Hitem Hn Hnid) as (n1 & ? & _ & ?). eauto.
  - intros Hstatus. rewrite Hid.
    destruct (delete_order_new (new_order order db) (create_items order) db)
      as (db2 & Hdel & Hback); [done..|].
    exists db2. split_and!; [done..|].
    intros item i n1 Hitem Hn1 Hnid. rewrite Hback. simpl in Hn1.
    rewrite move_all_rows, list_lookup_fmap in Hn1.
    destruct (nomenclature db !! i) as [n|] eqn:Hn; [|done].
    simpl in Hn1. injection Hn1 as <-. rewrite add_quantity_id in Hnid.
    destruct (Htaken item i n Hitem Hn Hnid) as (n1 & Hn1 & _ & Hq).
    rewrite move_all_rows, list_lookup_fmap, Hn in Hn1. simpl in Hn1.
    injection Hn1 as <-. eexists. split; [done|]. lia.
Qed.

(** C10 at the order of [test_delete_order], placed against the
    fixtures. *)
Lemma create_then_delete_restores_stock_witness :
  let db := Fixtures.sample_db in
  let order := Fixtures.pending_order in
  let out := create_order order db in
  order_items_reference_orders db
  ∧ (∃ resp, out = (Ok resp, out.2))
  ∧ ∃ db2,
      delete_order 1 out.2 = (Ok "Заказ удален", db2)
      ∧ nomenclature db2 = nomenclature db.
Proof.
  intros db order out.
  assert (order_items_reference_orders db) as Hfk.
  { intros i Hi. by apply elem_of_nil in Hi. }
  split; [exact Hfk|]. split; [by eexists|].
  destruct (create_then_delete_restores_stock order db out.2
              {| resp_id := 1; resp_client_id := 1; resp_status := PENDING;
                 resp_payment_status := UNPAID; resp_items_count := 1 |}
              Hfk eq_refl) as [_ Hdel].
  destruct Hdel as (db2 & Hdel & Hback & _).
  { by apply (bool_decide_unpack _). }
  by exists db2.
Defined.

End OrdersFacts.

(** ** The loop of [get_category_tree] *)

Module TreeFacts.
Import Tree.

(** *** Reading trees off the store *)

Lemma to_tree_Some (fuel : nat) (h : list category_data) (l : loc)
    (t : CategoryTree) :
  to_tree (S fuel) h l = Some t ↔
  ∃ d cs, h !! l = Some d
          ∧ Forall2 (λ c tc, to_tree fuel h c = Some tc) (cd_children d) cs
          ∧ t = Node (cd_info d) cs.
Proof.
  simpl. destruct (h !! l) as [d|]; simpl.
  - destruct (mapM (to_tree fuel h) (cd_children d)) as [cs|] eqn:E; simpl.
    + apply mapM_Some in E. split.
      * intros [= <-]. eauto.
      * intros (d' & cs' & [= <-] & Hcs & ->). f_equal. f_equal.
        apply mapM_Some in E, Hcs. congruence.
    + split; [done|]. intros (d' & cs' & [= <-] & Hcs & ->).
      apply mapM_Some in Hcs. congruence.
  - split; [done|]. by intros (? & ? & ? & _).
Qed.

Lemma forest_nodes_app (f1 f2 : list CategoryTree) :
  forest_nodes (f1 ++ f2) = forest_nodes f1 ++ forest_nodes f2.
Proof. unfold forest_nodes. by rewrite fmap_app, join_app. Qed.

Lemma forest_nodes_cons (t : CategoryTree) (f : list CategoryTree) :
  forest_nodes (t :: f) = tree_nodes t ++ forest_nodes f.
Proof. done. Qed.

Lemma tree_nodes_Node (i : category_info) (cs : list CategoryTree) :
  tree_nodes (Node i cs) = i :: forest_nodes cs.
Proof. done. Qed.

(** More fuel and objects allocated later change nothing. *)
Lemma to_tree_app (fuel : nat) (h h2 : list category_data) (l : loc)
    (t : CategoryTree) :
  to_tree fuel h l = Some t → to_tree (S fuel) (h ++ h2) l = Some t.
Proof.
  revert l t. induction fuel as [|fuel IH]; intros l t; [done|].
  rewrite !to_tree_Some. intros (d & cs & Hl & Hcs & ->).
  exists d, cs. split; [by apply lookup_app_l_Some|]. split; [|done].
  eapply Forall2_impl; [done|]. intros c tc. apply IH.
Qed.

(** *** Appending a child

    The store [h'] is [h] after a new leaf has been allocated and
    appended to the children of the object at [k]. *)
Section Attach.
Context (h : list category_data) (k : loc) (dk : category_data)
  (leaf : category_info).
Context (Hk : h !! k = Some dk) (Hinj : NoDup (cd_info <$> h)).

Local Abbreviation attached := (attached h k leaf).
Local Abbreviation grown := (grown (cd_info dk) leaf).

Lemma grown_app (a b : list category_info) :
  NoDup (a ++ b) → grown (a ++ b) ≡ₚ grown a ++ grown b.
Proof.
  intros (Ha & Hab & Hb)%NoDup_app. unfold grown.
  destruct (decide (cd_info dk ∈ a)) as [Hin|Hin].
  - rewrite decide_True by (apply elem_of_app; auto).
    rewrite decide_False by (by apply Hab).
    rewrite app_nil_r, <- !app_assoc. f_equiv. apply Permutation_app_comm.
  - destruct (decide (cd_info dk ∈ b)) as [Hin'|Hin'].
    + rewrite decide_True by (apply elem_of_app; auto).
      by rewrite app_nil_r, <- app_assoc.
    + rewrite decide_False by (rewrite elem_of_app; tauto).
      by rewrite !app_nil_r.
Qed.

Lemma attached_lookup_k :
  attached !! k = Some (append_child (length h) dk).
Proof.
  unfold attached. rewrite list_lookup_alter_eq.
  by rewrite (lookup_app_l_Some _ _ _ _ Hk).
Qed.

Lemma attached_lookup_ne (l : loc) (d : category_data) :
  l ≠ k → h !! l = Some d → attached !! l = Some d.
Proof.
  intros Hne Hl. unfold attached. rewrite list_lookup_alter_ne by done.
  by apply lookup_app_l_Some.
Qed.

Lemma attached_lookup_new :
  attached !! length h = Some {| cd_info := leaf; cd_children := [] |}.
Proof.
  unfold attached. apply lookup_lt_Some in Hk.
  rewrite list_lookup_alter_ne by lia.
  by rewrite lookup_app_r, Nat.sub_diag by lia.
Qed.

Lemma attach_forest (fuel : nat) :
  (∀ l t, to_tree fuel h l = Some t → NoDup (tree_nodes t) →
     ∃ t', to_tree (S fuel) attached l = Some t'
           ∧ tree_nodes t' ≡ₚ grown (tree_nodes t)) →
  ∀ ls ts,
    Forall2 (λ l t, to_tree fuel h l = Some t) ls ts →
    NoDup (forest_nodes ts) →
    ∃ ts', Forall2 (λ l t, to_tree (S fuel) attached l = Some t) ls ts'
           ∧ forest_nodes ts' ≡ₚ grown (forest_nodes ts).
Proof.
  intros IH ls ts Hall. induction Hall as [|l t ls ts Hl _ IHall].
  - intros _. exists []. split; [constructor|].
    unfold grown. by rewrite decide_False by (by intros ?%elem_of_nil).
  - rewrite forest_nodes_cons. intros Hnd.
    pose proof Hnd as (Hnt & _ & Hnf)%NoDup_app.
    destruct (IH l t Hl Hnt) as (t' & Ht' & Hpt).
    destruct (IHall Hnf) as (ts' & Hts' & Hpf).
    exists (t' :: ts'). split; [by constructor|].
    rewrite forest_nodes_cons, Hpt, Hpf. by rewrite grown_app.
Qed.

Lemma attach_tree (fuel : nat) (l : loc) (t : CategoryTree) :
  to_tree fuel h l = Some t → NoDup (tree_nodes t) →
  ∃ t', to_tree (S fuel) attached l = Some t'
        ∧ tree_nodes t' ≡ₚ grown (tree_nodes t).
Proof.
  revert l t. induction fuel as [|fuel IH]; intros l t; [done|].
  rewrite to_tree_Some. intros (d & cs & Hl & Hcs & ->).
  rewrite tree_nodes_Node. intros Hnd.
  pose proof Hnd as [Hd Hnf]%NoDup_cons.
  destruct (attach_forest fuel IH _ _ Hcs Hnf) as (cs' & Hcs' & Hp).
  destruct (decide (l = k)) as [->|Hne].
  - assert (d = dk) as -> by congruence.
    exists (Node (cd_info dk) (cs' ++ [Node leaf []])).
    split.
    + apply to_tree_Some. eexists _, _. split; [apply attached_lookup_k|].
      split; [|done]. simpl. apply Forall2_app; [done|].
      constructor; [|constructor].
      apply to_tree_Some. eexists _, _. split; [apply attached_lookup_new|].
      split; [constructor | done].
    + rewrite tree_nodes_Node, forest_nodes_app, Hp. unfold grown.
      rewrite decide_False by done.
      rewrite decide_True by left. rewrite app_nil_r. done.
  - exists (Node (cd_info d) cs'). split.
    + apply to_tree_Some. eexists _, _.
      split; [by apply attached_lookup_ne|]. done.
    + rewrite tree_nodes_Node, Hp. unfold grown.
      assert (cd_info dk ≠ cd_info d) as Hinfo.
      { intros Heq. apply Hne.
        apply (NoDup_lookup (cd_info <$> h) l k (cd_info d)); [done|..];
          rewrite list_lookup_fmap; [by rewrite Hl | by rewrite Hk; simpl; rewrite Heq]. }
      destruct (decide (cd_info dk ∈ forest_nodes cs)) as [Hin|Hin].
      * rewrite decide_True by (by right). done.
      * rewrite decide_False; [done|].
        intros [?|?]%elem_of_cons; done.
Qed.

End Attach.

(** *** One round of the loop *)

Lemma append_child_info (c : loc) (d : category_data) :
  cd_info (append_child c d) = cd_info d.
Proof. done. Qed.

Lemma alter_append_child_infos (c k : loc) (h : list category_data) :
  cd_info <$> alter (append_child c) k h = cd_info <$> h.
Proof.
  apply list_eq. intros i. rewrite !list_lookup_fmap.
  destruct (decide (k = i)) as [->|Hne].
  - rewrite list_lookup_alter_eq. by destruct (h !! i).
  - by rewrite list_lookup_alter_ne.
Qed.

Lemma step_dict (st : state) (row : TreeRow) :
  categories_dict (step st row)
  = <[row_id row := length (store st)]> (categories_dict st).
Proof.
  unfold step. destruct (row_parent_id row) as [p|]; [|done].
  by destruct (_ !! p).
Qed.

Lemma step_infos (st : state) (row : TreeRow) :
  cd_info <$> store (step st row) = (cd_info <$> store st) ++ [row_info row].
Proof.
  unfold step. destruct (row_parent_id row) as [p|]; simpl.
  - destruct (_ !! p); simpl.
    + by rewrite alter_append_child_infos, fmap_app.
    + by rewrite fmap_app.
  - by rewrite fmap_app.
Qed.

Lemma step_length (st : state) (row : TreeRow) :
  length (store (step st row)) = S (length (store st)).
Proof.
  rewrite <- (length_fmap cd_info), step_infos, length_app, length_fmap.
  simpl. lia.
Qed.

Lemma run_snoc (rows : list TreeRow) (row : TreeRow) :
  run (rows ++ [row]) = step (run rows) row.
Proof. unfold run. by rewrite foldl_app. Qed.

Lemma surfaced_snoc (rows : list TreeRow) (row : TreeRow) :
  surfaced (rows ++ [row]) = surfaces (surfaced rows) row.
Proof. unfold surfaced. by rewrite foldl_app. Qed.

Lemma run_linked (rows : list TreeRow) : linked rows (run rows).
Proof.
  induction rows as [|row rows IH] using rev_ind.
  - split; [done | | ].
    + intros x k. unfold run. simpl. by rewrite lookup_empty.
    + intros x Hx. by apply elem_of_nil in Hx.
  - rewrite run_snoc. destruct IH as [Hinfos Hdict Hdom]. split.
    + by rewrite step_infos, Hinfos, fmap_app.
    + intros x k. rewrite step_dict.
      assert (length (store (run rows)) < length (store (step (run rows) row)))
        as Hlen by (rewrite step_length; lia).
      destruct (decide (row_id row = x)) as [<-|Hne].
      * rewrite lookup_insert_eq. intros [= <-].
        pose proof (step_infos (run rows) row) as Hi.
        apply (f_equal (λ l, l !! length (store (run rows)))) in Hi.
        rewrite list_lookup_fmap, lookup_app_r in Hi by (by rewrite length_fmap).
        rewrite length_fmap, Nat.sub_diag in Hi. simpl in Hi.
        destruct (store (step (run rows) row) !! _) as [d|]; [|done].
        injection Hi as Hi. exists d. by rewrite Hi.
      * rewrite lookup_insert_ne by done. intros Hk.
        destruct (Hdict x k Hk) as (d & Hd & Hid).
        pose proof (step_infos (run rows) row) as Hi.
        apply (f_equal (λ l, l !! k)) in Hi.
        rewrite list_lookup_fmap, lookup_app_l in Hi
          by (rewrite length_fmap; by eapply lookup_lt_Some).
        rewrite list_lookup_fmap, Hd in Hi. simpl in Hi.
        destruct (store (step (run rows) row) !! k) as [d'|]; [|done].
        injection Hi as Hi. exists d'. by rewrite Hi.
    + intros x. rewrite fmap_app, elem_of_app, step_dict.
      destruct (decide (row_id row = x)) as [<-|Hne].
      * intros _. by rewrite lookup_insert_eq.
      * rewrite lookup_insert_ne by done. intros [Hx|Hx]; [by apply Hdom|].
        apply list_elem_of_singleton in Hx. done.
Qed.

Lemma step_None (st : state) (row : TreeRow) :
  row_parent_id row = None →
  store (step st row) = store st ++ [leaf_of row]
  ∧ root_categories (step st row) = root_categories st ++ [length (store st)].
Proof. unfold step. by intros ->. Qed.

Lemma step_Some (st : state) (row : TreeRow) (p : Z) :
  row_parent_id row = Some p →
  root_categories (step st row) = root_categories st
  ∧ match <[row_id row := length (store st)]> (categories_dict st) !! p with
    | Some k => store (step st row) = attached (store st) k (row_info row)
    | None => store (step st row) = store st ++ [leaf_of row]
    end.
Proof. unfold step. intros ->. by destruct (_ !! p). Qed.

Lemma attached_self (h : list category_data) (leaf : category_info) :
  attached h (length h) leaf
  = h ++ [append_child (length h) {| cd_info := leaf; cd_children := [] |}].
Proof.
  unfold attached. rewrite alter_app_r_alt by lia. by rewrite Nat.sub_diag.
Qed.

Lemma surfaced_sublist (rows : list TreeRow) :
  surfaced rows `sublist_of` row_info <$> rows.
Proof.
  induction rows as [|row rows IH] using rev_ind; [done|].
  rewrite surfaced_snoc, fmap_app. unfold surfaces.
  destruct (row_parent_id row) as [p|].
  - case_decide.
    + by apply sublist_app.
    + by apply sublist_inserts_r.
  - by apply sublist_app.
Qed.

Lemma NoDup_row_infos (rows : list TreeRow) :
  NoDup (row_id <$> rows) → NoDup (row_info <$> rows).
Proof.
  intros Hnd. apply (NoDup_fmap_1 info_id). by rewrite <- list_fmap_compose.
Qed.

Lemma NoDup_fmap_eq {A B} (f : A → B) (l : list A) (x y : A) :
  NoDup (f <$> l) → x ∈ l → y ∈ l → f x = f y → x = y.
Proof.
  intros Hnd (i & Hi)%list_elem_of_lookup (j & Hj)%list_elem_of_lookup Heq.
  assert (i = j) as ->; [|congruence].
  apply (NoDup_lookup (f <$> l) i j (f x)); [done|..];
    rewrite list_lookup_fmap; [by rewrite Hi | by rewrite Hj; simpl; rewrite Heq].
Qed.

(** With ids that are a primary key, the loop ends and the answer is
    made of the rows that [surfaced] lists. *)
Lemma run_surfaced (rows : list TreeRow) :
  NoDup (row_id <$> rows) →
  ∃ f, Forall2 (λ l t, to_tree (length (store (run rows))) (store (run rows)) l
                       = Some t)
         (root_categories (run rows)) f
       ∧ forest_nodes f ≡ₚ surfaced rows.
Proof.
  induction rows as [|row rows IH] using rev_ind; intros Hnd.
  { exists []. split; [constructor | reflexivity]. }
  rewrite fmap_app in Hnd. apply NoDup_app in Hnd as (Hnd & Hfresh & _).
  assert (row_id row ∉ row_id <$> rows) as Hnew.
  { intros Hin. apply (Hfresh _ Hin). left. }
  destruct (IH Hnd) as (f & Hf & Hp). clear IH Hfresh.
  pose proof (run_linked rows) as [Hinfos Hdict Hdom].
  pose proof (surfaced_sublist rows) as Hsub.
  assert (NoDup (surfaced rows)) as Hnds
    by (eapply sublist_NoDup; [by apply NoDup_row_infos | exact Hsub]).
  rewrite run_snoc, surfaced_snoc, step_length.
  set (st := run rows) in *. set (n := length (store st)) in *.
  assert (∀ h2, Forall2 (λ l t, to_tree (S n) (store st ++ h2) l = Some t)
                  (root_categories st) f) as Hold.
  { intros h2. eapply Forall2_impl; [done|]. intros l t. apply to_tree_app. }
  unfold surfaces. destruct (row_parent_id row) as [p|] eqn:Hparent.
  - destruct (step_Some st row p Hparent) as [-> Hstore].
    assert (p ∈ info_id <$> surfaced rows → p ∈ row_id <$> rows) as Hp_rows.
    { intros Hin.
      apply list_elem_of_fmap in Hin as (i & -> & Hi).
      eapply elem_of_sublist in Hi; [|exact Hsub].
      apply list_elem_of_fmap in Hi as (r & -> & Hr).
      by apply (list_elem_of_fmap_2 row_id). }
    destruct (decide (row_id row = p)) as [<-|Hne].
    + rewrite lookup_insert_eq in Hstore. rewrite Hstore, attached_self.
      exists f. split; [apply Hold|].
      rewrite decide_False; [done|]. by intros Hin%Hp_rows.
    + rewrite lookup_insert_ne in Hstore by done.
      destruct (categories_dict st !! p) as [k|] eqn:Hk.
      * destruct (Hdict p k Hk) as (dk & Hdk & Hidk). rewrite Hstore.
        assert (NoDup (cd_info <$> store st)) as Hinj
          by (rewrite Hinfos; by apply NoDup_row_infos).
        assert (NoDup (forest_nodes f)) as Hndf by (by rewrite Hp).
        destruct (attach_forest (store st) k dk (row_info row) n)
          with (ls := root_categories st) (ts := f) as (f' & Hf' & Hp');
          [intros l t; by apply attach_tree | done..|].
        exists f'. split; [done|]. rewrite Hp'. unfold grown.
        destruct (decide (p ∈ info_id <$> surfaced rows)) as [Hin|Hin].
        -- rewrite decide_True; [by rewrite Hp|]. rewrite Hp.
           apply list_elem_of_fmap in Hin as (i & Hid & Hi).
           assert (i = cd_info dk) as <-; [|done].
           apply (NoDup_fmap_eq info_id (row_info <$> rows)).
           ++ by rewrite <- list_fmap_compose.
           ++ by eapply elem_of_sublist.
           ++ rewrite <- Hinfos. apply list_elem_of_fmap_2.
              by eapply list_elem_of_lookup_2.
           ++ congruence.
        -- rewrite decide_False; [by rewrite app_nil_r, Hp|].
           rewrite Hp. intros Hin'. apply Hin. apply list_elem_of_fmap.
           by exists (cd_info dk).
      * rewrite Hstore. exists f. split; [apply Hold|].
        rewrite decide_False; [done|]. intros Hin%Hp_rows.
        apply Hdom in Hin. rewrite Hk in Hin. by destruct Hin.
  - destruct (step_None st row Hparent) as [-> ->].
    exists (f ++ [Node (row_info row) []]). split.
    + apply Forall2_app; [apply Hold|]. constructor; [|constructor].
      apply to_tree_Some. exists (leaf_of row), [].
      split; [|split; [constructor | done]].
      by rewrite lookup_app_r, Nat.sub_diag by done.
    + rewrite forest_nodes_app, Hp. done.
Qed.

Lemma build_tree_surfaced (rows : list TreeRow) :
  NoDup (row_id <$> rows) →
  ∃ f, build_tree rows = Some f ∧ forest_nodes f ≡ₚ surfaced rows.
Proof.
  intros Hnd. destruct (run_surfaced rows Hnd) as (f & Hf & Hp).
  exists f. split; [|done]. unfold build_tree. by apply mapM_Some_2.
Qed.

(** *** Which rows surface *)

Lemma parents_first_snoc (rows : list TreeRow) (row : TreeRow) :
  parents_first (rows ++ [row]) →
  parents_first rows
  ∧ ∀ p, row_parent_id row = Some p → p ∈ row_id <$> rows.
Proof.
  intros Hpf. split.
  - intros i r p Hi Hp.
    pose proof (lookup_lt_Some _ _ _ Hi) as Hlt.
    specialize (Hpf i r p (lookup_app_l_Some _ _ _ _ Hi) Hp).
    by rewrite take_app_le in Hpf by lia.
  - intros p Hp.
    specialize (Hpf (length rows) row p).
    rewrite take_app_length in Hpf. apply Hpf; [|done].
    by rewrite lookup_app_r, Nat.sub_diag by done.
Qed.

Lemma surfaced_parents_first (rows : list TreeRow) :
  parents_first rows → surfaced rows = row_info <$> rows.
Proof.
  induction rows as [|row rows IH] using rev_ind; [done|].
  intros [Hpf Hrow]%parents_first_snoc.
  rewrite surfaced_snoc, fmap_app, IH by done. unfold surfaces.
  destruct (row_parent_id row) as [p|]; [|done].
  rewrite decide_True; [done|]. rewrite <- list_fmap_compose. by apply Hrow.
Qed.

Lemma surfaced_parent (rows : list TreeRow) (i : category_info) :
  i ∈ surfaced rows →
  info_parent_id i = None
  ∨ ∃ p, info_parent_id i = Some p ∧ p ∈ info_id <$> surfaced rows.
Proof.
  induction rows as [|row rows IH] using rev_ind; [by intros ?%elem_of_nil|].
  rewrite surfaced_snoc. unfold surfaces.
  assert (i ∈ surfaced rows →
          info_parent_id i = None
          ∨ ∃ p, info_parent_id i = Some p
                 ∧ p ∈ info_id <$> (surfaced rows ++ [row_info row])) as IH'.
  { intros [?|(p & ? & ?)]%IH; [by left|right]. exists p. split; [done|].
    rewrite fmap_app. apply elem_of_app. by left. }
  destruct (row_parent_id row) as [p|] eqn:Hparent.
  - case_decide as Hp.
    + intros [Hi| ->%list_elem_of_singleton]%elem_of_app; [by apply IH'|].
      right. exists p. split; [done|]. rewrite fmap_app. apply elem_of_app.
      by left.
    + apply IH.
  - intros [Hi| ->%list_elem_of_singleton]%elem_of_app; [by apply IH'|].
    by left.
Qed.

(** *** Parent pointers that run in a circle *)

Lemma parent_of_row (rows : list TreeRow) (row : TreeRow) :
  NoDup (row_id <$> rows) → row ∈ rows →
  parent_of rows (row_id row) = row_parent_id row.
Proof.
  intros Hnd Hin. unfold parent_of.
  destruct (filter (λ r, row_id r = row_id row) rows) as [|r rs] eqn:E.
  - exfalso. eapply (filter_nil_iff _ rows); [exact E | exact Hin | done].
  - simpl. f_equal.
    assert (r ∈ filter (λ r, row_id r = row_id row) rows) as Hr
      by (rewrite E; left).
    apply list_elem_of_filter in Hr as [Hid Hr].
    by apply (NoDup_fmap_eq row_id rows).
Qed.

Lemma ancestor_add (rows : list TreeRow) (a b : nat) (x : Z) :
  ancestor rows (a + b) x = ancestor rows a x ≫= ancestor rows b.
Proof.
  revert x. induction a as [|a IH]; intros x; [done|]. simpl.
  destruct (parent_of rows x) as [p|]; [|done]. simpl. apply IH.
Qed.

Lemma surfaced_rooted (pre suf : list TreeRow) (i : category_info) :
  NoDup (row_id <$> pre ++ suf) → i ∈ surfaced pre →
  rooted (pre ++ suf) (info_id i).
Proof.
  revert suf i. induction pre as [|row pre IH] using rev_ind; intros suf i Hnd.
  { by intros ?%elem_of_nil. }
  rewrite <- app_assoc in Hnd |- *. simpl in Hnd |- *.
  assert (parent_of (pre ++ row :: suf) (row_id row) = row_parent_id row) as Hrow.
  { apply parent_of_row; [done|]. apply elem_of_app. right. left. }
  rewrite surfaced_snoc. unfold surfaces.
  destruct (row_parent_id row) as [p|] eqn:Hparent.
  - case_decide as Hp; [|by apply IH].
    intros [Hi| ->%list_elem_of_singleton]%elem_of_app; [by apply IH|].
    apply list_elem_of_fmap in Hp as (ip & -> & Hip).
    destruct (IH (row :: suf) ip Hnd Hip) as (m & y & Hm & Hy).
    exists (S m), y. split; [|done]. simpl.
    change (info_id (row_info row)) with (row_id row). by rewrite Hrow.
  - intros [Hi| ->%list_elem_of_singleton]%elem_of_app; [by apply IH|].
    exists 0, (row_id row). split; [done|]. by rewrite Hrow.
Qed.

Lemma cycle_not_rooted (rows : list TreeRow) (x : Z) :
  on_cycle rows x → ¬ rooted rows x.
Proof.
  intros (n & Hn & Hcycle) (m & y & Hm & Hy). revert Hm.
  induction m as [m IH] using lt_wf_ind. intros Hm.
  destruct (decide (m < n)) as [Hlt|Hge].
  - replace n with (m + S (n - m - 1)) in Hcycle by lia.
    rewrite ancestor_add, Hm in Hcycle. simpl in Hcycle.
    by rewrite Hy in Hcycle.
  - apply (IH (m - n)); [lia|].
    replace m with (n + (m - n)) in Hm by lia.
    by rewrite ancestor_add, Hcycle in Hm.
Qed.

(** *** The shape of the store, whatever the rows *)

Lemma step_lookup (st : state) (row : TreeRow) (k : loc) :
  store (step st row) !! k
  = match store st !! k with
    | Some d =>
        Some {| cd_info := cd_info d;
                cd_children :=
                  cd_children d
                  ++ (if decide (target st row = Some k)
                      then [length (store st)] else []) |}
    | None =>
        if decide (k = length (store st)) then
          Some {| cd_info := row_info row;
                  cd_children :=
                    if decide (target st row = Some k)
                    then [length (store st)] else [] |}
        else None
    end.
Proof.
  assert (∀ d : category_data,
            {| cd_info := cd_info d; cd_children := cd_children d ++ [] |} = d)
    as Hsame by (intros []; simpl; by rewrite app_nil_r).
  assert ((store st ++ [leaf_of row]) !! k
          = match store st !! k with
            | Some d => Some d
            | None => if decide (k = length (store st))
                      then Some (leaf_of row) else None
            end) as Hplain.
  { destruct (store st !! k) as [d|] eqn:Hk.
    - by apply lookup_app_l_Some.
    - apply lookup_ge_None in Hk. case_decide as Hn.
      + subst k. by rewrite lookup_app_r, Nat.sub_diag by done.
      + apply lookup_ge_None. rewrite length_app. simpl. lia. }
  unfold leaf_of in Hplain. unfold step, target.
  destruct (row_parent_id row) as [p|]; simpl.
  - destruct (_ !! p) as [t|] eqn:Ht; simpl.
    + destruct (decide (t = k)) as [->|Hne].
      * rewrite list_lookup_alter_eq, Hplain.
        destruct (store st !! k); simpl.
        -- by rewrite decide_True.
        -- case_decide; [|done]. by rewrite decide_True.
      * rewrite list_lookup_alter_ne, Hplain by done.
        destruct (store st !! k); simpl.
        -- rewrite decide_False by congruence. by rewrite Hsame.
        -- case_decide; [|done]. by rewrite decide_False by congruence.
    + rewrite Hplain. destruct (store st !! k); [by rewrite Hsame | done].
  - rewrite Hplain. destruct (store st !! k); [by rewrite Hsame | done].
Qed.

Lemma run_length (rows : list TreeRow) :
  length (store (run rows)) = length rows.
Proof.
  rewrite <- (length_fmap cd_info), (linked_infos _ _ (run_linked rows)).
  by rewrite length_fmap.
Qed.

Lemma target_bound (rows : list TreeRow) (row : TreeRow) (k : loc) :
  target (run rows) row = Some k →
  k ≤ length rows
  ∧ (k = length rows → self_parented (row_info row))
  ∧ (k < length rows → ¬ self_parented (row_info row)).
Proof.
  unfold target, self_parented. rewrite run_length.
  change (info_parent_id (row_info row)) with (row_parent_id row).
  change (info_id (row_info row)) with (row_id row).
  destruct (row_parent_id row) as [p|]; [simpl|done].
  destruct (decide (row_id row = p)) as [<-|Hne].
  - rewrite lookup_insert_eq. intros [= <-]. split_and!; [lia | done | lia].
  - rewrite lookup_insert_ne by done. intros Hk.
    destruct (linked_dict _ _ (run_linked rows) p k Hk) as (d & Hd & _).
    apply lookup_lt_Some in Hd. rewrite run_length in Hd.
    split_and!; [lia | lia | congruence].
Qed.

Lemma StronglySorted_lt_snoc (l : list nat) (n : nat) :
  StronglySorted lt l → Forall (λ c, c < n) l → StronglySorted lt (l ++ [n]).
Proof.
  induction 1 as [|x l Hs IH Hx]; intros Hall; simpl.
  - repeat constructor.
  - apply Forall_cons in Hall as [Hxn Hall]. constructor; [by apply IH|].
    apply Forall_app. split; [done|]. by constructor.
Qed.

Lemma step_info_lookup (st : state) (row : TreeRow) (c : loc) (i : category_info) :
  (cd_info <$> store st) !! c = Some i →
  (cd_info <$> store (step st row)) !! c = Some i.
Proof. rewrite step_infos. apply lookup_app_l_Some. Qed.

Lemma step_info_new (st : state) (row : TreeRow) :
  (cd_info <$> store (step st row)) !! length (store st) = Some (row_info row).
Proof.
  rewrite step_infos, lookup_app_r by (by rewrite length_fmap).
  by rewrite length_fmap, Nat.sub_diag.
Qed.

Lemma run_ordered (rows : list TreeRow) : ordered (run rows).
Proof.
  induction rows as [|row rows IH] using rev_ind.
  { split; [intros k d Hk; unfold run in Hk; simpl in Hk; by rewrite lookup_nil in Hk | split; constructor]. }
  rewrite run_snoc. destruct IH as [Hchildren [Hsorted Hroots]].
  pose proof (target_bound rows row) as Htarget.
  pose proof (run_length rows) as Hlen.
  set (st := run rows) in *. set (n := length (store st)) in *.
  split.
  - intros k d'. rewrite step_lookup, step_length. fold n.
    destruct (store st !! k) as [d|] eqn:Hk.
    + intros [= <-]. simpl.
      destruct (Hchildren k d Hk) as (Hs & Hb & Hself & Hnon).
      pose proof (lookup_lt_Some _ _ _ Hk) as Hkn. fold n in Hkn.
      assert (Forall (λ c, c ≠ k →
                ∃ i, (cd_info <$> store (step st row)) !! c = Some i
                     ∧ ¬ self_parented i) (cd_children d)) as Hnon'.
      { eapply Forall_impl; [exact Hnon|]. intros c Hc Hne.
        destruct (Hc Hne) as (i & Hi & Hns). exists i.
        split; [by apply step_info_lookup | done]. }
      case_decide as Ht.
      * split_and!.
        -- apply StronglySorted_lt_snoc; [done|].
           eapply Forall_impl; [exact Hb|]. intros c. simpl. lia.
        -- apply Forall_app. split.
           ++ eapply Forall_impl; [exact Hb|]. intros c. simpl. lia.
           ++ constructor; [lia | constructor].
        -- intros [Hin|Hin%list_elem_of_singleton]%elem_of_app; [auto | lia].
        -- apply Forall_app. split; [done|]. constructor; [|constructor].
           intros _. exists (row_info row). split; [apply step_info_new|].
           apply Htarget in Ht as (_ & _ & Hns). apply Hns. lia.
      * rewrite app_nil_r. split_and!; [done | | done | done].
        eapply Forall_impl; [exact Hb|]. intros c. simpl. lia.
    + case_decide as Hkn; [|done]. intros [= <-]. simpl. subst k.
      case_decide as Ht.
      * split_and!.
        -- repeat constructor.
        -- constructor; [lia | constructor].
        -- intros _. apply Htarget in Ht as (_ & Hs & _). apply Hs. lia.
        -- by constructor.
      * split_and!; [constructor | constructor | by intros ?%elem_of_nil | constructor].
  - assert (Forall (λ l, ∃ i, (cd_info <$> store (step st row)) !! l = Some i
                              ∧ info_parent_id i = None) (root_categories st))
      as Hroots'.
    { eapply Forall_impl; [exact Hroots|]. intros l (i & Hi & Hnone).
      exists i. split; [by apply step_info_lookup | done]. }
    destruct (row_parent_id row) as [p|] eqn:Hparent.
    + destruct (step_Some st row p Hparent) as [-> _]. done.
    + destruct (step_None st row Hparent) as [_ ->]. split.
      * apply StronglySorted_lt_snoc; [done|].
        eapply Forall_impl; [exact Hroots|]. intros l (i & Hi & _).
        apply lookup_lt_Some in Hi. by rewrite length_fmap in Hi.
      * apply Forall_app. split; [done|]. constructor; [|constructor].
        exists (row_info row). split; [apply step_info_new | done].
Qed.

(** *** The descent ends *)

Lemma to_tree_total (st : state) (fuel : nat) (k : loc) (d : category_data) :
  ordered st → store st !! k = Some d → ¬ self_parented (cd_info d) →
  length (store st) ≤ fuel + k →
  is_Some (to_tree fuel (store st) k).
Proof.
  intros [Hchildren _]. revert k d.
  induction fuel as [|fuel IH]; intros k d Hk Hns Hfuel.
  { apply lookup_lt_Some in Hk. lia. }
  destruct (Hchildren k d Hk) as (_ & Hb & Hself & Hnon).
  assert (Forall (λ c, is_Some (to_tree fuel (store st) c)) (cd_children d))
    as Hall.
  { apply Forall_forall. intros c Hc.
    rewrite Forall_forall in Hb, Hnon.
    assert (c ≠ k) as Hne by (intros ->; auto).
    destruct (Hnon c Hc Hne) as (i & Hi & Hnsi).
    rewrite list_lookup_fmap in Hi.
    destruct (store st !! c) as [dc|] eqn:Hdc; [|done].
    injection Hi as <-. apply (IH c dc); [done..|].
    specialize (Hb c Hc). lia. }
  apply mapM_is_Some_2 in Hall. destruct Hall as [cs Hcs].
  simpl. rewrite Hk. simpl. rewrite Hcs. by eexists.
Qed.

(** The loop and the reading of its answer end on every sequence of
    rows. *)
Lemma build_tree_total (rows : list TreeRow) : is_Some (build_tree rows).
Proof.
  unfold build_tree. apply mapM_is_Some_2, Forall_forall. intros l Hl.
  pose proof (run_ordered rows) as Hord.
  destruct (ordered_roots _ Hord) as [_ Hroots].
  rewrite Forall_forall in Hroots. destruct (Hroots l Hl) as (i & Hi & Hnone).
  rewrite list_lookup_fmap in Hi.
  destruct (store (run rows) !! l) as [d|] eqn:Hd; [|done].
  injection Hi as <-. apply (to_tree_total _ _ _ d); [done..| |lia].
  unfold self_parented. by rewrite Hnone.
Qed.

(** *** The order of roots and children *)

Lemma to_tree_info (fuel : nat) (h : list category_data) (l : loc)
    (t : CategoryTree) :
  to_tree fuel h l = Some t → (cd_info <$> h) !! l = Some (tree_info t).
Proof.
  destruct fuel as [|fuel]; [done|].
  rewrite to_tree_Some. intros (d & cs & Hl & _ & ->).
  by rewrite list_lookup_fmap, Hl.
Qed.

Lemma forest_infos (fuel : nat) (h : list category_data) (ls : list loc)
    (ts : list CategoryTree) :
  Forall2 (λ l t, to_tree fuel h l = Some t) ls ts →
  Forall2 (λ l i, (cd_info <$> h) !! l = Some i) ls (tree_info <$> ts).
Proof.
  induction 1 as [|l t ls ts Hl _ IH]; [constructor|].
  rewrite fmap_cons. constructor; [by eapply to_tree_info | done].
Qed.

(** Rows picked at growing positions of a sorted list are sorted. *)
Lemma StronglySorted_pick {A} (R : relation A) (l xs : list A) (idx : list nat) :
  StronglySorted R l → StronglySorted lt idx →
  Forall2 (λ c x, l !! c = Some x) idx xs →
  StronglySorted R xs.
Proof.
  intros Hl Hidx Hpick. revert Hidx.
  induction Hpick as [|c x idx xs Hc Hpick IH]; intros Hidx; [constructor|].
  apply StronglySorted_inv in Hidx as [Hidx Hlt]. constructor; [by apply IH|].
  clear IH. induction Hpick as [|c' x' idx xs Hc' _ IH]; [constructor|].
  apply Forall_cons in Hlt as [Hcc Hlt].
  apply StronglySorted_inv in Hidx as [Hidx _].
  constructor; [|by apply IH].
  by eapply (SqlFacts.StronglySorted_lookup R l c c').
Qed.

(** Every node of a tree read off the store is read off the store. *)
Lemma subtrees_to_tree (fuel : nat) (h : list category_data) (l : loc)
    (t : CategoryTree) :
  to_tree fuel h l = Some t →
  Forall (λ s, ∃ fuel' l', to_tree (S fuel') h l' = Some s) (subtrees t).
Proof.
  revert l t. induction fuel as [|fuel IH]; intros l t; [done|].
  intros Ht. pose proof Ht as (d & cs & Hl & Hcs & ->)%to_tree_Some.
  simpl. constructor; [by exists fuel, l|].
  clear Ht Hl. induction Hcs as [|c tc cl cs Hc _ IHcs]; [constructor|].
  rewrite fmap_cons. simpl. apply Forall_app. split; [by eapply IH | done].
Qed.

Lemma build_tree_sorted (R : relation category_info) (rows : list TreeRow)
    (f : list CategoryTree) :
  StronglySorted R (row_info <$> rows) → build_tree rows = Some f →
  StronglySorted R (tree_info <$> f)
  ∧ Forall (λ s, StronglySorted R (tree_info <$> tree_children s))
      (f ≫= subtrees).
Proof.
  intros Hrows Hf. unfold build_tree in Hf. apply mapM_Some in Hf.
  pose proof (run_ordered rows) as [Hchildren [Hroots _]].
  pose proof (linked_infos _ _ (run_linked rows)) as Hinfos.
  set (st := run rows) in *. set (n := length (store st)) in *.
  split.
  - apply (StronglySorted_pick R (row_info <$> rows) _ (root_categories st));
      [done..|].
    rewrite <- Hinfos. by eapply forest_infos.
  - apply Forall_forall. intros s Hs.
    apply list_elem_of_bind in Hs as (t & Hs & Ht).
    apply list_elem_of_lookup in Ht as (j & Ht).
    destruct (Forall2_lookup_r _ _ _ _ _ Hf Ht) as (l & _ & Hl).
    apply subtrees_to_tree in Hl. rewrite Forall_forall in Hl.
    destruct (Hl s Hs) as (fuel' & l' & Hs').
    apply to_tree_Some in Hs' as (d & cs & Hd & Hcs & ->). simpl.
    destruct (Hchildren l' d Hd) as (Hsorted & _).
    apply (StronglySorted_pick R (row_info <$> rows) _ (cd_children d));
      [done..|].
    rewrite <- Hinfos. by eapply forest_infos.
Qed.

(** *** The rows in the answer *)

Lemma occurrences_NoDup (row : TreeRow) (f : list CategoryTree) :
  NoDup (forest_nodes f) →
  occurrences row f = if decide (row_info row ∈ forest_nodes f) then 1 else 0.
Proof.
  unfold occurrences. generalize (forest_nodes f). intros l.
  induction 1 as [|x l Hx Hnd IH]; [done|].
  rewrite filter_cons. destruct (decide (x = row_info row)) as [->|Hne].
  - rewrite decide_True by left. rewrite decide_False in IH by done.
    simpl. by rewrite IH.
  - rewrite IH. destruct (decide (row_info row ∈ l)) as [Hin|Hin].
    + by rewrite decide_True by (by right).
    + rewrite decide_False; [done|]. by intros [?|?]%elem_of_cons.
Qed.

Lemma roots_without_parent (rows : list TreeRow) (f : list CategoryTree) :
  build_tree rows = Some f →
  Forall (λ t, info_parent_id (tree_info t) = None) f.
Proof.
  unfold build_tree. intros Hf%mapM_Some%forest_infos.
  destruct (ordered_roots _ (run_ordered rows)) as [_ Hroots].
  apply (Forall_fmap tree_info (λ i, info_parent_id i = None)).
  revert Hroots. generalize dependent (tree_info <$> f).
  intros infos Hf. induction Hf as [|l i ls infos Hl _ IH]; [constructor|].
  intros [(i' & Hi' & Hnone) Hroots]%Forall_cons.
  constructor; [congruence | by apply IH].
Qed.

(** C1, as the code has it.  With ids that are a primary key, the loop
    ends, its roots are rows without parent, and a row whose parent id is
    the id of no row fed to it stands nowhere in the answer, be it as a
    root or below one. *)
Theorem orphan_rows_are_left_out (rows : list TreeRow) :
  NoDup (row_id <$> rows) →
  ∃ f, build_tree rows = Some f
       ∧ Forall (λ t, info_parent_id (tree_info t) = None) f
       ∧ ∀ row p, row ∈ rows → row_parent_id row = Some p →
                  p ∉ row_id <$> rows → row_info row ∉ forest_nodes f.
Proof.
  intros Hnd. destruct (build_tree_surfaced rows Hnd) as (f & Hf & Hp).
  exists f. split_and!; [done | by eapply roots_without_parent |].
  intros row p Hrow Hparent Hp_out Hin. rewrite Hp in Hin.
  apply surfaced_parent in Hin as [Hnone|(p' & Hsome & Hp_in)].
  - unfold row_parent_id in Hparent. congruence.
  - unfold row_parent_id in Hparent. assert (p' = p) as -> by congruence.
    apply Hp_out. apply list_elem_of_fmap in Hp_in as (i & -> & Hi).
    eapply elem_of_sublist in Hi; [|apply surfaced_sublist].
    apply list_elem_of_fmap in Hi as (r & -> & Hr).
    by apply (list_elem_of_fmap_2 row_id).
Qed.

(** C1 at the orphan of the specification, id 9 under the absent 42. *)
Lemma orphan_rows_are_left_out_witness :
  NoDup (row_id <$> Fixtures.orphan_rows)
  ∧ ∃ f, build_tree Fixtures.orphan_rows = Some f
       ∧ Forall (λ t, info_parent_id (tree_info t) = None) f
       ∧ ∀ row p, row ∈ Fixtures.orphan_rows → row_parent_id row = Some p →
                  p ∉ row_id <$> Fixtures.orphan_rows →
                  row_info row ∉ forest_nodes f.
Proof.
  assert (NoDup (row_id <$> Fixtures.orphan_rows)) as Hnd
    by (by apply (bool_decide_unpack _)).
  split; [exact Hnd|]. exact (orphan_rows_are_left_out _ Hnd).
Defined.

(** C1 as stated fails: the orphan of the specification is no root of
    the answer, which is empty. *)
Lemma orphan_is_not_surfaced : ¬ orphans_become_roots Fixtures.orphan_rows.
Proof.
  intros (f & Hf & Hroot). vm_compute in Hf. injection Hf as <-.
  specialize (Hroot (Fixtures.tree_row 9 "X" (Some 42%Z)) 42%Z).
  assert (Fixtures.tree_row 9 "X" (Some 42%Z) ∈ Fixtures.orphan_rows) as Hin
    by left.
  specialize (Hroot Hin eq_refl).
  assert (42%Z ∉ row_id <$> Fixtures.orphan_rows) as Hout
    by (by apply (bool_decide_unpack _)).
  apply Hroot in Hout. by apply elem_of_nil in Hout.
Qed.

(** C2, as the code has it.  With ids that are a primary key, the loop
    ends, every node of the answer is a row, and no row stands in the
    answer twice; when every row with a parent comes after the row of its
    parent, every row stands in the answer once. *)
Theorem rows_once_when_parents_first (rows : list TreeRow) :
  NoDup (row_id <$> rows) →
  ∃ f, build_tree rows = Some f
       ∧ (∀ i, i ∈ forest_nodes f → i ∈ row_info <$> rows)
       ∧ (∀ row, row ∈ rows → occurrences row f ≤ 1)
       ∧ (parents_first rows →
          forest_nodes f ≡ₚ row_info <$> rows
          ∧ ∀ row, row ∈ rows → occurrences row f = 1).
Proof.
  intros Hnd. destruct (build_tree_surfaced rows Hnd) as (f & Hf & Hp).
  assert (NoDup (forest_nodes f)) as Hndf.
  { rewrite Hp. eapply sublist_NoDup; [by apply NoDup_row_infos|].
    apply surfaced_sublist. }
  exists f. split_and!; [done | | |].
  - intros i Hi. rewrite Hp in Hi.
    eapply elem_of_sublist; [done | apply surfaced_sublist].
  - intros row _. rewrite occurrences_NoDup by done. case_decide; lia.
  - intros Hpf. rewrite surfaced_parents_first in Hp by done.
    split; [done|]. intros row Hrow. rewrite occurrences_NoDup by done.
    rewrite decide_True; [done|]. rewrite Hp. by apply list_elem_of_fmap_2.
Qed.

(** C2 at the five categories of the fixtures, parents first. *)
Lemma rows_once_when_parents_first_witness :
  NoDup (row_id <$> Fixtures.sample_rows)
  ∧ parents_first Fixtures.sample_rows
  ∧ ∃ f, build_tree Fixtures.sample_rows = Some f
         ∧ forest_nodes f ≡ₚ row_info <$> Fixtures.sample_rows
         ∧ ∀ row, row ∈ Fixtures.sample_rows → occurrences row f = 1.
Proof.
  assert (NoDup (row_id <$> Fixtures.sample_rows)) as Hnd
    by (by apply (bool_decide_unpack _)).
  assert (parents_first Fixtures.sample_rows) as Hpf.
  { intros i row p Hi Hp.
    do 5 (destruct i as [|i];
          [injection Hi as <-; vm_compute in Hp; try discriminate;
           injection Hp as <-; by apply (bool_decide_unpack _)|]).
    done. }
  split; [exact Hnd|]. split; [exact Hpf|].
  destruct (rows_once_when_parents_first _ Hnd) as (f & Hf & _ & _ & Hall).
  exists f. split; [exact Hf|]. exact (Hall Hpf).
Defined.

(** C2 as stated fails: a row fed before the row of its parent is not in
    the answer. *)
Lemma child_before_parent_is_dropped :
  ¬ every_row_once Fixtures.child_first_rows.
Proof.
  intros (f & Hf & Honce). vm_compute in Hf. injection Hf as <-.
  specialize (Honce (Fixtures.tree_row 3 "Стиральные машины" (Some 1%Z))).
  assert (Fixtures.tree_row 3 "Стиральные машины" (Some 1%Z)
          ∈ Fixtures.child_first_rows) as Hin by left.
  apply Honce in Hin. vm_compute in Hin. discriminate.
Qed.

(** C3, as the code has it.  The loop and the reading of its answer end
    on every sequence of rows; with ids that are a primary key, a row
    that is its own ancestor stands nowhere in the answer. *)
Theorem cycles_end_and_are_left_out (rows : list TreeRow) :
  is_Some (build_tree rows)
  ∧ (NoDup (row_id <$> rows) →
     ∀ f row, build_tree rows = Some f → row ∈ rows →
              on_cycle rows (row_id row) →
              (row_info row ∉ forest_nodes f) ∧ occurrences row f = 0).
Proof.
  split; [apply build_tree_total|].
  intros Hnd f row Hf Hrow Hcycle.
  destruct (build_tree_surfaced rows Hnd) as (f' & Hf' & Hp).
  assert (f' = f) as -> by congruence.
  assert (row_info row ∉ forest_nodes f) as Hout.
  { intros Hin. rewrite Hp in Hin. apply (cycle_not_rooted rows _ Hcycle).
    pose proof (surfaced_rooted rows [] (row_info row)) as Hrooted.
    rewrite app_nil_r in Hrooted. by apply Hrooted. }
  split; [done|]. unfold occurrences.
  replace (filter _ (forest_nodes f)) with (@nil category_info); [done|].
  symmetry. apply filter_nil_iff. by intros i Hi ->.
Qed.

(** C3 as stated fails: of two rows that are each the parent of the
    other, neither is in the answer. *)
Lemma cycle_rows_are_dropped : ¬ cycle_rows_once Fixtures.cycle_rows.
Proof.
  intros (f & Hf & Honce). vm_compute in Hf. injection Hf as <-.
  specialize (Honce (Fixtures.tree_row 1 "A" (Some 2%Z))).
  assert (Fixtures.tree_row 1 "A" (Some 2%Z) ∈ Fixtures.cycle_rows) as Hin
    by left.
  assert (on_cycle Fixtures.cycle_rows 1) as Hcycle
    by (exists 2; split; [lia | reflexivity]).
  specialize (Honce Hin Hcycle). vm_compute in Honce. discriminate.
Qed.

End TreeFacts.

(** ** The recursive query *)

Module DescendFacts.
Import Sql Tree.

(** *** WITH RECURSIVE *)

Lemma with_recursive_rounds {A} (step : list A → list A) (fuel j : nat)
    (working : list A) :
  j < fuel → Nat.iter j step working = [] →
  is_Some (with_recursive step fuel working).
Proof.
  revert j working. induction fuel as [|fuel IH]; intros j working Hj Hnil; [lia|].
  simpl. destruct working as [|a working]; [by eexists|].
  destruct j as [|j]; [done|].
  destruct (IH j (step (a :: working))) as [res Hres]; [lia | |].
  - by rewrite <- Nat.iter_succ_r.
  - rewrite Hres. by eexists.
Qed.

Lemma with_recursive_cons {A} (step : list A → list A) (fuel : nat)
    (working res : list A) :
  with_recursive step fuel working = Some res →
  working = [] ∧ res = []
  ∨ ∃ fuel' res', fuel = S fuel'
                  ∧ with_recursive step fuel' (step working) = Some res'
                  ∧ res = working ++ res'.
Proof.
  destruct fuel as [|fuel]; [done|]. simpl.
  destruct working as [|a working]; [intros [= <-]; by left|].
  destruct (with_recursive step fuel _) as [res'|] eqn:E; [|done].
  intros [= <-]. right. by exists fuel, res'.
Qed.

(** When each round lies one level below the round before it, the rows
    of the result that lie on the level of the first round are the first
    round. *)
Lemma with_recursive_level {A} (step : list A → list A) (level : A → Z)
    (fuel : nat) (working res : list A) (d : Z) :
  (∀ w d', Forall (λ r, level r = d') w →
           Forall (λ r, level r = (d' + 1)%Z) (step w)) →
  Forall (λ r, level r = d) working →
  with_recursive step fuel working = Some res →
  Forall (λ r, (d ≤ level r)%Z) res
  ∧ filter (λ r, level r = d) res = working.
Proof.
  intros Hstep. revert working res d.
  induction fuel as [|fuel IH]; intros working res d Hw Hres; [done|].
  apply with_recursive_cons in Hres
    as [[-> ->]|(fuel' & res' & [= <-] & Hres' & ->)]; [done|].
  destruct (IH _ _ _ (Hstep _ _ Hw) Hres') as [Hge _].
  split.
  - apply Forall_app. split.
    + eapply Forall_impl; [exact Hw|]. intros r. simpl. lia.
    + eapply Forall_impl; [exact Hge|]. intros r. simpl. lia.
  - rewrite filter_app. rewrite (filter_all _ working) by done.
    replace (filter _ res') with (@nil A); [by rewrite app_nil_r|].
    symmetry. apply filter_nil_iff. intros r Hr. rewrite Forall_forall in Hge.
    specialize (Hge r Hr). simpl in Hge. lia.
Qed.

Lemma elem_of_inner_join {A B} (on : A → B → bool) (l : list A) (r : list B)
    (a : A) (b : B) :
  (a, b) ∈ inner_join on l r ↔ a ∈ l ∧ b ∈ r ∧ on a b = true.
Proof.
  unfold inner_join. rewrite list_elem_of_bind. split.
  - intros (a' & Hin & Ha'). apply list_elem_of_bind in Hin as (b' & Hin & Hb').
    apply list_elem_of_singleton in Hin as [= -> ->].
    apply list_elem_of_filter in Hb' as [? ?]. done.
  - intros (Ha & Hb & Hon). exists a. split; [|done].
    apply list_elem_of_bind. exists b. split; [by left|].
    by apply list_elem_of_filter.
Qed.

(** *** The rounds of the walk down the categories *)

Section Rounds.
Context {R : Type} (id_of : R → Z) (root : Category → R)
  (child : Category → R → R).
Context (Hroot : ∀ c, id_of (root c) = cat_id c)
  (Hchild : ∀ c r, id_of (child c r) = cat_id c).
Context (cats : list Category).

Lemma elem_of_anchor (r : R) :
  r ∈ anchor root cats ↔
  ∃ c, r = root c ∧ c ∈ cats ∧ cat_parent_id c = None ∧ cat_is_active c = true.
Proof.
  unfold anchor. rewrite list_elem_of_fmap. split.
  - intros (c & -> & ([Hp Ha] & Hc)%list_elem_of_filter). by exists c.
  - intros (c & -> & Hc & Hp & Ha). exists c. split; [done|].
    by apply list_elem_of_filter.
Qed.

Lemma elem_of_recursive_term (ct : list R) (r : R) :
  r ∈ recursive_term id_of child cats ct ↔
  ∃ c p, r = child c p ∧ c ∈ cats ∧ p ∈ ct
         ∧ cat_parent_id c = Some (id_of p) ∧ cat_is_active c = true.
Proof.
  unfold recursive_term. rewrite list_elem_of_fmap. split.
  - intros ([c p] & -> & (Hact & Hjoin)%list_elem_of_filter).
    apply elem_of_inner_join in Hjoin as (Hc & Hp & Hon).
    apply bool_decide_eq_true in Hon. by exists c, p.
  - intros (c & p & -> & Hc & Hp & Hon & Hact). exists (c, p).
    split; [done|]. apply list_elem_of_filter. split; [done|].
    apply elem_of_inner_join. split_and!; [done..|].
    by apply bool_decide_eq_true.
Qed.

Lemma round_S (i : nat) :
  round id_of root child cats (S i)
  = recursive_term id_of child cats (round id_of root child cats i).
Proof. done. Qed.

Lemma round_at_depth (i : nat) (r : R) :
  r ∈ round id_of root child cats i → at_depth cats i (id_of r).
Proof.
  revert r. induction i as [|i IH]; intros r.
  - intros (c & -> & Hc & Hp & _)%elem_of_anchor. exists c. by rewrite Hroot.
  - rewrite round_S. intros (c & p & -> & Hc & Hp & Hparent & _)%elem_of_recursive_term.
    exists c, (id_of p). rewrite Hchild. split_and!; [done..|]. by apply IH.
Qed.

Context (Hnd : NoDup (cat_id <$> cats)).

Lemma at_depth_unique (i j : nat) (x : Z) :
  at_depth cats i x → at_depth cats j x → i = j.
Proof.
  revert j x. induction i as [|i IH]; intros [|j] x; simpl.
  - done.
  - intros (c & Hc & Hid & Hp) (c' & p' & Hc' & Hid' & Hp' & _).
    assert (c = c') as <-
      by (apply (TreeFacts.NoDup_fmap_eq cat_id cats); congruence).
    congruence.
  - intros (c & p & Hc & Hid & Hp & _) (c' & Hc' & Hid' & Hp').
    assert (c = c') as <-
      by (apply (TreeFacts.NoDup_fmap_eq cat_id cats); congruence).
    congruence.
  - intros (c & p & Hc & Hid & Hp & Hd) (c' & p' & Hc' & Hid' & Hp' & Hd').
    assert (c = c') as <-
      by (apply (TreeFacts.NoDup_fmap_eq cat_id cats); congruence).
    f_equal. apply (IH j p); [done|]. congruence.
Qed.

Lemma at_depth_id (i : nat) (x : Z) :
  at_depth cats i x → x ∈ cat_id <$> cats.
Proof.
  destruct i as [|i]; simpl.
  - intros (c & Hc & <- & _). by apply list_elem_of_fmap_2.
  - intros (c & p & Hc & <- & _). by apply list_elem_of_fmap_2.
Qed.

(** The ids on the way from an id at depth [i] up to a row without
    parent: [i + 1] different ids. *)
Lemma at_depth_chain (i : nat) (x : Z) :
  at_depth cats i x →
  ∃ chain : list Z,
    length chain = S i ∧ NoDup chain
    ∧ ∀ y, y ∈ chain → ∃ j, j ≤ i ∧ at_depth cats j y.
Proof.
  revert x. induction i as [|i IH]; intros x Hx.
  - exists [x]. split_and!; [done | apply NoDup_singleton |].
    intros y ->%list_elem_of_singleton. by exists 0.
  - pose proof Hx as (c & p & Hc & Hid & Hp & Hd).
    destruct (IH p Hd) as (chain & Hlen & Hndc & Hall).
    exists (x :: chain). split_and!.
    + simpl. by rewrite Hlen.
    + apply NoDup_cons. split; [|done]. intros Hin.
      destruct (Hall x Hin) as (j & Hj & Hxj).
      pose proof (at_depth_unique _ _ _ Hx Hxj). lia.
    + intros y [->|Hy]%elem_of_cons; [by exists (S i)|].
      destruct (Hall y Hy) as (j & Hj & Hyj). exists j. split; [lia | done].
Qed.

Lemma at_depth_bound (i : nat) (x : Z) : at_depth cats i x → i < length cats.
Proof.
  intros (chain & Hlen & Hndc & Hall)%at_depth_chain.
  assert (chain ⊆+ cat_id <$> cats) as Hsub.
  { apply NoDup_submseteq; [done|]. intros y (j & _ & Hy)%Hall.
    by eapply at_depth_id. }
  apply submseteq_length in Hsub. rewrite length_fmap in Hsub. lia.
Qed.

Lemma round_length_nil : round id_of root child cats (length cats) = [].
Proof.
  destruct (round id_of root child cats (length cats)) as [|r rs] eqn:E; [done|].
  assert (r ∈ round id_of root child cats (length cats)) as Hr
    by (rewrite E; left).
  apply round_at_depth, at_depth_bound in Hr. lia.
Qed.

(** With ids that are a primary key, the recursive query comes to an
    end. *)
Lemma descend_terminates : is_Some (descend id_of root child cats).
Proof.
  unfold descend. apply (with_recursive_rounds _ _ (length cats)); [lia|].
  apply round_length_nil.
Qed.

End Rounds.

End DescendFacts.

(** ** The order of the tree *)

Module OrderFacts.
Import Sql SqlFacts Tree TreeFacts DescendFacts.

Global Instance bytewise_total : Total bytewise.
Proof. intros a b. apply String.leb_total. Qed.

Global Instance bytewise_trans : Transitive bytewise.
Proof.
  unfold bytewise, String.leb. intros x.
  induction x as [|a x IH]; intros [|b y] [|c z]; simpl; try done.
  unfold Ascii.compare.
  destruct (N.compare_spec (N_of_ascii a) (N_of_ascii b)) as [Hab|Hab|Hab],
    (N.compare_spec (N_of_ascii b) (N_of_ascii c)) as [Hbc|Hbc|Hbc],
    (N.compare_spec (N_of_ascii a) (N_of_ascii c)) as [Hac|Hac|Hac];
    try done; try lia.
  apply IH.
Qed.

Lemma category_tree_terminates (cats : list Category) :
  NoDup (cat_id <$> cats) → is_Some (category_tree cats).
Proof. intros Hnd. by apply descend_terminates. Qed.

(** The database accepts the two recursive statements when the column
    [name] is of type [text] or [character varying] without a length,
    and refuses them when it is [character varying(n)]. *)
Lemma full_path_accepted_iff (name_type : TextType) :
  full_path_accepted name_type ↔ ∀ n, name_type ≠ VARCHAR (Some n).
Proof.
  unfold full_path_accepted, recursive_column_accepted, concat_type, union_type.
  destruct name_type as [[n|]|]; simpl.
  - split; [done|]. intros Hn. by destruct (Hn n).
  - split; [by intros _ n|done].
  - split; [by intros _ n|done].
Qed.

Lemma get_category_tree_rows (collate : relation string)
    `{∀ x y, Decision (collate x y)} (name_type : TextType)
    (cats : list Category) (f : list CategoryTree) :
  get_category_tree collate name_type cats = Some (Rows f) →
  ∃ result, full_path_accepted name_type ∧ category_tree cats = Some result
            ∧ build_tree (order_by (nulls_last collate)
                            (λ r, info_path (row_info r)) result) = Some f.
Proof.
  unfold get_category_tree, tree_query. intros Hf.
  destruct (decide (full_path_accepted name_type)) as [Hty|]; [|done].
  destruct (category_tree cats) as [result|]; [|done]. simpl in Hf.
  exists result. split_and!; [done..|].
  destruct (build_tree _) as [f'|]; [|done]. by injection Hf as <-.
Qed.

(** C8, as the code has it.  Under a collation that is a total preorder,
    the loop fed with the rows in the order of the statement, [ORDER BY
    path], answers with a forest whose roots, and the children of whose
    every node, stand in ascending order of their [path] column, rows
    without path last.  Whenever the endpoint hands back a forest, it is
    in this order. *)
Theorem tree_ordered_by_path (collate : relation string)
    `{∀ x y, Decision (collate x y)} `{!Total collate} `{!Transitive collate} :
  (∀ rows,
     ∃ f, build_tree (order_by (nulls_last collate)
                        (λ r, info_path (row_info r)) rows) = Some f
          ∧ sorted_forest (by_path collate) f)
  ∧ (∀ name_type cats f,
       get_category_tree collate name_type cats = Some (Rows f) →
       sorted_forest (by_path collate) f).
Proof.
  assert (∀ rows f,
            build_tree (order_by (nulls_last collate)
                          (λ r, info_path (row_info r)) rows) = Some f →
            sorted_forest (by_path collate) f) as Hsorted.
  { intros rows f Hf. eapply build_tree_sorted; [|exact Hf].
    apply (StronglySorted_fmap row_info
             (on_key (nulls_last collate) (λ r, info_path (row_info r)))).
    - by intros r1 r2.
    - apply order_by_StronglySorted; apply _. }
  split.
  - intros rows.
    destruct (build_tree_total
                (order_by (nulls_last collate)
                   (λ r, info_path (row_info r)) rows)) as [f Hf].
    exists f. split; [done|]. by apply (Hsorted rows).
  - intros name_type cats f Hf.
    apply get_category_tree_rows in Hf as (result & _ & _ & Hf).
    by apply (Hsorted result).
Qed.

(** C8 at the five rows of the fixtures under the collation "C". *)
Lemma tree_ordered_by_path_witness :
  ∃ f, build_tree (order_by (nulls_last bytewise)
                     (λ r, info_path (row_info r)) Fixtures.sample_rows)
       = Some f
       ∧ sorted_forest (by_path bytewise) f.
Proof. exact (proj1 (tree_ordered_by_path bytewise) Fixtures.sample_rows). Defined.

(** C8 as stated fails: with paths made of ids, the root named
    "Компьютеры" stands before the root named "Бытовая техника". *)
Lemma roots_not_ordered_by_name :
  ¬ ordered_by_name bytewise Fixtures.id_path_rows.
Proof.
  intros (f & Hf & Hroots & _). vm_compute in Hf. injection Hf as <-.
  apply StronglySorted_inv in Hroots as [_ Hfirst].
  apply Forall_cons in Hfirst as [Hle _]. vm_compute in Hle. discriminate.
Qed.

End OrderFacts.

(** ** Counting the children of the roots *)

Module AnalyticsFacts.
Import Sql SqlFacts Tree DescendFacts Analytics.

(** The rows of the result on the level below the first round are the
    second round. *)
Lemma with_recursive_next {A} (step : list A → list A) (level : A → Z)
    (fuel : nat) (working res : list A) (d : Z) :
  step [] = [] →
  (∀ w d', Forall (λ r, level r = d') w →
           Forall (λ r, level r = (d' + 1)%Z) (step w)) →
  Forall (λ r, level r = d) working →
  with_recursive step fuel working = Some res →
  filter (λ r, level r = (d + 1)%Z) res = step working.
Proof.
  intros Hnil Hstep Hw Hres.
  apply with_recursive_cons in Hres
    as [[-> ->]|(fuel' & res' & _ & Hres' & ->)]; [by rewrite Hnil|].
  rewrite filter_app.
  destruct (with_recursive_level step level _ _ _ _ Hstep (Hstep _ _ Hw) Hres')
    as [_ ->].
  replace (filter _ working) with (@nil A); [done|].
  symmetry. apply filter_nil_iff. intros r Hr. rewrite Forall_forall in Hw.
  rewrite (Hw r Hr). lia.
Qed.

Lemma count_left_join_row {A B C} (on : A → B → bool) (r : list B) (a : A)
    (f : B → C) :
  count ((λ p : A * option B, f <$> p.2) <$> left_join_row on r a)
  = Z.of_nat (length (filter (λ b, on a b = true) r)).
Proof.
  unfold count. f_equal. rewrite <- (left_join_row_snd on r a).
  generalize (left_join_row on r a). intros l.
  induction l as [|[a' [b|]] l IH]; csimpl; [done | by f_equal | done].
Qed.

Lemma filter_unique {A B} `{EqDecision B} (f : A → B) (l : list A) (a : A) :
  NoDup (f <$> l) → a ∈ l → filter (λ x, f x = f a) l = [a].
Proof.
  induction l as [|x l IH]; [by intros _ ?%elem_of_nil|].
  rewrite fmap_cons, NoDup_cons. intros [Hx Hnd] Hin. rewrite filter_cons.
  apply elem_of_cons in Hin as [->|Hin].
  - rewrite decide_True by done. f_equal. apply filter_nil_iff.
    intros y Hy Heq. apply Hx. rewrite <- Heq. by apply list_elem_of_fmap_2.
  - rewrite decide_False; [by apply IH|].
    intros Heq. apply Hx. rewrite Heq. by apply list_elem_of_fmap_2.
Qed.

Section Children.
Context (cats : list Category) (Hnd : NoDup (cat_id <$> cats)).

Local Abbreviation first_round := (anchor hierarchy_root cats).
Local Abbreviation second_round :=
  (recursive_term h_id hierarchy_child cats first_round).

Lemma first_round_roots : first_round = hierarchy_root <$> roots cats.
Proof. done. Qed.

Lemma first_round_ids : NoDup (h_id <$> first_round).
Proof.
  rewrite first_round_roots, <- list_fmap_compose.
  by apply (StatsFacts.NoDup_fmap_filter cat_id).
Qed.

(** The rows of the second round under a root are the active rows that
    name the root as their parent. *)
Lemma second_round_under (c0 : Category) (l : list Category) :
  c0 ∈ roots cats →
  length
    (filter (λ r, h_parent_id r = Some (cat_id c0))
       (recursive_term h_id hierarchy_child l first_round))
  = length (filter (λ ch, cat_parent_id ch = Some (cat_id c0)
                          ∧ cat_is_active ch = true) l).
Proof.
  intros Hc0. unfold recursive_term, inner_join.
  induction l as [|c l IH]; [done|].
  rewrite bind_cons, filter_app, fmap_app, filter_app, length_app, IH.
  rewrite (filter_cons _ c). clear IH.
  destruct (decide (cat_parent_id c = Some (cat_id c0))) as [Hp|Hp].
  - assert (filter (λ b, bool_decide (cat_parent_id c = Some (h_id b)) = true)
              first_round = [hierarchy_root c0]) as ->.
    { rewrite <- (filter_unique h_id first_round (hierarchy_root c0)).
      - apply list_filter_iff. intros r. rewrite bool_decide_eq_true, Hp.
        simpl. split; congruence.
      - apply first_round_ids.
      - rewrite first_round_roots. by apply list_elem_of_fmap_2. }
    simpl. destruct (cat_is_active c) eqn:Hact.
    + rewrite (decide_True (P := _ ∧ _)) by done.
      rewrite (filter_all _ [(c, hierarchy_root c0)])
        by (by constructor).
      csimpl. rewrite (filter_all _ [_]) by (by constructor). done.
    + rewrite (decide_False (P := _ ∧ _)) by (by intros [_ ?]).
      replace (filter _ [(c, hierarchy_root c0)])
        with (@nil (Category * HierarchyRow)); [done|].
      symmetry. apply filter_nil_iff.
      intros p ->%list_elem_of_singleton. simpl. congruence.
  - rewrite decide_False by (by intros [? _]).
    replace (filter (λ r, h_parent_id r = Some (cat_id c0)) _)
      with (@nil HierarchyRow); [done|].
    symmetry. apply filter_nil_iff. intros r Hr.
    apply list_elem_of_fmap in Hr as ([c' p] & -> & Hr).
    apply list_elem_of_filter in Hr as [_ Hr].
    apply list_elem_of_bind in Hr as (p' & Hr & _).
    apply list_elem_of_singleton in Hr as [= -> ->]. done.
Qed.

Lemma hierarchy_step_level (w : list HierarchyRow) (d : Z) :
  Forall (λ r, h_depth r = d) w →
  Forall (λ r, h_depth r = (d + 1)%Z) (recursive_term h_id hierarchy_child cats w).
Proof.
  rewrite !Forall_forall. intros Hw r.
  intros (c & p & -> & _ & Hp & _)%elem_of_recursive_term. simpl.
  by rewrite (Hw p Hp).
Qed.

Lemma recursive_term_nil : recursive_term h_id hierarchy_child cats [] = [].
Proof.
  destruct (recursive_term _ _ _ _) as [|r rs] eqn:E; [done|].
  assert (r ∈ recursive_term h_id hierarchy_child cats []) as Hr
    by (rewrite E; left).
  apply elem_of_recursive_term in Hr as (c & p & _ & _ & Hp & _).
  by apply elem_of_nil in Hp.
Qed.

(** The groups of the outer query: one for each root, made of the root
    joined with the rows of depth 1 below it. *)
Lemma children_groups_roots (ch : list HierarchyRow) :
  category_hierarchy cats = Some ch →
  children_of_group <$> children_groups ch
  = immediate_children cats <$> roots cats.
Proof.
  intros Hch. unfold category_hierarchy, descend in Hch.
  assert (Forall (λ r, h_depth r = 0%Z) first_round) as Hfirst.
  { rewrite first_round_roots. apply Forall_fmap, Forall_forall. by intros ??. }
  destruct (with_recursive_level _ h_depth _ _ _ _ hierarchy_step_level
              Hfirst Hch) as [_ Hzero].
  pose proof (with_recursive_next _ h_depth _ _ _ _ recursive_term_nil
                hierarchy_step_level Hfirst Hch) as Hone.
  assert (children_groups ch
          = (λ a, ((h_id a, h_name a, h_level a, h_full_path a),
                   left_join_row child_on ch a)) <$> first_round) as ->.
  { unfold children_groups. etrans.
    { apply (f_equal (group_by _)).
      apply (filter_left_join _ _ (λ a, h_depth a = 0%Z)). }
    rewrite Hzero.
    apply (group_by_left_join
             (λ a, (h_id a, h_name a, h_level a, h_full_path a))).
    apply (NoDup_fmap_1 (λ k : Z * string * Z * string, k.1.1.1)).
    rewrite <- list_fmap_compose. apply first_round_ids. }
  rewrite first_round_roots, <- !list_fmap_compose.
  apply list_fmap_ext. intros i c Hc%list_elem_of_lookup_2.
  unfold children_of_group, immediate_children. simpl. f_equal.
  rewrite count_left_join_row. f_equal. unfold direct_children.
  rewrite <- (second_round_under c cats Hc), <- Hone.
  rewrite list_filter_filter. f_equal. apply list_filter_iff.
  intros r. unfold child_on. simpl.
  rewrite andb_true_iff, !bool_decide_eq_true. done.
Qed.

End Children.

(** With category ids that are a primary key, the query of
    [get_category_children_count], once the database accepts it, comes
    to an end; before LIMIT and OFFSET it has one row for each active
    root, and the count of that row is the number of active categories
    that name the root as their parent: the direct children, no deeper
    descendant.  Every page is made of such rows. *)
Lemma children_count_when_accepted (collate : relation string)
    `{∀ x y, Decision (collate x y)} (name_type : TextType)
    (cats : list Category) :
  full_path_accepted name_type → NoDup (cat_id <$> cats) →
  ∃ ch, category_hierarchy cats = Some ch
        ∧ children_counts collate ch ≡ₚ immediate_children cats <$> roots cats
        ∧ ∀ pagination,
            ∃ page, get_category_children_count collate name_type cats pagination
                    = Some (Rows page)
                    ∧ page ⊆ immediate_children cats <$> roots cats.
Proof.
  intros Hty Hnd.
  destruct (descend_terminates h_id hierarchy_root hierarchy_child
              (λ _, eq_refl) (λ _ _, eq_refl) cats Hnd) as [ch Hch].
  assert (children_counts collate ch
          ≡ₚ immediate_children cats <$> roots cats) as Hall.
  { unfold children_counts. rewrite order_by_Permutation.
    by rewrite (children_groups_roots cats Hnd ch Hch). }
  exists ch. split_and!; [done..|].
  intros pagination. unfold get_category_children_count.
  rewrite decide_True by done.
  change (category_hierarchy cats) with
    (descend h_id hierarchy_root hierarchy_child cats).
  rewrite Hch. simpl. eexists. split; [done|].
  intros e He. rewrite <- Hall. unfold limit_offset in He.
  by eapply elem_of_sublist; [|etrans; [apply sublist_take | apply sublist_drop]].
Qed.

(** C5, on the code.  With the column [name] as [models.py] declares it,
    [String(255)], the database refuses the statement of
    [get_category_children_count], whatever the table holds and whatever
    page is asked for: the endpoint ends with [ProgrammingError] and
    counts nothing, also at a root with the children A and B, where A
    has the children C and D.  With a column [name] of type [text] the
    count at that root is 2. *)
Theorem children_count_statement_is_refused (collate : relation string)
    `{∀ x y, Decision (collate x y)} :
  (∀ cats pagination,
     get_category_children_count collate category_name_type cats pagination
     = Some ProgrammingError)
  ∧ get_category_children_count collate TEXT Fixtures.grandchildren_categories
      {| Pagination.page := 1; Pagination.size := 20 |}
    = Some (Rows [{| category_name := "Root"; children_count := 2;
                     level := 0; full_path := "Root" |}]).
Proof. split; [|reflexivity]. intros cats pagination. reflexivity. Qed.

End AnalyticsFacts.

(** ** Pages *)

Module PaginationFacts.
Import Paginated.

Lemma page_of_drop {A} (size p : nat) (l : list A) :
  page_of size p l = take size (drop ((p - 1) * size) l).
Proof. done. Qed.

Lemma pages_prefix {A} (size k : nat) (l : list A) :
  mjoin ((λ p, page_of size p l) <$> seq 1 k) = take (k * size) l.
Proof.
  induction k as [|k IH]; [done|].
  rewrite seq_S, fmap_app, join_app, IH. simpl.
  rewrite app_nil_r, page_of_drop.
  replace (S k - 1) with k by lia.
  rewrite take_take_drop. f_equal. lia.
Qed.

(** X1. Read page after page, a listing is read from its start without a
    gap and without a repetition: pages 1 to [k] of [size] rows each are
    the first [k * size] rows.  No page is longer than [size], and a
    page that starts behind the last row is empty. *)
Theorem pages_tile_the_listing {A} (size k : nat) (l : list A) :
  mjoin ((λ p, page_of size p l) <$> seq 1 k) = take (k * size) l
  ∧ (∀ p, length (page_of size p l) ≤ size)
  ∧ (∀ p, length l ≤ (p - 1) * size → page_of size p l = []).
Proof.
  split; [apply pages_prefix|]. split.
  - intros p. rewrite page_of_drop, length_take. lia.
  - intros p Hp. rewrite page_of_drop, drop_ge by done. by rewrite take_nil.
Qed.

(** X2. [PaginatedResponse.create] refuses a page size of zero; for a
    page size of at least one and a total that is not negative, [pages]
    is the number of the last page that holds a row: [pages] pages are
    enough for [total] rows and [pages - 1] are not, and page [p] of a
    listing of [total] rows is not empty exactly for [p] from 1 to
    [pages]. *)
Theorem create_counts_the_pages {A B} (items : list A) (total page size : Z) :
  (size = 0%Z → create items total page size = None)
  ∧ ((0 ≤ total)%Z → (1 ≤ size)%Z →
     ∃ r, create items total page size = Some r
          ∧ ((pages r - 1) * size < total ≤ pages r * size)%Z
          ∧ ∀ (l : list B) (sz p : nat),
              total = Z.of_nat (length l) → size = Z.of_nat sz → 1 ≤ p →
              (page_of sz p l ≠ [] ↔ (Z.of_nat p ≤ pages r)%Z)).
Proof.
  split.
  - intros ->. done.
  - intros Ht Hs. unfold create. rewrite decide_False by lia.
    eexists. split; [done|]. simpl.
    set (q := ((total + size - 1) `div` size)%Z).
    assert ((q - 1) * size < total ≤ q * size)%Z as Hq.
    { pose proof (Z.div_mod (total + size - 1) size ltac:(lia)) as Hdm.
      pose proof (Z.mod_pos_bound (total + size - 1) size ltac:(lia)) as Hb.
      fold q in Hdm. nia. }
    split; [done|].
    intros l sz p -> -> Hp. rewrite page_of_drop.
    split.
    + intros Hne.
      assert ((p - 1) * sz < length l) as Hlt.
      { destruct (decide ((p - 1) * sz < length l)) as [|Hge]; [done|].
        exfalso. apply Hne. rewrite drop_ge by lia. by rewrite take_nil. }
      destruct (decide (Z.of_nat p ≤ q)%Z) as [|Hgt]; [done|]. exfalso.
      assert (q ≤ Z.of_nat (p - 1))%Z as Hle by lia.
      assert (q * Z.of_nat sz ≤ Z.of_nat ((p - 1) * sz))%Z by nia.
      lia.
    + intros Hle Hnil.
      assert (length (take sz (drop ((p - 1) * sz) l)) = 0) as Hlen
        by (by rewrite Hnil).
      rewrite length_take, length_drop in Hlen.
      assert ((Z.of_nat p - 1) * Z.of_nat sz < Z.of_nat (length l))%Z by nia.
      assert (Z.of_nat ((p - 1) * sz) < Z.of_nat (length l))%Z by nia.
      lia.
Qed.

End PaginationFacts.

(** ** Placing, changing and deleting orders *)

Module OrderRulesFacts.
Import Orders Integrity OrderRules OrdersFacts.

(** *** The checks of [create_order] *)

Lemma head_filter_elem {A} (P : A → Prop) `{∀ x, Decision (P x)} (l : list A)
    (a : A) :
  head (filter P l) = Some a → a ∈ l ∧ P a.
Proof.
  intros Hhead. apply head_Some_elem_of in Hhead.
  by apply list_elem_of_filter in Hhead as [? ?].
Qed.

Lemma head_filter_None {A} (P : A → Prop) `{∀ x, Decision (P x)} (l : list A) :
  head (filter P l) = None ↔ ∀ a, a ∈ l → ¬ P a.
Proof. rewrite head_None. apply filter_nil_iff. Qed.

Lemma filter_key_unique {A} (f : A → Z) (P : A → Prop) `{∀ x, Decision (P x)}
    (l : list A) (a : A) :
  NoDup (f <$> l) → a ∈ l → P a →
  filter (λ x, f x = f a ∧ P x) l = [a].
Proof.
  intros Hnd Ha HP.
  rewrite (list_filter_iff _ (λ x, P x ∧ f x = f a)) by (intros; tauto).
  rewrite <- (list_filter_filter P (λ x, f x = f a)).
  rewrite (AnalyticsFacts.filter_unique f l a) by done.
  by rewrite filter_cons, decide_True.
Qed.

Lemma check_item_Ok (item : OrderItemCreate) (db db1 : Database) :
  check_item item db = (Ok (), db1) → in_stock db item.
Proof.
  unfold check_item, bind, query. simpl.
  destruct (head _) as [n|] eqn:Hn; [|done].
  apply head_filter_elem in Hn as (Hin & Hid & Hact).
  case_decide as Hq; [done|]. case_decide as Hp; [done|].
  intros _. exists n. split_and!; [done..|lia|].
  by destruct (decide (price item = nom_price n)).
Qed.

Lemma check_items_Ok (items : list OrderItemCreate) (db db1 : Database) :
  for_each items check_item db = (Ok (), db1) → Forall (in_stock db) items.
Proof.
  induction items as [|item items IH]; [constructor|].
  simpl. intros ([] & d1 & Hitem & Hrest)%bind_Ok.
  pose proof (check_item_state item db) as Hstate.
  rewrite Hitem in Hstate. simpl in Hstate. subst d1.
  constructor; [by eapply check_item_Ok | by apply IH].
Qed.

Lemma check_items_pass (items : list OrderItemCreate) (db : Database) :
  NoDup (nom_id <$> nomenclature db) → Forall (in_stock db) items →
  for_each items check_item db = (Ok (), db).
Proof.
  intros Hpk. induction 1 as [|item items (n & Hin & Hid & Hact & Hq & Hp) _ IH];
    [done|].
  simpl. unfold bind at 1. unfold check_item, bind at 1, query. simpl.
  rewrite <- Hid. rewrite (filter_key_unique nom_id _ _ n) by done. simpl.
  rewrite decide_False by lia. rewrite decide_False by (intros Hne; by apply Hne).
  unfold ret. apply IH.
Qed.

Lemma place_items_run (o : Order) (items : list OrderItemCreate) (db : Database) :
  NoDup (nomenclature_id <$> items) →
  Forall (λ item, (order_id o, nomenclature_id item)
                  ∉ item_key <$> order_items db) items →
  for_each items (place_item o) db = (Ok (), placed o items db).
Proof.
  revert db. induction items as [|item items IH]; intros db Hnd Hfresh.
  - simpl. unfold ret, placed. simpl. rewrite app_nil_r. by destruct db.
  - apply NoDup_cons in Hnd as [Hnotin Hnd].
    apply Forall_cons in Hfresh as [Hitem Hfresh].
    simpl. unfold bind at 1. unfold place_item, bind at 1, insert_order_item.
    simpl. rewrite decide_False by done.
    unfold update_quantity, execute, set_nomenclature. simpl.
    rewrite IH; [|done|].
    + unfold placed. simpl. by rewrite <- app_assoc.
    + simpl. rewrite Forall_forall in Hfresh |- *. intros item' Hin.
      rewrite fmap_app, elem_of_app. intros [Hold|Hnew].
      * by apply (Hfresh item').
      * simpl in Hnew. apply list_elem_of_singleton in Hnew.
        unfold item_key in Hnew. simpl in Hnew. injection Hnew as Heq.
        apply Hnotin. rewrite <- Heq. by apply list_elem_of_fmap_2.
Qed.

Lemma create_order_checked (order : OrderCreate) (db db1 : Database)
    (resp : OrderResponse) :
  create_order order db = (Ok resp, db1) →
  OrderCreate_valid order
  ∧ active_client db (create_client_id order)
  ∧ Forall (in_stock db) (create_items order)
  ∧ resp_client_id resp = create_client_id order
  ∧ resp_status resp = create_status order
  ∧ resp_payment_status resp = create_payment_status order
  ∧ resp_items_count resp = length (create_items order).
Proof.
  unfold create_order. case_decide as Hvalid; [|done].
  rewrite handler_Ok. unfold create_order_body.
  intros Hbody. apply bind_Ok in Hbody as (client_result & d0 & Hclient & Hbody).
  unfold query in Hclient. injection Hclient as <- <-.
  destruct (head _) as [c|] eqn:Hc; [|done].
  apply head_filter_elem in Hc as (Hin & Hid & Hact).
  apply bind_Ok in Hbody as ([] & d1 & Hcheck & Hbody).
  apply check_items_Ok in Hcheck as Hstock.
  apply bind_Ok in Hbody as (o & d2 & Hins & Hbody).
  unfold insert_order in Hins. case_decide as Hfresh; [done|].
  injection Hins as <- <-.
  apply bind_Ok in Hbody as ([] & d3 & Hplace & Hret).
  unfold ret in Hret. injection Hret as <- <-. simpl.
  split_and!; try done. by exists c.
Qed.

Lemma create_order_accepted (order : OrderCreate) (db : Database) :
  NoDup (nom_id <$> nomenclature db) → order_items_reference_orders db →
  acceptable order db →
  ∃ resp, create_order order db
          = (Ok resp, placed (new_order order db) (create_items order)
                        (inserted (new_order order db) db)).
Proof.
  intros Hpk Hfk (Hvalid & (c & Hc & Hcid & Hact) & Hstock & Hnd & Hfresh).
  unfold create_order. rewrite decide_True by done.
  eexists. apply handler_Ok. unfold create_order_body.
  unfold bind at 1. unfold query at 1.
  destruct (head (filter _ (clients db))) as [c'|] eqn:Hhead.
  2:{ rewrite head_filter_None in Hhead. by destruct (Hhead c Hc). }
  unfold bind at 1. rewrite check_items_pass by done.
  unfold bind at 1. unfold insert_order. rewrite decide_False by done.
  unfold bind at 1.
  rewrite place_items_run; [done|done|].
  simpl. apply Forall_forall. intros item _ Hin.
  apply list_elem_of_fmap in Hin as (i & Hkey & Hi).
  apply Hfresh. unfold item_key in Hkey. injection Hkey as Hoid _.
  rewrite Hoid. by apply Hfk.
Qed.

(** X3. [create_order] commits an order only when the order passes the
    schema, its client is present and active, every item names an active
    nomenclature row with enough stock and the price the item quotes, no
    nomenclature id is named by two items, and the id drawn from the
    sequence is free. *)
Theorem create_order_commits_only_when (order : OrderCreate) (db db1 : Database)
    (resp : OrderResponse) :
  create_order order db = (Ok resp, db1) → acceptable order db.
Proof.
  intros Hrun.
  destruct (create_order_checked _ _ _ _ Hrun) as (Hv & Hc & Hs & _).
  destruct (create_order_Ok _ _ _ _ Hrun) as (Hfresh & Hnd & _).
  exact (conj Hv (conj Hc (conj Hs (conj Hnd Hfresh)))).
Qed.

Lemma create_order_commits_only_when_witness :
  ∃ resp db1,
    create_order Fixtures.pending_order Fixtures.sample_db = (Ok resp, db1)
    ∧ acceptable Fixtures.pending_order Fixtures.sample_db.
Proof.
  eexists _, _. split; [reflexivity|].
  exact (create_order_commits_only_when Fixtures.pending_order
           Fixtures.sample_db _ _ eq_refl).
Defined.

(** X4. An order that [create_order] commits is one new row of
    [orders], with the next id of the sequence, which no earlier order
    has, and with the client, status and payment status of the request;
    and one new row of [order_items] for each item of the request, in the
    order of the request, with the nomenclature id, the quantity and the
    price of the item.  Earlier orders and items, the clients and the
    categories stay as they were.  The request itself is answered with
    500: the answer that the handler builds after the commit, with an
    empty list of items, does not pass its schema class. *)
Theorem create_order_appends_the_order (order : OrderCreate) (db db1 : Database)
    (resp : OrderResponse) :
  create_order order db = (Ok resp, db1) →
  ((orders_id_seq db + 1)%Z ∉ order_id <$> orders db)
  ∧ orders db1
    = orders db ++ [{| order_id := (orders_id_seq db + 1)%Z;
                       order_client_id := create_client_id order;
                       order_status := create_status order;
                       order_payment_status := create_payment_status order |}]
  ∧ (∃ new,
       order_items db1 = order_items db ++ new
       ∧ (λ i, (item_order_id i, item_nomenclature_id i, item_quantity i,
                item_price i)) <$> new
         = (λ item, ((orders_id_seq db + 1)%Z, nomenclature_id item,
                     quantity item, price item)) <$> create_items order)
  ∧ clients db1 = clients db ∧ categories db1 = categories db
  ∧ orders_id_seq db1 = (orders_id_seq db + 1)%Z
  ∧ OrderUpdates.create_order_answer order db
    = (HTTPException 500 "Internal Server Error", db1).
Proof.
  intros Hrun.
  assert (OrderUpdates.create_order_answer order db
          = (HTTPException 500 "Internal Server Error", db1)) as Hanswer.
  { unfold OrderUpdates.create_order_answer. by rewrite Hrun. }
  destruct (create_order_Ok _ _ _ _ Hrun) as (Hfresh & _ & Hid & ->).
  simpl. split_and!; try done.
  eexists. split; [done|]. unfold item_rows.
  by rewrite <- list_fmap_compose.
Qed.

Lemma create_order_appends_the_order_witness :
  ∃ resp db1,
    create_order Fixtures.pending_order Fixtures.sample_db = (Ok resp, db1)
    ∧ order_id <$> orders db1 = [1%Z]
    ∧ item_key <$> order_items db1 = [(1%Z, 1%Z)]
    ∧ OrderUpdates.create_order_answer Fixtures.pending_order Fixtures.sample_db
      = (HTTPException 500 "Internal Server Error", db1).
Proof.
  eexists _, _. split; [reflexivity|].
  destruct (create_order_appends_the_order Fixtures.pending_order
              Fixtures.sample_db _ _ eq_refl)
    as (_ & Ho & (new & Hi & _) & _ & _ & _ & Hanswer).
  split; [by rewrite Ho|]. split; [reflexivity | exact Hanswer].
Defined.

(** *** Stock after an order *)

Lemma moved_taken (items : list OrderItemCreate) (item : OrderItemCreate) :
  NoDup (nomenclature_id <$> items) → item ∈ items →
  moved (taken items) (nomenclature_id item) = (- quantity item)%Z.
Proof.
  intros Hnd Hin. apply moved_unique.
  - unfold taken. by rewrite <- list_fmap_compose.
  - unfold taken.
    by apply (list_elem_of_fmap_2
                (λ item, (nomenclature_id item, (- quantity item)%Z))).
Qed.

Lemma taken_ids (items : list OrderItemCreate) :
  (taken items).*1 = nomenclature_id <$> items.
Proof. unfold taken. by rewrite <- list_fmap_compose. Qed.

(** X5. With nomenclature ids that are a primary key, [create_order]
    never sells more than there is: when no stock figure is negative
    before an order is committed, none is negative after it. *)
Theorem create_order_never_oversells (order : OrderCreate) (db db1 : Database)
    (resp : OrderResponse) :
  NoDup (nom_id <$> nomenclature db) → stock_nonnegative db →
  create_order order db = (Ok resp, db1) → stock_nonnegative db1.
Proof.
  intros Hpk Hstock Hrun.
  destruct (create_order_checked _ _ _ _ Hrun) as (_ & _ & Hin & _).
  destruct (create_order_Ok _ _ _ _ Hrun) as (_ & Hnd & _ & ->).
  unfold stock_nonnegative in *. simpl. rewrite move_all_rows.
  apply Forall_fmap, Forall_forall. intros n Hn. simpl.
  rewrite Forall_forall in Hstock. specialize (Hstock n Hn).
  unfold add_quantity. rewrite decide_True by done. simpl.
  destruct (decide (nom_id n ∈ nomenclature_id <$> create_items order))
    as [Hordered|Hnot].
  - apply list_elem_of_fmap in Hordered as (item & Hid & Hitem).
    rewrite Hid, moved_taken by done.
    rewrite Forall_forall in Hin.
    destruct (Hin item Hitem) as (n' & Hn' & Hid' & _ & Hq & _).
    assert (n' = n) as ->.
    { apply (TreeFacts.NoDup_fmap_eq nom_id (nomenclature db)); [done..|].
      congruence. }
    lia.
  - rewrite moved_absent by (by rewrite taken_ids). lia.
Qed.

Lemma create_order_never_oversells_witness :
  NoDup (nom_id <$> nomenclature Fixtures.sample_db)
  ∧ stock_nonnegative Fixtures.sample_db
  ∧ stock_nonnegative (create_order Fixtures.pending_order Fixtures.sample_db).2.
Proof.
  assert (NoDup (nom_id <$> nomenclature Fixtures.sample_db)) as Hpk
    by (by apply (bool_decide_unpack _)).
  assert (stock_nonnegative Fixtures.sample_db) as Hstock
    by (by apply (bool_decide_unpack _)).
  split; [exact Hpk|]. split; [exact Hstock|].
  by eapply (create_order_never_oversells Fixtures.pending_order
               Fixtures.sample_db _ _ Hpk Hstock).
Defined.

(** X6. An order that names one nomenclature id in two of its items is
    never committed, whatever the stock: the answer is an error, and
    although the first of the two items is written before the unique
    constraint of [order_items] refuses the second, no table is changed
    in the end. *)
Theorem create_order_refuses_repeated_items (order : OrderCreate)
    (db : Database) :
  ¬ NoDup (nomenclature_id <$> create_items order) →
  (∀ resp, (create_order order db).1 ≠ Ok resp)
  ∧ same_tables (create_order order db).2 db.
Proof.
  intros Hdup.
  assert (∀ resp, (create_order order db).1 ≠ Ok resp) as Hno.
  { intros resp Hok.
    destruct (create_order order db) as [r db1] eqn:Hrun. simpl in Hok.
    subst r. by destruct (create_order_Ok _ _ _ _ Hrun) as (_ & ? & _). }
  split; [done|].
  unfold create_order in *. case_decide; [|done].
  unfold handler in *.
  destruct (create_order_body order db) as [[resp| |] db1]; try done.
  by destruct (Hno resp).
Qed.

Lemma create_order_refuses_repeated_items_witness :
  let twice :=
    {| create_client_id := 1; create_status := PENDING;
       create_payment_status := UNPAID;
       create_items :=
         [ {| nomenclature_id := 1; quantity := 1; price := 2500000%Z;
              total_price := 2500000%Z |};
           {| nomenclature_id := 1; quantity := 2; price := 2500000%Z;
              total_price := 5000000%Z |} ] |} in
  ¬ NoDup (nomenclature_id <$> create_items twice)
  ∧ (create_order twice Fixtures.sample_db).1 = IntegrityError
  ∧ same_tables (create_order twice Fixtures.sample_db).2 Fixtures.sample_db.
Proof.
  intros twice.
  assert (¬ NoDup (nomenclature_id <$> create_items twice)) as Hdup
    by (by apply (bool_decide_unpack _)).
  split; [exact Hdup|]. split; [reflexivity|].
  apply (create_order_refuses_repeated_items twice Fixtures.sample_db Hdup).
Defined.

End OrderRulesFacts.

(** ** The constraints of the schema under the handlers *)

Module IntegrityFacts.
Import Orders Integrity OrderRules OrderUpdates OrdersFacts OrderRulesFacts.

Lemma constraints_same_tables (db1 db2 : Database) :
  same_tables db1 db2 → constraints db2 → constraints db1.
Proof.
  intros (Hc & Hn & Hcl & Ho & Hi).
  unfold constraints, primary_keys, foreign_keys.
  by rewrite Hc, Hn, Hcl, Ho, Hi.
Qed.

Lemma same_tables_refl (db : Database) : same_tables db db.
Proof. by repeat split. Qed.

Lemma handler_failed {A} (m : Db A) (db : Database) :
  (∀ a, (handler m db).1 ≠ Ok a) → same_tables (handler m db).2 db.
Proof.
  unfold handler. destruct (m db) as [[a| |] db1]; simpl; intros Hno;
    [by destruct (Hno a) | by repeat split..].
Qed.

Lemma move_all_ids (ds : list (Z * Z)) (noms : list Nomenclature) :
  nom_id <$> move_all ds noms = nom_id <$> noms.
Proof.
  rewrite move_all_rows, <- list_fmap_compose. apply list_fmap_ext.
  intros _ n _. simpl. apply add_quantity_id.
Qed.

Lemma add_quantity_category (id delta : Z) (n : Nomenclature) :
  nom_category_id (add_quantity id delta n) = nom_category_id n.
Proof. unfold add_quantity. by case_decide. Qed.

Lemma move_all_categories (ds : list (Z * Z)) (noms : list Nomenclature) :
  nom_category_id <$> move_all ds noms = nom_category_id <$> noms.
Proof.
  rewrite move_all_rows, <- list_fmap_compose. apply list_fmap_ext.
  intros _ n _. simpl. apply add_quantity_category.
Qed.

Lemma Forall_fmap_eq {A B} (f : A → B) (P : B → Prop) (l1 l2 : list A) :
  f <$> l1 = f <$> l2 → Forall (λ x, P (f x)) l2 → Forall (λ x, P (f x)) l1.
Proof.
  intros Heq H2. apply (Forall_fmap f P). rewrite Heq. by apply Forall_fmap.
Qed.

Lemma Forall_filter_keep {A} (P Q : A → Prop) `{∀ x, Decision (Q x)}
    (l : list A) :
  Forall P l → Forall P (filter Q l).
Proof.
  rewrite !Forall_forall. intros HP x Hx.
  apply list_elem_of_filter in Hx as [_ Hx]. by apply HP.
Qed.

Lemma item_rows_keys (id : Z) (items : list OrderItemCreate) :
  item_key <$> item_rows id items = (λ item, (id, nomenclature_id item)) <$> items.
Proof. unfold item_rows. by rewrite <- list_fmap_compose. Qed.

Lemma constraints_placed (order : OrderCreate) (db : Database) :
  constraints db → acceptable order db →
  constraints (placed (new_order order db) (create_items order)
                 (inserted (new_order order db) db)).
Proof.
  intros [(Hcat & Hnom & Hcl & Hord & Hitems) (Hpar & Hnc & Hoc & Hio & Hin)]
    (_ & (c & Hc & Hcid & _) & Hstock & Hnd & Hfresh).
  split; [split_and!|split_and!]; simpl.
  - done.
  - by rewrite move_all_ids.
  - done.
  - rewrite fmap_app. apply NoDup_app. split_and!; [done| |apply NoDup_singleton].
    intros x Hx Hx'. simpl in Hx'. apply list_elem_of_singleton in Hx'. by subst x.
  - rewrite fmap_app. apply NoDup_app. split_and!; [done| |].
    + intros k Hold Hnew. rewrite item_rows_keys in Hnew.
      apply list_elem_of_fmap in Hnew as (item & -> & _).
      apply list_elem_of_fmap in Hold as (i & Hkey & Hi).
      unfold item_key in Hkey. injection Hkey as Hoid _.
      apply Hfresh. rewrite Hoid.
      rewrite Forall_forall in Hio. by apply Hio.
    + rewrite item_rows_keys.
      apply (NoDup_fmap_2_strong _); [|by apply NoDup_fmap_1 in Hnd].
      intros x y Hx Hy [=].
      by apply (TreeFacts.NoDup_fmap_eq nomenclature_id (create_items order)).
  - done.
  - apply (Forall_fmap nom_category_id (λ k, k ∈ cat_id <$> categories db)).
    rewrite move_all_categories. by apply Forall_fmap.
  - apply Forall_app. split; [done|]. apply Forall_singleton. simpl.
    rewrite <- Hcid. by apply list_elem_of_fmap_2.
  - apply Forall_app. split.
    + eapply Forall_impl; [exact Hio|]. intros i Hi. simpl in Hi.
      rewrite fmap_app, elem_of_app. by left.
    + unfold item_rows. apply Forall_fmap, Forall_forall. intros item _. simpl.
      rewrite fmap_app, elem_of_app. right. simpl. left.
  - rewrite move_all_ids. apply Forall_app. split; [done|].
    unfold item_rows. apply Forall_fmap.
    eapply Forall_impl; [exact Hstock|].
    intros item (n & Hn & Hid & _). simpl. rewrite <- Hid.
    by apply list_elem_of_fmap_2.
Qed.

Lemma create_order_keeps (order : OrderCreate) (db : Database) :
  constraints db → constraints (create_order order db).2.
Proof.
  intros Hok.
  destruct (create_order order db) as [[resp|s d|] db1] eqn:Hrun; simpl.
  - destruct (create_order_checked _ _ _ _ Hrun) as (Hv & Hc & Hs & _).
    destruct (create_order_Ok _ _ _ _ Hrun) as (Hfresh & Hnd & _ & ->).
    apply constraints_placed; [done|].
    exact (conj Hv (conj Hc (conj Hs (conj Hnd Hfresh)))).
  - apply (constraints_same_tables _ db); [|done].
    unfold create_order in Hrun. case_decide.
    + replace db1 with (handler (create_order_body order) db).2
        by (by rewrite Hrun).
      apply handler_failed. intros a. by rewrite Hrun.
    + injection Hrun as _ _ <-. apply same_tables_refl.
  - apply (constraints_same_tables _ db); [|done].
    unfold create_order in Hrun. case_decide; [|done].
    replace db1 with (handler (create_order_body order) db).2
      by (by rewrite Hrun).
    apply handler_failed. intros a. by rewrite Hrun.
Qed.

(** *** [delete_order] *)

Lemma delete_order_run (id : Z) (db : Database) :
  delete_order id db
  = match head (filter (λ o, order_id o = id) (orders db)) with
    | None => (HTTPException 404 "Заказ не найден", rollback db db)
    | Some o =>
        if decide (frozen (order_status o)) then
          (HTTPException 400
             "Нельзя удалить заказ в статусе 'completed' или 'processing'",
           rollback db db)
        else
          (Ok "Заказ удален",
           {| categories := categories db;
              nomenclature :=
                move_all (returned (items_of id db)) (nomenclature db);
              clients := clients db;
              orders := filter (λ o, order_id o ≠ id) (orders db);
              order_items := filter (λ i, item_order_id i ≠ id) (order_items db);
              orders_id_seq := orders_id_seq db |})
    end.
Proof.
  unfold delete_order, handler, delete_order_body.
  unfold bind at 1. unfold query at 1.
  destruct (head _) as [o|]; [|done].
  unfold frozen. case_decide; [done|].
  unfold bind at 1. unfold query at 1.
  unfold bind at 1. rewrite return_items_Ok.
  unfold bind, delete_order_row, execute, ret. done.
Qed.

Lemma rollback_same (db : Database) : rollback db db = db.
Proof. by destruct db. Qed.

Lemma delete_order_keeps (id : Z) (db : Database) :
  constraints db → constraints (delete_order id db).2.
Proof.
  intros Hok. rewrite delete_order_run.
  destruct (head _) as [o|]; [|by rewrite rollback_same].
  case_decide; [by rewrite rollback_same|]. simpl.
  destruct Hok as [(Hcat & Hnom & Hcl & Hord & Hitems)
                     (Hpar & Hnc & Hoc & Hio & Hin)].
  split; [split_and!|split_and!]; simpl.
  - done.
  - by rewrite move_all_ids.
  - done.
  - by apply StatsFacts.NoDup_fmap_filter.
  - by apply StatsFacts.NoDup_fmap_filter.
  - done.
  - apply (Forall_fmap nom_category_id (λ k, k ∈ cat_id <$> categories db)).
    rewrite move_all_categories. by apply Forall_fmap.
  - by apply Forall_filter_keep.
  - apply Forall_forall. intros i Hi.
    apply list_elem_of_filter in Hi as [Hne Hi].
    rewrite Forall_forall in Hio. pose proof (Hio i Hi) as Href.
    apply list_elem_of_fmap in Href as (o' & Hoid & Ho').
    rewrite Hoid. apply list_elem_of_fmap_2. apply list_elem_of_filter.
    split; [congruence|done].
  - rewrite move_all_ids. by apply Forall_filter_keep.
Qed.

(** *** [update_order] *)

Lemma update_order_run (id : Z) (u : OrderUpdate) (db : Database) :
  update_order id u db
  = match head (filter (λ o, order_id o = id) (orders db)) with
    | None => (HTTPException 404 "Заказ не найден", db)
    | Some o =>
        if decide (nothing_given u) then
          (HTTPException 400 "Нет данных для обновления", db)
        else
          (internal_server_error, set_orders (fmap (updated id u)) db)
    end.
Proof.
  unfold update_order, handler, update_order_body.
  unfold bind at 1. unfold query at 1.
  destruct (head (filter _ (orders db))) as [o|] eqn:Ho;
    [|unfold raise; by rewrite rollback_same].
  unfold nothing_given. case_decide; [unfold raise; by rewrite rollback_same|].
  unfold update_returning. simpl.
  assert (head (filter (λ o0, order_id o0 = id)
                  ((λ o0, if decide (order_id o0 = id) then set_fields u o0 else o0)
                     <$> orders db)) = Some (set_fields u o)) as ->;
    [|by destruct (filter _ (clients db))].
  clear -Ho. induction (orders db) as [|o' l IH]; [done|].
  rewrite filter_cons in Ho. rewrite fmap_cons, filter_cons.
  destruct (decide (order_id o' = id)) as [Heq|Hne].
  - simpl in Ho. injection Ho as ->. by rewrite decide_True.
  - rewrite decide_False by done. by apply IH.
Qed.

Lemma updated_id (id : Z) (u : OrderUpdate) (o : Order) :
  order_id (updated id u o) = order_id o.
Proof. unfold updated. by case_decide. Qed.

Lemma updated_client (id : Z) (u : OrderUpdate) (o : Order) :
  order_client_id (updated id u o) = order_client_id o.
Proof. unfold updated. by case_decide. Qed.

Lemma update_order_tables (id : Z) (u : OrderUpdate) (db : Database) :
  (update_order id u db).2 = db
  ∨ (update_order id u db).2 = set_orders (fmap (updated id u)) db.
Proof.
  rewrite update_order_run. destruct (head _) as [o|]; [|by left].
  case_decide; [by left|]. by right.
Qed.

Lemma update_order_keeps (id : Z) (u : OrderUpdate) (db : Database) :
  constraints db → constraints (update_order id u db).2.
Proof.
  intros Hok. destruct (update_order_tables id u db) as [->| ->]; [done|].
  destruct Hok as [(Hcat & Hnom & Hcl & Hord & Hitems)
                     (Hpar & Hnc & Hoc & Hio & Hin)].
  assert (order_id <$> (updated id u <$> orders db) = order_id <$> orders db)
    as Hids.
  { rewrite <- list_fmap_compose. apply list_fmap_ext. intros _ o _.
    apply updated_id. }
  split; [split_and!|split_and!]; simpl; try done.
  - by rewrite Hids.
  - apply Forall_fmap, Forall_forall. intros o Ho. simpl.
    rewrite updated_client. rewrite Forall_forall in Hoc. by apply Hoc.
  - by rewrite Hids.
Qed.

(** X7. The handlers of [orders.py] that write keep the constraints of
    the schema by their own checks: when the primary keys, the unique
    constraint of [order_items] and the foreign keys hold before
    [create_order], [update_order] or [delete_order], they hold after
    it, whatever the answer. *)
Theorem order_handlers_keep_the_constraints (db : Database) :
  constraints db →
  (∀ order, constraints (create_order order db).2)
  ∧ (∀ id u, constraints (update_order id u db).2)
  ∧ (∀ id, constraints (delete_order id db).2).
Proof.
  intros Hok. split_and!.
  - intros order. by apply create_order_keeps.
  - intros id u. by apply update_order_keeps.
  - intros id. by apply delete_order_keeps.
Qed.

Lemma order_handlers_keep_the_constraints_witness :
  let db := Fixtures.sample_db in
  let db1 := (create_order Fixtures.pending_order db).2 in
  constraints db
  ∧ constraints db1
  ∧ constraints (update_order 1 (only_status COMPLETED) db1).2
  ∧ constraints (delete_order 1 db1).2.
Proof.
  intros db db1.
  assert (constraints db) as Hok by (by apply (bool_decide_unpack _)).
  destruct (order_handlers_keep_the_constraints db Hok) as (Hcreate & _ & _).
  pose proof (Hcreate Fixtures.pending_order) as Hok1.
  destruct (order_handlers_keep_the_constraints db1 Hok1)
    as (_ & Hupdate & Hdelete).
  split; [exact Hok|]. split; [exact Hok1|].
  split; [apply Hupdate | apply Hdelete].
Defined.

End IntegrityFacts.

(** ** Deleting and changing an order *)

Module OrderLifeFacts.
Import Orders Integrity OrderRules OrderUpdates OrdersFacts OrderRulesFacts
  IntegrityFacts.

Lemma head_filter_present (id : Z) (db : Database) :
  head (filter (λ o, order_id o = id) (orders db)) = None ↔ ¬ order_present id db.
Proof.
  rewrite head_filter_None. unfold order_present. split.
  - intros Hno (o & Ho & Hid). by apply (Hno o).
  - intros Hno o Ho Hid. apply Hno. eauto.
Qed.

Lemma head_filter_order (id : Z) (db : Database) (o : Order) :
  NoDup (order_id <$> orders db) → o ∈ orders db → order_id o = id →
  head (filter (λ o', order_id o' = id) (orders db)) = Some o.
Proof.
  intros Hpk Ho <-. by rewrite (AnalyticsFacts.filter_unique order_id _ o).
Qed.

Lemma filter_ne_absent (id : Z) (db : Database) :
  ¬ order_present id
      {| categories := categories db; nomenclature := nomenclature db;
         clients := clients db;
         orders := filter (λ o, order_id o ≠ id) (orders db);
         order_items := filter (λ i, item_order_id i ≠ id) (order_items db);
         orders_id_seq := orders_id_seq db |}.
Proof.
  intros (o & Ho & Hid). simpl in Ho.
  by apply list_elem_of_filter in Ho as [Hne _].
Qed.

Lemma delete_order_found (id : Z) (db : Database) (o : Order) :
  NoDup (order_id <$> orders db) → o ∈ orders db → order_id o = id →
  delete_order id db
  = if decide (frozen (order_status o)) then
      (HTTPException 400
         "Нельзя удалить заказ в статусе 'completed' или 'processing'", db)
    else
      (Ok "Заказ удален",
       {| categories := categories db;
          nomenclature := move_all (returned (items_of id db)) (nomenclature db);
          clients := clients db;
          orders := filter (λ o, order_id o ≠ id) (orders db);
          order_items := filter (λ i, item_order_id i ≠ id) (order_items db);
          orders_id_seq := orders_id_seq db |}).
Proof.
  intros Hpk Ho Hid. rewrite delete_order_run.
  rewrite (head_filter_order id db o) by done.
  case_decide; [by rewrite rollback_same | done].
Qed.

Lemma delete_order_absent (id : Z) (db : Database) :
  ¬ order_present id db →
  delete_order id db = (HTTPException 404 "Заказ не найден", db).
Proof.
  intros Habsent. rewrite delete_order_run.
  apply head_filter_present in Habsent. rewrite Habsent.
  by rewrite rollback_same.
Qed.

Lemma update_order_found (id : Z) (u : OrderUpdate) (db : Database) (o : Order) :
  NoDup (order_id <$> orders db) →
  o ∈ orders db → order_id o = id → ¬ nothing_given u →
  update_order id u db
  = (internal_server_error, set_orders (fmap (updated id u)) db).
Proof.
  intros Hpk Ho Hid Hsome. rewrite update_order_run.
  rewrite (head_filter_order id db o) by done.
  by rewrite decide_False.
Qed.

(** X8. With order ids that are a primary key, [delete_order] answers
    404 for an id that no order has and 400 for an order that is
    completed or in processing, and changes nothing in either case.  A
    [delete_order] that succeeds has deleted an order that was neither,
    together with its items, and these rows only; a second
    [delete_order] of the same id is then answered with 404. *)
Theorem delete_order_guard (id : Z) (db : Database) :
  NoDup (order_id <$> orders db) →
  (¬ order_present id db →
     delete_order id db = (HTTPException 404 "Заказ не найден", db))
  ∧ (∀ o, o ∈ orders db → order_id o = id → frozen (order_status o) →
       delete_order id db
       = (HTTPException 400
            "Нельзя удалить заказ в статусе 'completed' или 'processing'", db))
  ∧ (∀ msg db', delete_order id db = (Ok msg, db') →
       (∃ o, o ∈ orders db ∧ order_id o = id ∧ ¬ frozen (order_status o))
       ∧ orders db' = filter (λ o', order_id o' ≠ id) (orders db)
       ∧ order_items db'
         = filter (λ i, item_order_id i ≠ id) (order_items db)
       ∧ clients db' = clients db ∧ categories db' = categories db
       ∧ delete_order id db'
         = (HTTPException 404 "Заказ не найден", db')).
Proof.
  intros Hpk. split_and!.
  - apply delete_order_absent.
  - intros o Ho Hid Hfrozen. rewrite (delete_order_found id db o) by done.
    by rewrite decide_True.
  - intros msg db' Hrun.
    destruct (head (filter (λ o, order_id o = id) (orders db))) as [o|] eqn:Hhead.
    2:{ apply head_filter_present in Hhead.
        by rewrite delete_order_absent in Hrun. }
    apply head_filter_elem in Hhead as [Ho Hid].
    rewrite (delete_order_found id db o) in Hrun by done.
    case_decide as Hfrozen; [done|]. injection Hrun as _ <-. simpl.
    split_and!; try done; [by exists o|].
    apply delete_order_absent.
    match goal with
    | |- context [move_all ?ds ?ns] => generalize (move_all ds ns)
    end.
    intros noms (o' & Ho' & Hid'). simpl in Ho'.
    by apply list_elem_of_filter in Ho' as [Hne _].
Qed.

Lemma sample_orders_pk :
  NoDup (order_id <$> orders (create_order Fixtures.pending_order
                                Fixtures.sample_db).2).
Proof. by apply (bool_decide_unpack _). Qed.

Lemma delete_order_guard_witness :
  let db := (create_order Fixtures.pending_order Fixtures.sample_db).2 in
  NoDup (order_id <$> orders db)
  ∧ delete_order 7 db = (HTTPException 404 "Заказ не найден", db)
  ∧ ∃ db', delete_order 1 db = (Ok "Заказ удален", db') ∧ orders db' = []
           ∧ delete_order 1 db' = (HTTPException 404 "Заказ не найден", db').
Proof.
  intros db.
  destruct (delete_order_guard 7 db sample_orders_pk) as (H404 & _ & _).
  destruct (delete_order_guard 1 db sample_orders_pk) as (_ & _ & Hok).
  split; [exact sample_orders_pk|]. split.
  - apply H404. intros (o & Ho & Hid).
    apply list_elem_of_singleton in Ho. by subst o.
  - eexists. split; [reflexivity|].
    destruct (Hok _ _ eq_refl) as (_ & Horders & _ & _ & _ & Hagain).
    split; [by rewrite Horders | exact Hagain].
Defined.

(** X9. [delete_order] gives back to every nomenclature row what the
    items of the deleted order hold of it, and changes no other column
    and no other row of the stock.  Under the unique constraint of
    [order_items] an item of the order holds its own quantity of the row
    it names; of a row that no item of the order names nothing is held. *)
Theorem delete_order_returns_what_is_held (id : Z) (db db' : Database)
    (msg : string) :
  delete_order id db = (Ok msg, db') →
  nomenclature db'
  = (λ n, {| nom_id := nom_id n;
             nom_quantity := (nom_quantity n + held id (nom_id n) db)%Z;
             nom_price := nom_price n;
             nom_category_id := nom_category_id n;
             nom_is_active := nom_is_active n |}) <$> nomenclature db
  ∧ (NoDup (item_key <$> order_items db) →
     ∀ item, item ∈ items_of id db →
             held id (item_nomenclature_id item) db = item_quantity item)
  ∧ (∀ nid, nid ∉ item_nomenclature_id <$> items_of id db →
            held id nid db = 0%Z).
Proof.
  rewrite delete_order_run. intros Hrun. split_and!.
  - destruct (head _) as [o|]; [|done]. case_decide; [done|].
    injection Hrun as _ <-. simpl. rewrite move_all_rows.
    apply list_fmap_ext. intros _ n _. unfold add_quantity, held.
    by rewrite decide_True.
  - intros Huniq item Hitem. unfold held. apply moved_unique.
    + unfold returned. rewrite <- list_fmap_compose. simpl.
      unfold items_of.
      assert (NoDup (item_key <$> filter (λ i, item_order_id i = id)
                                    (order_items db))) as Hnd
        by (by apply StatsFacts.NoDup_fmap_filter).
      apply (NoDup_fmap_2_strong _); [|by apply NoDup_fmap_1 in Hnd].
      intros x y Hx Hy Heq.
      apply (TreeFacts.NoDup_fmap_eq item_key
               (filter (λ i, item_order_id i = id) (order_items db)));
        [done..|].
      apply list_elem_of_filter in Hx as [Hx _].
      apply list_elem_of_filter in Hy as [Hy _].
      unfold item_key. simpl in Heq. congruence.
    + unfold returned.
      by apply (list_elem_of_fmap_2
                  (λ item, (item_nomenclature_id item, item_quantity item))).
  - intros nid Hnot. unfold held. apply moved_absent.
    unfold returned. by rewrite <- list_fmap_compose.
Qed.

Lemma delete_order_returns_what_is_held_witness :
  let db := (create_order Fixtures.pending_order Fixtures.sample_db).2 in
  ∃ db', delete_order 1 db = (Ok "Заказ удален", db')
         ∧ nom_quantity <$> nomenclature db = [4; 3; 2]%Z
         ∧ nom_quantity <$> nomenclature db' = [5; 3; 2]%Z.
Proof.
  intros db. eexists. split; [reflexivity|].
  destruct (delete_order_returns_what_is_held 1 db _ _ eq_refl) as (-> & _).
  split; reflexivity.
Defined.

(** X10. With order ids that are a primary key, [update_order] answers
    404 for an id that no order has and 400 when none of status, payment
    status and notes is given, and changes nothing in either case.
    Otherwise it commits the update: that one order has the status and
    the payment status that are given, and its old ones where none is
    given; its id and client, every other order, the items and the stock
    stay as they were, whatever the new status is.  The answer is then
    500, for the answer that the handler builds after the commit does
    not pass its schema class; no call is answered with the row. *)
Theorem update_order_cases (id : Z) (u : OrderUpdate) (db : Database) :
  NoDup (order_id <$> orders db) →
  (¬ order_present id db →
     update_order id u db = (HTTPException 404 "Заказ не найден", db))
  ∧ (order_present id db → nothing_given u →
     update_order id u db = (HTTPException 400 "Нет данных для обновления", db))
  ∧ (∀ j o, orders db !! j = Some o → order_id o = id → ¬ nothing_given u →
       ∃ o' db',
         update_order id u db = (HTTPException 500 "Internal Server Error", db')
         ∧ orders db' !! j = Some o'
         ∧ order_id o' = id ∧ order_client_id o' = order_client_id o
         ∧ order_status o' = default (order_status o) (update_status u)
         ∧ order_payment_status o'
           = default (order_payment_status o) (update_payment_status u)
         ∧ length (orders db') = length (orders db)
         ∧ (∀ k o1, orders db !! k = Some o1 → order_id o1 ≠ id →
                    orders db' !! k = Some o1)
         ∧ nomenclature db' = nomenclature db
         ∧ order_items db' = order_items db
         ∧ clients db' = clients db ∧ categories db' = categories db)
  ∧ (∀ o, (update_order id u db).1 ≠ Ok o).
Proof.
  intros Hpk. split_and!.
  - intros Habsent. rewrite update_order_run.
    apply head_filter_present in Habsent. by rewrite Habsent.
  - intros (o & Ho & Hid) Hnone. rewrite update_order_run.
    rewrite (head_filter_order id db o) by done. by rewrite decide_True.
  - intros j o Hj Hid Hsome.
    rewrite (update_order_found id u db o);
      [|done|by eapply list_elem_of_lookup_2|done..].
    exists (set_fields u o). eexists. split; [done|]. simpl.
    split_and!; try done.
    + rewrite list_lookup_fmap, Hj. simpl. unfold updated.
      by rewrite decide_True.
    + by rewrite length_fmap.
    + intros k o1 Hk Hne. rewrite list_lookup_fmap, Hk. simpl.
      unfold updated. by rewrite decide_False.
  - intros o. rewrite update_order_run.
    destruct (head _); [|done]. by case_decide.
Qed.

Lemma update_order_cases_witness :
  let db := (create_order Fixtures.pending_order Fixtures.sample_db).2 in
  NoDup (order_id <$> orders db)
  ∧ ∃ db', update_order 1 (only_status CANCELLED) db
           = (HTTPException 500 "Internal Server Error", db')
           ∧ order_status <$> orders db = [PENDING]
           ∧ order_status <$> orders db' = [CANCELLED]
           ∧ nomenclature db' = nomenclature db.
Proof.
  intros db. split; [exact sample_orders_pk|].
  destruct (update_order_cases 1 (only_status CANCELLED) db sample_orders_pk)
    as (_ & _ & Hok & _).
  destruct (Hok 0 {| order_id := 1; order_client_id := 1;
                     order_status := PENDING;
                     order_payment_status := UNPAID |})
    as (o' & db' & Hrun & _ & _ & _ & _ & _ & _ & _ & Hstock & _).
  - done.
  - done.
  - by intros [[=] _].
  - exists db'. split; [exact Hrun|].
    split; [reflexivity|]. split; [|exact Hstock].
    vm_compute in Hrun. by injection Hrun as <-.
Defined.

(** X11. [delete_order] decides by the status that [update_order] wrote
    last.  With order ids that are a primary key, an order whose status
    [update_order] has set carries that status, and [delete_order]
    refuses it with 400 exactly when the new status is completed or
    processing, whatever its status was before. *)
Theorem delete_order_reads_the_updated_status (id : Z) (s : OrderStatus)
    (db : Database) :
  NoDup (order_id <$> orders db) → order_present id db →
  (∀ o, o ∈ orders (update_order id (only_status s) db).2 → order_id o = id →
        order_status o = s)
  ∧ (delete_order id (update_order id (only_status s) db).2
     = (HTTPException 400
          "Нельзя удалить заказ в статусе 'completed' или 'processing'",
        (update_order id (only_status s) db).2)
     ↔ frozen s).
Proof.
  intros Hpk (o & Ho & Hid).
  set (u := only_status s).
  assert (¬ nothing_given u) as Hgiven by (by intros [[=] _]).
  rewrite (update_order_found id u db o) by done. simpl.
  set (db1 := set_orders (fmap (updated id u)) db).
  assert (NoDup (order_id <$> orders db1)) as Hpk1.
  { simpl. rewrite <- list_fmap_compose.
    erewrite list_fmap_ext; [exact Hpk|]. intros _ o' _. apply updated_id. }
  assert (set_fields u o ∈ orders db1) as Ho1.
  { simpl. replace (set_fields u o) with (updated id u o)
      by (unfold updated; by rewrite decide_True).
    by apply list_elem_of_fmap_2. }
  split.
  - intros o1 Ho1' Hid1.
    apply list_elem_of_fmap in Ho1' as (o0 & -> & Ho0).
    rewrite updated_id in Hid1. unfold updated. by rewrite decide_True.
  - fold db1. rewrite (delete_order_found id db1 (set_fields u o)) by done.
    simpl. case_decide as Hfrozen; [done|]. split; [done|].
    intros Hs. by destruct Hfrozen.
Qed.

Lemma delete_order_reads_the_updated_status_witness :
  let db := (create_order Fixtures.pending_order Fixtures.sample_db).2 in
  let db1 := (update_order 1 (only_status COMPLETED) db).2 in
  NoDup (order_id <$> orders db)
  ∧ order_present 1 db
  ∧ order_status <$> orders db = [PENDING]
  ∧ delete_order 1 db1
    = (HTTPException 400
         "Нельзя удалить заказ в статусе 'completed' или 'processing'", db1).
Proof.
  intros db db1.
  assert (order_present 1 db) as Hpresent.
  { eexists. split; [apply list_elem_of_here | done]. }
  split; [exact sample_orders_pk|]. split; [exact Hpresent|].
  split; [reflexivity|].
  destruct (delete_order_reads_the_updated_status 1 COMPLETED db
              sample_orders_pk Hpresent) as (_ & Hiff).
  apply Hiff. by apply (bool_decide_unpack _).
Defined.

End OrderLifeFacts.

(** ** Deleting categories, clients and nomenclature *)

Module DeletionFacts.
Import Orders Integrity OrderRules OrdersFacts OrderRulesFacts IntegrityFacts.
Import Categories NomenclatureApi ClientsApi.

Lemma filter_length_zero {A} (P : A → Prop) `{∀ x, Decision (P x)} (l : list A) :
  ¬ 0 < length (filter P l) → ∀ x, x ∈ l → ¬ P x.
Proof.
  intros Hzero x Hx HP. apply Hzero. apply filter_length_pos. eauto.
Qed.

Lemma elem_of_fmap_filter_ne {A} (f : A → Z) (l : list A) (k id : Z) :
  k ∈ f <$> l → k ≠ id → k ∈ f <$> filter (λ x, f x ≠ id) l.
Proof.
  intros (x & -> & Hx)%list_elem_of_fmap Hne.
  apply list_elem_of_fmap_2. by apply list_elem_of_filter.
Qed.

Lemma delete_category_keeps (id : Z) (db : Database) :
  constraints db → constraints (delete_category id db).2.
Proof.
  intros Hok. unfold delete_category.
  destruct (filter _ (categories db)) as [|c0 cs]; [done|].
  case_decide as Hchild; [done|]. case_decide as Hprod; [done|]. simpl.
  pose proof (filter_length_zero _ _ Hchild) as Hnochild.
  pose proof (filter_length_zero _ _ Hprod) as Hnoprod.
  destruct Hok as [(Hcat & Hnom & Hcl & Hord & Hitems)
                     (Hpar & Hnc & Hoc & Hio & Hin)].
  split; [split_and!|split_and!]; simpl; try done.
  - by apply StatsFacts.NoDup_fmap_filter.
  - apply Forall_forall. intros p Hp.
    apply list_elem_of_omap in Hp as (c & Hc & Hp).
    apply list_elem_of_filter in Hc as [_ Hc].
    rewrite Forall_forall in Hpar.
    apply elem_of_fmap_filter_ne.
    + apply Hpar. apply list_elem_of_omap. by exists c.
    + intros ->. by apply (Hnochild c).
  - apply Forall_forall. intros n Hn. rewrite Forall_forall in Hnc.
    apply elem_of_fmap_filter_ne; [by apply Hnc|].
    intros Heq. by apply (Hnoprod n).
Qed.

Lemma delete_client_keeps (id : Z) (db : Database) :
  constraints db → constraints (delete_client id db).2.
Proof.
  intros Hok. unfold delete_client.
  destruct (filter _ (clients db)) as [|c0 cs]; [done|].
  case_decide as Horders; [done|]. simpl.
  pose proof (filter_length_zero _ _ Horders) as Hnone.
  destruct Hok as [(Hcat & Hnom & Hcl & Hord & Hitems)
                     (Hpar & Hnc & Hoc & Hio & Hin)].
  split; [split_and!|split_and!]; simpl; try done.
  - by apply StatsFacts.NoDup_fmap_filter.
  - apply Forall_forall. intros o Ho. rewrite Forall_forall in Hoc.
    apply elem_of_fmap_filter_ne; [by apply Hoc|].
    intros Heq. by apply (Hnone o).
Qed.

Lemma delete_nomenclature_keeps (id : Z) (db : Database) :
  constraints db → constraints (delete_nomenclature id db).2.
Proof.
  intros Hok. unfold delete_nomenclature.
  destruct (filter _ (nomenclature db)) as [|n0 ns]; [done|].
  case_decide as Hitems0; [done|]. simpl.
  pose proof (filter_length_zero _ _ Hitems0) as Hnone.
  destruct Hok as [(Hcat & Hnom & Hcl & Hord & Hitems)
                     (Hpar & Hnc & Hoc & Hio & Hin)].
  split; [split_and!|split_and!]; simpl; try done.
  - by apply StatsFacts.NoDup_fmap_filter.
  - by apply Forall_filter_keep.
  - apply Forall_forall. intros i Hi. rewrite Forall_forall in Hin.
    apply elem_of_fmap_filter_ne; [by apply Hin|].
    intros Heq. by apply (Hnone i).
Qed.

(** X12. The handlers that delete a category, a client or a
    nomenclature row keep the constraints of the schema by their own
    checks: when the primary keys, the unique constraint and the foreign
    keys hold before the call, they hold after it, so that the row they
    delete is one that no other row refers to. *)
Theorem deletions_keep_the_constraints (db : Database) :
  constraints db →
  (∀ id, constraints (delete_category id db).2)
  ∧ (∀ id, constraints (delete_client id db).2)
  ∧ (∀ id, constraints (delete_nomenclature id db).2).
Proof.
  intros Hok. split_and!; intros id.
  - by apply delete_category_keeps.
  - by apply delete_client_keeps.
  - by apply delete_nomenclature_keeps.
Qed.

Lemma deletions_keep_the_constraints_witness :
  constraints Fixtures.sample_db
  ∧ constraints (delete_category 5 Fixtures.sample_db).2
  ∧ constraints (delete_client 2 Fixtures.sample_db).2
  ∧ (delete_client 2 Fixtures.sample_db).1 = Ok "Клиент удален"
  ∧ constraints (delete_nomenclature 3 Fixtures.sample_db).2
  ∧ (delete_nomenclature 3 Fixtures.sample_db).1 = Ok "Товар удален".
Proof.
  assert (constraints Fixtures.sample_db) as Hok
    by (by apply (bool_decide_unpack _)).
  destruct (deletions_keep_the_constraints Fixtures.sample_db Hok)
    as (Hcat & Hclient & Hnom).
  split; [exact Hok|]. split; [apply Hcat|]. split; [apply Hclient|].
  split; [reflexivity|]. split; [apply Hnom | reflexivity].
Defined.

(** X13. A committed order protects what it refers to: in the state that
    [create_order] leaves behind, [delete_client] refuses to delete the
    client of the order and [delete_nomenclature] refuses to delete a
    nomenclature row that one of its items names, both with 400 and
    without a change. *)
Theorem committed_order_protects_its_references (order : OrderCreate)
    (db db1 : Database) (resp : OrderResponse) :
  create_order order db = (Ok resp, db1) →
  delete_client (create_client_id order) db1
  = (HTTPException 400 "Нельзя удалить клиента с заказами", db1)
  ∧ ∀ item, item ∈ create_items order →
            delete_nomenclature (nomenclature_id item) db1
            = (HTTPException 400
                 "Нельзя удалить товар, который есть в заказах", db1).
Proof.
  intros Hrun.
  destruct (create_order_checked _ _ _ _ Hrun)
    as (_ & (c & Hc & Hcid & _) & Hstock & _).
  destruct (create_order_Ok _ _ _ _ Hrun) as (_ & _ & _ & ->).
  split.
  - unfold delete_client. simpl.
    destruct (filter _ (clients db)) as [|c0 cs] eqn:Hfilter.
    { rewrite filter_nil_iff in Hfilter. by destruct (Hfilter c Hc). }
    rewrite decide_True; [done|].
    apply filter_length_pos. exists (new_order order db).
    split; [|done]. apply elem_of_app. right. left.
  - intros item Hitem. unfold delete_nomenclature. simpl.
    rewrite Forall_forall in Hstock.
    destruct (Hstock item Hitem) as (n & Hn & Hid & _).
    destruct (filter _ (move_all _ _)) as [|n0 ns] eqn:Hfilter.
    { rewrite filter_nil_iff in Hfilter.
      assert (nomenclature_id item
              ∈ nom_id <$> move_all (taken (create_items order)) (nomenclature db))
        as Hin.
      { rewrite move_all_ids, <- Hid. by apply list_elem_of_fmap_2. }
      apply list_elem_of_fmap in Hin as (n' & Hid' & Hn').
      by destruct (Hfilter n' Hn'). }
    rewrite decide_True; [done|].
    apply filter_length_pos.
    eexists. split; [apply elem_of_app; right|].
    + unfold item_rows. by apply list_elem_of_fmap_2.
    + done.
Qed.

Lemma committed_order_protects_its_references_witness :
  let db1 := (create_order Fixtures.pending_order Fixtures.sample_db).2 in
  delete_client 1 db1
  = (HTTPException 400 "Нельзя удалить клиента с заказами", db1)
  ∧ delete_nomenclature 1 db1
    = (HTTPException 400 "Нельзя удалить товар, который есть в заказах", db1).
Proof.
  intros db1.
  destruct (committed_order_protects_its_references Fixtures.pending_order
              Fixtures.sample_db db1 _ eq_refl) as [Hclient Hnom].
  split; [exact Hclient|]. apply (Hnom _ (list_elem_of_here _ _)).
Defined.

End DeletionFacts.

(** ** What the tree query reaches *)

Module LineageFacts.
Import Sql SqlFacts Tree TreeFacts DescendFacts Lineage.

(** *** WITH RECURSIVE, round by round *)

Lemma iter_nil {A} (step : list A → list A) (i : nat) :
  step [] = [] → Nat.iter i step [] = [].
Proof. intros Hnil. induction i as [|i IH]; [done|]. simpl. by rewrite IH. Qed.

Lemma with_recursive_from_round {A} (step : list A → list A) (fuel : nat)
    (working res : list A) (r : A) :
  with_recursive step fuel working = Some res → r ∈ res →
  ∃ i, r ∈ Nat.iter i step working.
Proof.
  revert working res. induction fuel as [|fuel IH]; intros working res Hres Hr;
    [done|].
  apply with_recursive_cons in Hres
    as [[-> ->]|(fuel' & res' & [= <-] & Hres' & ->)];
    [by apply elem_of_nil in Hr|].
  apply elem_of_app in Hr as [Hr|Hr]; [by exists 0|].
  destruct (IH _ _ Hres' Hr) as [i Hi]. exists (S i).
  by rewrite Nat.iter_succ_r.
Qed.

Lemma with_recursive_has_round {A} (step : list A → list A) (fuel : nat)
    (working res : list A) (r : A) (i : nat) :
  step [] = [] →
  with_recursive step fuel working = Some res →
  r ∈ Nat.iter i step working → r ∈ res.
Proof.
  intros Hnil. revert working res i.
  induction fuel as [|fuel IH]; intros working res i Hres Hr; [done|].
  apply with_recursive_cons in Hres
    as [[-> ->]|(fuel' & res' & [= <-] & Hres' & ->)].
  - by rewrite iter_nil in Hr.
  - apply elem_of_app. destruct i as [|i]; [by left|]. right.
    apply (IH _ _ i Hres'). by rewrite <- Nat.iter_succ_r.
Qed.

Lemma with_recursive_NoDup {A} (key : A → Z) (step : list A → list A)
    (start : list A) (fuel i : nat) (res : list A) :
  (∀ j, NoDup (key <$> Nat.iter j step start)) →
  (∀ j k x y, x ∈ Nat.iter j step start → y ∈ Nat.iter k step start →
              key x = key y → j = k) →
  with_recursive step fuel (Nat.iter i step start) = Some res →
  NoDup (key <$> res).
Proof.
  intros Hround Hlevel. revert i res.
  induction fuel as [|fuel IH]; intros i res Hres; [done|].
  apply with_recursive_cons in Hres
    as [[_ ->]|(fuel' & res' & [= <-] & Hres' & ->)]; [constructor|].
  rewrite fmap_app. apply NoDup_app. split_and!.
  - apply Hround.
  - intros k (x & -> & Hx)%list_elem_of_fmap (y & Hk & Hy)%list_elem_of_fmap.
    destruct (with_recursive_from_round _ _ _ _ _ Hres' Hy) as [j Hj].
    change (step (Nat.iter i step start)) with (Nat.iter (S i) step start) in Hj.
    rewrite <- Nat.iter_add in Hj.
    pose proof (Hlevel _ _ _ _ Hx Hj Hk). lia.
  - apply (IH (S i)). exact Hres'.
Qed.

(** *** Joins on a key *)

Lemma filter_key_le1 {A} (f : A → Z) (l : list A) (k : Z) :
  NoDup (f <$> l) → length (filter (λ x, f x = k) l) ≤ 1.
Proof.
  induction l as [|a l IH]; [simpl; lia|].
  rewrite fmap_cons, NoDup_cons. intros [Hnotin Hnd].
  rewrite filter_cons. case_decide as Ha; [|by apply IH].
  replace (filter _ l) with (@nil A); [simpl; lia|].
  symmetry. apply filter_nil_iff. intros x Hx Hfx. apply Hnotin.
  rewrite Ha, <- Hfx. by apply list_elem_of_fmap_2.
Qed.

Lemma inner_join_cons {A B} (on : A → B → bool) (a : A) (l : list A)
    (r : list B) :
  inner_join on (a :: l) r
  = ((λ b, (a, b)) <$> filter (λ b, on a b = true) r) ++ inner_join on l r.
Proof.
  unfold inner_join. rewrite bind_cons. by f_equal.
Qed.

Lemma inner_join_unique {A B} (on : A → B → bool) (ka : A → Z) (l : list A)
    (r : list B) :
  NoDup (ka <$> l) →
  (∀ a, length (filter (λ b, on a b = true) r) ≤ 1) →
  NoDup ((λ p : A * B, ka p.1) <$> inner_join on l r).
Proof.
  intros Hnd Hone. induction l as [|a l IH]; [constructor|].
  rewrite fmap_cons, NoDup_cons in Hnd. destruct Hnd as [Hnotin Hnd].
  rewrite inner_join_cons, fmap_app. apply NoDup_app. split_and!.
  - specialize (Hone a). destruct (filter _ r) as [|b [|b' bs]];
      [constructor | apply NoDup_singleton | simpl in Hone; lia].
  - intros k (p & -> & Hp)%list_elem_of_fmap (q & Hk & Hq)%list_elem_of_fmap.
    apply list_elem_of_fmap in Hp as (b & -> & _). simpl in Hk.
    destruct q as [a' b']. apply elem_of_inner_join in Hq as (Ha' & _).
    apply Hnotin. rewrite Hk. by apply list_elem_of_fmap_2.
  - by apply IH.
Qed.

(** *** The rounds, by ids *)

Section Keys.
Context {R : Type} (id_of : R → Z) (root : Category → R)
  (child : Category → R → R).
Context (Hroot : ∀ c, id_of (root c) = cat_id c)
  (Hchild : ∀ c r, id_of (child c r) = cat_id c).
Context (cats : list Category) (Hnd : NoDup (cat_id <$> cats)).

Lemma recursive_term_empty : recursive_term id_of child cats [] = [].
Proof.
  destruct (recursive_term id_of child cats []) as [|r rs] eqn:E; [done|].
  assert (r ∈ recursive_term id_of child cats []) as Hr by (rewrite E; left).
  apply elem_of_recursive_term in Hr as (c & p & _ & _ & Hp & _).
  by apply elem_of_nil in Hp.
Qed.

Lemma round_ids (i : nat) : NoDup (id_of <$> round id_of root child cats i).
Proof.
  induction i as [|i IH].
  - unfold round. simpl. unfold anchor. rewrite <- list_fmap_compose.
    erewrite list_fmap_ext; [by apply StatsFacts.NoDup_fmap_filter|].
    intros _ c _. apply Hroot.
  - rewrite round_S. unfold recursive_term. rewrite <- list_fmap_compose.
    erewrite list_fmap_ext.
    + apply (StatsFacts.NoDup_fmap_filter (λ p : Category * R, cat_id p.1)).
      apply inner_join_unique; [done|]. intros c.
      destruct (cat_parent_id c) as [p|] eqn:Hp.
      * erewrite list_filter_iff; [by apply (filter_key_le1 id_of _ p)|].
        intros r. simpl. rewrite bool_decide_eq_true. split; congruence.
      * replace (filter _ _) with (@nil R); [simpl; lia|].
        symmetry. apply filter_nil_iff. intros r _.
        by rewrite bool_decide_eq_true.
    + intros _ [c r] _. simpl. apply Hchild.
Qed.

Lemma descend_ids (res : list R) :
  descend id_of root child cats = Some res → NoDup (id_of <$> res).
Proof.
  unfold descend. intros Hres.
  apply (with_recursive_NoDup id_of (recursive_term id_of child cats)
           (anchor root cats) (S (length cats)) 0 res); [| |done].
  - apply round_ids.
  - intros j k x y Hx Hy Heq.
    apply (at_depth_unique cats Hnd j k (id_of x)).
    + by apply (round_at_depth id_of root child).
    + rewrite Heq. by apply (round_at_depth id_of root child).
Qed.

Lemma descend_rounds (res : list R) (r : R) :
  descend id_of root child cats = Some res →
  r ∈ res ↔ ∃ i, r ∈ round id_of root child cats i.
Proof.
  unfold descend. intros Hres. split.
  - intros Hr. by apply (with_recursive_from_round _ _ _ _ _ Hres).
  - intros [i Hi].
    apply (with_recursive_has_round _ _ _ _ _ i recursive_term_empty Hres Hi).
Qed.

End Keys.

(** *** The rows of [category_tree] *)

Lemma category_tree_descend :
  category_tree = descend row_id root_row child_row.
Proof. done. Qed.

Lemma lineage_row (cats : list Category) (c : Category)
    (ancestors : list Category) :
  row_id (row_for c ancestors) = cat_id c.
Proof. done. Qed.

Lemma round_lineage (cats : list Category) (i : nat) (r : TreeRow) :
  r ∈ round row_id root_row child_row cats i ↔
  ∃ c ancestors, length ancestors = i ∧ lineage cats c ancestors
                 ∧ r = row_for c ancestors.
Proof.
  revert r. induction i as [|i IH]; intros r.
  - unfold round. simpl. rewrite elem_of_anchor. split.
    + intros (c & -> & Hc & Hp & Ha). by exists c, [].
    + intros (c & anc & Hlen & Hlin & ->).
      destruct anc; [|done]. destruct Hlin as (Hc & Ha & Hp). by exists c.
  - rewrite round_S, elem_of_recursive_term. split.
    + intros (c & p & -> & Hc & Hp & Hparent & Ha).
      apply IH in Hp as (cp & anc & Hlen & Hlin & ->).
      exists c, (cp :: anc). split_and!; [by rewrite <- Hlen | done |].
      unfold child_row, row_for. simpl. f_equal. lia.
    + intros (c & anc & Hlen & Hlin & ->).
      destruct anc as [|cp anc]; [done|]. destruct Hlin as (Hc & Ha & Hp & Hlin).
      injection Hlen as Hlen.
      exists c, (row_for cp anc). split_and!; try done.
      * unfold child_row, row_for. simpl. f_equal. lia.
      * apply IH. by exists cp, anc.
Qed.

Lemma category_tree_rows (cats : list Category) (rows : list TreeRow) :
  NoDup (cat_id <$> cats) → category_tree cats = Some rows →
  NoDup (row_id <$> rows)
  ∧ ∀ r, r ∈ rows ↔ ∃ c ancestors, lineage cats c ancestors
                                   ∧ r = row_for c ancestors.
Proof.
  intros Hnd Hrows. rewrite category_tree_descend in Hrows. split.
  - by apply (descend_ids row_id root_row child_row) in Hrows.
  - intros r. rewrite (descend_rounds row_id root_row child_row cats rows r Hrows).
    split.
    + intros (i & (c & anc & _ & Hlin & ->)%round_lineage). by exists c, anc.
    + intros (c & anc & Hlin & ->). exists (length anc).
      apply round_lineage. by exists c, anc.
Qed.

Lemma tree_query_accepted (collate : relation string)
    `{∀ x y, Decision (collate x y)} (name_type : TextType)
    (cats : list Category) (result : list TreeRow) :
  full_path_accepted name_type → category_tree cats = Some result →
  tree_query collate name_type cats
  = Some (Rows (order_by (nulls_last collate)
                  (λ r, info_path (row_info r)) result)).
Proof.
  intros Hty Hresult. unfold tree_query.
  rewrite decide_True by done. by rewrite Hresult.
Qed.

Lemma get_category_tree_accepted (collate : relation string)
    `{∀ x y, Decision (collate x y)} (name_type : TextType)
    (cats : list Category) (result : list TreeRow) :
  full_path_accepted name_type → category_tree cats = Some result →
  get_category_tree collate name_type cats
  = Rows <$> build_tree (order_by (nulls_last collate)
                           (λ r, info_path (row_info r)) result).
Proof.
  intros Hty Hresult. unfold get_category_tree.
  by rewrite (tree_query_accepted _ _ _ result).
Qed.

(** X14. When the database accepts the statement, the column [name]
    being of type [text] or [character varying] without a length, and
    with category ids that are a primary key, the recursive query of
    [get_category_tree] comes to an end and returns one row for each
    active category whose ancestors are all active and lead up to a
    category without parent, and no other row.  The row carries the
    columns of the category, as [depth] the number of its ancestors and
    as [full_path] the names from the topmost ancestor down to it,
    joined by [" -> "].  No id stands in two rows. *)
Theorem category_tree_reaches_active_lineages (collate : relation string)
    `{∀ x y, Decision (collate x y)} (name_type : TextType)
    (cats : list Category) :
  full_path_accepted name_type → NoDup (cat_id <$> cats) →
  ∃ rows, tree_query collate name_type cats = Some (Rows rows)
          ∧ NoDup (row_id <$> rows)
          ∧ ∀ r, r ∈ rows ↔ ∃ c ancestors, lineage cats c ancestors
                                           ∧ r = row_for c ancestors.
Proof.
  intros Hty Hnd. destruct (OrderFacts.category_tree_terminates cats Hnd)
    as [result Hresult].
  destruct (category_tree_rows cats result Hnd Hresult) as [Hids Hrows].
  eexists. split; [by apply tree_query_accepted|]. split.
  - by rewrite order_by_Permutation.
  - intros r. by rewrite order_by_Permutation.
Qed.

Lemma category_tree_reaches_active_lineages_witness :
  full_path_accepted TEXT
  ∧ NoDup (cat_id <$> Fixtures.sample_categories)
  ∧ ∃ rows, tree_query bytewise TEXT Fixtures.sample_categories
            = Some (Rows rows)
            ∧ NoDup (row_id <$> rows)
            ∧ row_full_path <$> rows
              = ["Бытовая техника"; "Компьютеры";
                 "Компьютеры -> Ноутбуки";
                 "Бытовая техника -> Стиральные машины";
                 "Бытовая техника -> Холодильники"].
Proof.
  assert (full_path_accepted TEXT) as Hty by reflexivity.
  assert (NoDup (cat_id <$> Fixtures.sample_categories)) as Hnd
    by (by apply (bool_decide_unpack _)).
  split; [exact Hty|]. split; [exact Hnd|].
  destruct (category_tree_reaches_active_lineages bytewise TEXT
              Fixtures.sample_categories Hty Hnd) as (rows & Hrows & Hids & _).
  exists rows. split; [exact Hrows|]. split; [exact Hids|].
  vm_compute in Hrows. injection Hrows as <-. reflexivity.
Defined.

(** *** The answer of [get_category_tree] *)

Lemma sorted_rows_ids (collate : relation string)
    `{∀ x y, Decision (collate x y)} (rows : list TreeRow) :
  NoDup (row_id <$> rows) →
  NoDup (row_id <$> order_by (nulls_last collate)
                      (λ r, info_path (row_info r)) rows).
Proof.
  intros Hnd. by rewrite order_by_Permutation.
Qed.

(** X15. When the database accepts the statement, the column [name]
    being of type [text] or [character varying] without a length, and
    with category ids that are a primary key, [get_category_tree] shows
    nothing but active categories whose ancestors are all active
    and lead up to a category without parent, each at most once; and a
    node is shown only together with its parent.  An inactive category,
    and whatever lies below one, is therefore not in the answer. *)
Theorem tree_shows_only_active_lineages (collate : relation string)
    `{∀ x y, Decision (collate x y)} (name_type : TextType)
    (cats : list Category) :
  full_path_accepted name_type → NoDup (cat_id <$> cats) →
  ∃ f, get_category_tree collate name_type cats = Some (Rows f)
       ∧ NoDup (forest_nodes f)
       ∧ (∀ i, i ∈ forest_nodes f →
               ∃ c ancestors, lineage cats c ancestors ∧ i = info_of c)
       ∧ (∀ i, i ∈ forest_nodes f →
               info_parent_id i = None
               ∨ ∃ p, info_parent_id i = Some p
                      ∧ p ∈ info_id <$> forest_nodes f).
Proof.
  intros Hty Hnd.
  destruct (OrderFacts.category_tree_terminates cats Hnd) as [result Hresult].
  rewrite (get_category_tree_accepted _ _ _ result) by done.
  destruct (category_tree_rows cats result Hnd Hresult) as [Hids Hrows].
  set (rows := order_by _ _ result).
  assert (NoDup (row_id <$> rows)) as Hsorted by (by apply sorted_rows_ids).
  destruct (build_tree_surfaced rows Hsorted) as (f & Hf & Hnodes).
  exists f. split; [by rewrite Hf|].
  pose proof (surfaced_sublist rows) as Hsub.
  split_and!.
  - rewrite Hnodes. eapply sublist_NoDup; [|exact Hsub].
    by apply NoDup_row_infos.
  - intros i Hi. rewrite Hnodes in Hi.
    apply (elem_of_sublist _ _ _ Hi) in Hsub.
    apply list_elem_of_fmap in Hsub as (r & -> & Hr).
    unfold rows in Hr. rewrite order_by_Permutation in Hr.
    apply Hrows in Hr as (c & anc & Hlin & ->). by exists c, anc.
  - intros i Hi. rewrite Hnodes in Hi.
    destruct (surfaced_parent rows i Hi) as [Hnone|(p & Hp & Hin)]; [by left|].
    right. exists p. split; [done|]. by rewrite Hnodes.
Qed.

Lemma tree_shows_only_active_lineages_witness :
  full_path_accepted TEXT
  ∧ NoDup (cat_id <$> Fixtures.sample_categories)
  ∧ ∃ f, get_category_tree bytewise TEXT Fixtures.sample_categories
         = Some (Rows f)
         ∧ NoDup (forest_nodes f) ∧ length (forest_nodes f) = 5.
Proof.
  assert (full_path_accepted TEXT) as Hty by reflexivity.
  assert (NoDup (cat_id <$> Fixtures.sample_categories)) as Hnd
    by (by apply (bool_decide_unpack _)).
  split; [exact Hty|]. split; [exact Hnd|].
  destruct (tree_shows_only_active_lineages bytewise TEXT
              Fixtures.sample_categories Hty Hnd) as (f & Hf & Hnodup & _).
  exists f. split; [exact Hf|]. split; [exact Hnodup|].
  vm_compute in Hf. injection Hf as <-. reflexivity.
Defined.

(** *** Roots *)

Lemma run_roots (rows : list TreeRow) :
  Forall2 (λ l r, rows !! l = Some r) (root_categories (run rows))
    (filter (λ r, row_parent_id r = None) rows).
Proof.
  induction rows as [|row rows IH] using rev_ind; [constructor|].
  rewrite run_snoc, filter_app.
  assert (Forall2 (λ l r, (rows ++ [row]) !! l = Some r)
            (root_categories (run rows))
            (filter (λ r, row_parent_id r = None) rows)) as Hold.
  { eapply Forall2_impl; [exact IH|]. intros l r Hl. simpl.
    by apply lookup_app_l_Some. }
  destruct (row_parent_id row) as [p|] eqn:Hp.
  - destruct (step_Some (run rows) row p Hp) as [-> _].
    rewrite filter_cons, decide_False by congruence.
    rewrite filter_nil, app_nil_r. done.
  - destruct (step_None (run rows) row Hp) as [_ ->].
    rewrite filter_cons, decide_True by done. rewrite filter_nil.
    apply Forall2_app; [done|]. constructor; [|constructor].
    rewrite run_length. by rewrite list_lookup_middle.
Qed.

Lemma Forall2_same_index {A B C} (P : A → B → Prop) (Q : A → C → Prop)
    (g : C → B) (ls : list A) (xs : list B) (ys : list C) :
  (∀ l x y, P l x → Q l y → x = g y) →
  Forall2 P ls xs → Forall2 Q ls ys → xs = g <$> ys.
Proof.
  intros Hpq HP. revert ys.
  induction HP as [|l x ls xs Hl _ IH]; intros ys HQ.
  - by apply Forall2_nil_inv_l in HQ as ->.
  - apply Forall2_cons_inv_l in HQ as (y & ys' & Hy & HQ & ->).
    rewrite fmap_cons. f_equal; [by apply (Hpq l) | by apply IH].
Qed.

Lemma build_tree_roots (rows : list TreeRow) (f : list CategoryTree) :
  build_tree rows = Some f →
  tree_info <$> f = row_info <$> filter (λ r, row_parent_id r = None) rows.
Proof.
  unfold build_tree. intros Hf%mapM_Some_1.
  apply forest_infos in Hf.
  rewrite (linked_infos _ _ (run_linked rows)) in Hf.
  eapply (Forall2_same_index _ _ row_info); [|exact Hf|apply run_roots].
  intros l i r Hi Hr. cbv beta in Hi, Hr.
  rewrite list_lookup_fmap, Hr in Hi. simpl in Hi. congruence.
Qed.

Lemma filter_roots_result (cats : list Category) (result : list TreeRow) :
  NoDup (cat_id <$> cats) → category_tree cats = Some result →
  filter (λ r, row_parent_id r = None) result
  ≡ₚ root_row <$> Analytics.roots cats.
Proof.
  intros Hnd Hresult.
  destruct (category_tree_rows cats result Hnd Hresult) as [Hids Hrows].
  apply NoDup_Permutation.
  - apply NoDup_filter. by apply NoDup_fmap_1 in Hids.
  - apply (NoDup_fmap_1 row_id). rewrite <- list_fmap_compose.
    by apply (StatsFacts.NoDup_fmap_filter cat_id).
  - intros r. rewrite list_elem_of_filter, Hrows, list_elem_of_fmap.
    unfold Analytics.roots. split.
    + intros (Hp & c & anc & Hlin & ->).
      destruct anc as [|cp anc].
      * destruct Hlin as (Hc & Ha & _). exists c. split; [done|].
        by apply list_elem_of_filter.
      * destruct Hlin as (_ & _ & Hparent & _).
        unfold row_parent_id in Hp. simpl in Hp. congruence.
    + intros (c & -> & ([Hp Ha] & Hc)%list_elem_of_filter).
      split; [done|]. by exists c, [].
Qed.

(** X16. When the database accepts the statement, the column [name]
    being of type [text] or [character varying] without a length, and
    with category ids that are a primary key, the roots of the answer of
    [get_category_tree] are the active categories without
    parent: each of them is a root, once, and nothing else is. *)
Theorem tree_roots_are_the_active_roots (collate : relation string)
    `{∀ x y, Decision (collate x y)} (name_type : TextType)
    (cats : list Category) :
  full_path_accepted name_type → NoDup (cat_id <$> cats) →
  ∃ f, get_category_tree collate name_type cats = Some (Rows f)
       ∧ tree_info <$> f ≡ₚ info_of <$> Analytics.roots cats.
Proof.
  intros Hty Hnd.
  destruct (OrderFacts.category_tree_terminates cats Hnd) as [result Hresult].
  rewrite (get_category_tree_accepted _ _ _ result) by done.
  set (rows := order_by _ _ result).
  destruct (build_tree_total rows) as [f Hf]. exists f.
  split; [by rewrite Hf|].
  rewrite (build_tree_roots rows f Hf). unfold rows.
  rewrite order_by_Permutation.
  rewrite (filter_roots_result cats result Hnd Hresult).
  by rewrite <- list_fmap_compose.
Qed.

Lemma tree_roots_are_the_active_roots_witness :
  full_path_accepted TEXT
  ∧ NoDup (cat_id <$> Fixtures.sample_categories)
  ∧ ∃ f, get_category_tree bytewise TEXT Fixtures.sample_categories
         = Some (Rows f)
         ∧ info_id <$> (tree_info <$> f) ≡ₚ [1; 2]%Z.
Proof.
  assert (full_path_accepted TEXT) as Hty by reflexivity.
  assert (NoDup (cat_id <$> Fixtures.sample_categories)) as Hnd
    by (by apply (bool_decide_unpack _)).
  split; [exact Hty|]. split; [exact Hnd|].
  destruct (tree_roots_are_the_active_roots bytewise TEXT
              Fixtures.sample_categories Hty Hnd) as (f & Hf & Hroots).
  exists f. split; [exact Hf|]. by rewrite Hroots.
Defined.

(** *** Children *)

Lemma run_named (rows : list TreeRow) : named (run rows).
Proof.
  induction rows as [|row rows IH] using rev_ind.
  - intros k d Hk. unfold run in Hk. simpl in Hk. by rewrite lookup_nil in Hk.
  - rewrite run_snoc. set (st := run rows) in *.
    pose proof (run_linked rows) as Hlinked. fold st in Hlinked.
    intros k d Hk. rewrite step_lookup in Hk.
    assert (∀ parent, row_parent_id row = Some parent →
              <[row_id row := length (store st)]> (categories_dict st) !! parent
              = Some k →
              (∃ d0, store st !! k = Some d0 ∧ info_id (cd_info d0) = parent)
              ∨ (k = length (store st) ∧ parent = row_id row)) as Htarget.
    { intros parent Hp Hlook.
      destruct (decide (row_id row = parent)) as [<-|Hne].
      - rewrite lookup_insert_eq in Hlook. injection Hlook as <-. by right.
      - rewrite lookup_insert_ne in Hlook by done. left.
        by apply (linked_dict _ _ Hlinked). }
    destruct (store st !! k) as [d0|] eqn:Hd0.
    + injection Hk as <-. simpl. apply Forall_app. split.
      * eapply Forall_impl; [exact (IH k d0 Hd0)|].
        intros c (i & Hi & Hpar). exists i. split; [|done].
        by apply step_info_lookup.
      * case_decide as Ht; [|constructor]. apply Forall_singleton.
        exists (row_info row). split; [apply step_info_new|].
        unfold target in Ht.
        destruct (row_parent_id row) as [parent|] eqn:Hp; [|done].
        simpl in Ht.
        destruct (Htarget parent eq_refl Ht) as [(d1 & Hd1 & Hid)|[Hk _]].
        -- injection Hd1 as <-.
           unfold row_parent_id in Hp. by rewrite Hp, Hid.
        -- apply lookup_lt_Some in Hd0. lia.
    + case_decide as Hnew; [|done]. injection Hk as <-. simpl.
      case_decide as Ht; [|constructor]. apply Forall_singleton.
      exists (row_info row). split; [apply step_info_new|].
      unfold target in Ht.
      destruct (row_parent_id row) as [parent|] eqn:Hp; [|done].
      simpl in Ht.
      destruct (Htarget parent eq_refl Ht) as [(d1 & Hd1 & _)|[_ ->]].
      * congruence.
      * exact Hp.
Qed.

(** X17. In the answer of the loop of [get_category_tree], whatever rows
    it is fed, every node that stands below another node names that node
    as its parent: the [parent_id] of a child is the [id] of the node in
    whose ["children"] it is listed. *)
Theorem tree_children_name_their_parent (rows : list TreeRow) :
  ∃ f, build_tree rows = Some f ∧ children_name_their_parent f.
Proof.
  destruct (build_tree_total rows) as [f Hf]. exists f. split; [done|].
  unfold build_tree in Hf. apply mapM_Some_1 in Hf.
  unfold children_name_their_parent. apply Forall_forall. intros s Hs.
  apply list_elem_of_bind in Hs as (t & Hs & Ht).
  apply list_elem_of_lookup in Ht as [j Hj].
  destruct (Forall2_lookup_r _ _ _ _ _ Hf Hj) as (l & _ & Ht).
  apply subtrees_to_tree in Ht. rewrite Forall_forall in Ht.
  destruct (Ht s Hs) as (fuel' & l' & Hsub).
  apply to_tree_Some in Hsub as (d & cs & Hd & Hcs & ->). simpl.
  pose proof (run_named rows l' d Hd) as Hnamed.
  clear -Hcs Hnamed. induction Hcs as [|c tc ls ts Hc _ IH]; [constructor|].
  apply Forall_cons in Hnamed as [(i & Hi & Hpar) Hnamed].
  constructor; [|by apply IH].
  apply to_tree_info in Hc. congruence.
Qed.

(** *** Paths that put parents first *)

Lemma sorted_rows_parents_first (collate : relation string)
    `{∀ x y, Decision (collate x y)} `{!Total collate} `{!Transitive collate}
    (cats : list Category) (result : list TreeRow) :
  NoDup (cat_id <$> cats) → parents_sort_first collate cats →
  category_tree cats = Some result →
  parents_first (order_by (nulls_last collate)
                   (λ r, info_path (row_info r)) result).
Proof.
  intros Hnd Hpaths Hresult.
  destruct (category_tree_rows cats result Hnd Hresult) as [Hids Hrows].
  set (rows := order_by _ _ result).
  assert (StronglySorted
            (on_key (nulls_last collate) (λ r, info_path (row_info r))) rows)
    as Hsorted by (apply order_by_StronglySorted; apply _).
  assert (∀ r, r ∈ rows ↔ r ∈ result) as Hperm.
  { intros r. unfold rows. by rewrite order_by_Permutation. }
  intros i row parent Hi Hparent.
  assert (row ∈ rows) as Hrow by (by eapply list_elem_of_lookup_2).
  apply Hperm, Hrows in Hrow as (c & anc & Hlin & ->).
  unfold row_parent_id in Hparent. simpl in Hparent.
  destruct anc as [|cp anc];
    [destruct Hlin as (_ & _ & Hnone); congruence|].
  destruct Hlin as (Hc & Ha & Hp & Hlin).
  assert (parent = cat_id cp) as -> by congruence.
  assert (cp ∈ cats) as Hcp by (by destruct anc; destruct Hlin).
  assert (row_for cp anc ∈ rows) as Hin.
  { apply Hperm, Hrows. by exists cp, anc. }
  apply list_elem_of_lookup in Hin as [j Hj].
  destruct (decide (j < i)) as [Hlt|Hge].
  - apply list_elem_of_fmap. exists (row_for cp anc). split; [done|].
    apply list_elem_of_lookup. exists j. by rewrite lookup_take_lt.
  - exfalso. unfold parents_sort_first in Hpaths.
    rewrite Forall_forall in Hpaths. specialize (Hpaths c Hc).
    rewrite Forall_forall in Hpaths. apply (Hpaths cp Hcp Hp).
    destruct (decide (j = i)) as [->|Hne].
    + assert (row_for c (cp :: anc) = row_for cp anc) as Heq by congruence.
      assert (c = cp) as <-.
      { apply (NoDup_fmap_eq cat_id cats); [done..|].
        by apply (f_equal row_id) in Heq. }
      destruct (total (nulls_last collate) (cat_path c) (cat_path c)); done.
    + apply (StronglySorted_lookup _ _ i j _ _ Hsorted Hi Hj). lia.
Qed.

(** X18. When the database accepts the statement, the column [name]
    being of type [text] or [character varying] without a length, and
    [path] puts every category strictly behind its parent, under a
    collation that is a total preorder and with ids that are a primary
    key, the answer of [get_category_tree] is complete: the
    nodes of the forest are the active categories whose ancestors are
    all active and lead up to a category without parent, each of them
    once. *)
Theorem tree_is_complete_when_parents_sort_first (collate : relation string)
    `{∀ x y, Decision (collate x y)} `{!Total collate} `{!Transitive collate}
    (name_type : TextType) (cats : list Category) :
  full_path_accepted name_type →
  NoDup (cat_id <$> cats) → parents_sort_first collate cats →
  ∃ f, get_category_tree collate name_type cats = Some (Rows f)
       ∧ NoDup (forest_nodes f)
       ∧ ∀ i, i ∈ forest_nodes f ↔
              ∃ c ancestors, lineage cats c ancestors ∧ i = info_of c.
Proof.
  intros Hty Hnd Hpaths.
  destruct (OrderFacts.category_tree_terminates cats Hnd) as [result Hresult].
  rewrite (get_category_tree_accepted _ _ _ result) by done.
  destruct (category_tree_rows cats result Hnd Hresult) as [Hids Hrows].
  pose proof (sorted_rows_parents_first collate cats result Hnd Hpaths Hresult)
    as Hfirst.
  set (rows := order_by _ _ result) in *.
  assert (NoDup (row_id <$> rows)) as Hsorted by (by apply sorted_rows_ids).
  destruct (build_tree_surfaced rows Hsorted) as (f & Hf & Hnodes).
  rewrite (surfaced_parents_first rows Hfirst) in Hnodes.
  exists f. split; [by rewrite Hf|]. split.
  - rewrite Hnodes. by apply NoDup_row_infos.
  - intros i. rewrite Hnodes, list_elem_of_fmap. split.
    + intros (r & -> & Hr). unfold rows in Hr.
      rewrite order_by_Permutation in Hr.
      apply Hrows in Hr as (c & anc & Hlin & ->). by exists c, anc.
    + intros (c & anc & Hlin & ->). exists (row_for c anc). split; [done|].
      unfold rows. rewrite order_by_Permutation. apply Hrows. by exists c, anc.
Qed.

Lemma tree_is_complete_when_parents_sort_first_witness :
  full_path_accepted TEXT
  ∧ NoDup (cat_id <$> Fixtures.sample_categories)
  ∧ parents_sort_first bytewise Fixtures.sample_categories
  ∧ ∃ f, get_category_tree bytewise TEXT Fixtures.sample_categories
         = Some (Rows f)
         ∧ NoDup (forest_nodes f)
         ∧ Forall (λ c, info_of c ∈ forest_nodes f) Fixtures.sample_categories.
Proof.
  assert (NoDup (cat_id <$> Fixtures.sample_categories)) as Hnd
    by (by apply (bool_decide_unpack _)).
  assert (parents_sort_first bytewise Fixtures.sample_categories) as Hpaths
    by (by apply (bool_decide_unpack _)).
  assert (full_path_accepted TEXT) as Hty by reflexivity.
  split; [exact Hty|]. split; [exact Hnd|]. split; [exact Hpaths|].
  destruct (tree_is_complete_when_parents_sort_first bytewise TEXT
              Fixtures.sample_categories Hty Hnd Hpaths)
    as (f & Hf & Hnodup & _).
  exists f. split; [exact Hf|]. split; [exact Hnodup|].
  vm_compute in Hf. injection Hf as <-. by apply (bool_decide_unpack _).
Defined.

(** *** The statement under the declared type of [name] *)

(** X30. [get_category_tree] ends with the refusal of the database, for
    every table, exactly when the column [name] is declared with a
    length.  [models.py] declares it [String(255)]: with the tables of
    [models.py] the endpoint never hands back a forest, not even the
    empty one for an empty table. *)
Theorem tree_statement_is_refused_with_a_length (collate : relation string)
    `{∀ x y, Decision (collate x y)} :
  (∀ cats,
     get_category_tree collate category_name_type cats = Some ProgrammingError)
  ∧ (∀ name_type,
       (∀ cats, get_category_tree collate name_type cats = Some ProgrammingError)
       ↔ ∃ n, name_type = VARCHAR (Some n)).
Proof.
  split; [done|]. intros name_type. split.
  - intros Hrefused. specialize (Hrefused []).
    destruct name_type as [[n|]|]; [by exists n|done..].
  - intros [n ->] cats. done.
Qed.

End LineageFacts.

(** ** The statistics of the categories, endpoint by endpoint *)

Module InventoryFacts.
Import Sql SqlFacts Categories Inventory StatsFacts.

(** *** Sorting and mapping *)

Section SortMap.
Context {A B : Type} (f : A → B) (R : relation A) (R' : relation B)
  `{dec : ∀ x y, Decision (R x y)} `{dec' : ∀ x y, Decision (R' x y)}.
Context (Hf : ∀ x y, R x y ↔ R' (f x) (f y)).

Lemma list_merge_fmap (l1 l2 : list A) :
  list_merge R' (f <$> l1) (f <$> l2) = f <$> list_merge R l1 l2.
Proof.
  revert l2. induction l1 as [|x1 l1 IH1]; intros l2; [by destruct l2|].
  induction l2 as [|x2 l2 IH2]; [done|].
  cbn [fmap list_fmap list_merge].
  destruct (decide (R x1 x2)) as [Hr|Hr], (decide (R' (f x1) (f x2))) as [Hr'|Hr'].
  - rewrite fmap_cons. f_equal. apply (IH1 (x2 :: l2)).
  - by apply Hf in Hr.
  - by apply Hf in Hr'.
  - rewrite fmap_cons. f_equal. apply IH2.
Qed.

Local Abbreviation stack_fmap st :=
  ((λ o : option (list A), (λ l : list A, f <$> l) <$> o) <$> st).

Lemma merge_list_to_stack_fmap (st : list (option (list A))) (l : list A) :
  merge_list_to_stack R' (stack_fmap st) (f <$> l)
  = stack_fmap (merge_list_to_stack R st l).
Proof.
  revert l. induction st as [|[l'|] st IH]; intros l; [done| |done].
  rewrite fmap_cons. simpl.
  rewrite list_merge_fmap. f_equal. apply IH.
Qed.

Lemma merge_stack_fmap (st : list (option (list A))) :
  merge_stack R' (stack_fmap st) = f <$> merge_stack R st.
Proof.
  induction st as [|[l|] st IH]; [done| |done].
  rewrite fmap_cons. simpl.
  rewrite IH. apply list_merge_fmap.
Qed.

Lemma merge_sort_aux_fmap (st : list (option (list A))) (l : list A) :
  merge_sort_aux R' (stack_fmap st) (f <$> l) = f <$> merge_sort_aux R st l.
Proof.
  revert st. induction l as [|x l IH]; intros st; [apply merge_stack_fmap|].
  rewrite fmap_cons. simpl. rewrite <- IH. f_equal.
  apply (merge_list_to_stack_fmap st [x]).
Qed.

Lemma merge_sort_fmap (l : list A) :
  merge_sort R' (f <$> l) = f <$> merge_sort R l.
Proof. apply (merge_sort_aux_fmap []). Qed.
End SortMap.

Lemma order_by_fmap {A B K} (R : relation K) `{dec : ∀ x y, Decision (R x y)}
    (f : A → B) (key : B → K) (l : list A) :
  order_by R key (f <$> l) = f <$> order_by R (λ a, key (f a)) l.
Proof. unfold order_by. by apply merge_sort_fmap. Qed.

Lemma stats_endpoints_rows (db : Database) :
  Analytics.get_category_stats db = as_item <$> get_category_stats db.
Proof.
  unfold Analytics.get_category_stats, get_category_stats.
  rewrite !order_by_fmap, <- list_fmap_compose. done.
Qed.

(** X19. The two statistics endpoints agree: [get_category_stats] of
    [analytics.py] answers with the rows that [get_category_stats] of
    [categories.py] answers with, without their [category_id], each as
    often.  In which order rows of equal total value stand is not
    said. *)
Theorem category_stats_endpoints_agree (db : Database) :
  Analytics.get_category_stats db ≡ₚ as_item <$> get_category_stats db.
Proof. by rewrite stats_endpoints_rows. Qed.

(** *** Adding up over the categories *)

Lemma total_cons {A} (f : A → Z) (x : A) (l : list A) :
  total f (x :: l) = (f x + total f l)%Z.
Proof. done. Qed.

Lemma total_Permutation {A} (f : A → Z) (l1 l2 : list A) :
  l1 ≡ₚ l2 → total f l1 = total f l2.
Proof.
  induction 1 as [|x l1 l2 _ IH|x y l|l1 l2 l3 _ IH1 _ IH2];
    rewrite ?total_cons; [done| |lia|congruence].
  by rewrite IH.
Qed.

Lemma total_fmap {A B} (g : A → B) (f : B → Z) (l : list A) :
  total f (g <$> l) = total (λ a, f (g a)) l.
Proof. unfold total. by rewrite <- list_fmap_compose. Qed.

Lemma total_ext {A} (f g : A → Z) (l : list A) :
  (∀ x, x ∈ l → f x = g x) → total f l = total g l.
Proof.
  intros Hfg. induction l as [|x l IH]; [done|]. rewrite !total_cons.
  rewrite Hfg by left. rewrite IH; [done|]. intros y Hy. apply Hfg. by right.
Qed.

Lemma total_ones {A} (l : list A) : total (λ _, 1%Z) l = Z.of_nat (length l).
Proof.
  induction l as [|x l IH]; [done|]. rewrite total_cons, IH. simpl length. lia.
Qed.

Lemma total_disjoint {A} (w : A → Z) (P Q : A → Prop)
    `{∀ x, Decision (P x)} `{∀ x, Decision (Q x)} (l : list A) :
  (∀ x, P x → Q x → False) →
  total w (filter (λ x, P x ∨ Q x) l)
  = (total w (filter P l) + total w (filter Q l))%Z.
Proof.
  intros Hdis. induction l as [|x l IH]; [done|].
  rewrite !filter_cons.
  destruct (decide (P x)) as [HP|HP], (decide (Q x)) as [HQ|HQ].
  - by destruct (Hdis x).
  - rewrite decide_True by (by left). rewrite !total_cons, IH. lia.
  - rewrite decide_True by (by right). rewrite !total_cons, IH. lia.
  - rewrite decide_False by tauto. done.
Qed.

Lemma total_over_categories (w : Nomenclature → Z) (cats : list Category)
    (noms : list Nomenclature) :
  NoDup (cat_id <$> cats) →
  total (λ c, total w (filter (λ n, stats_on c n = true) noms)) cats
  = total w (filter (λ n, nom_is_active n = true
                          ∧ nom_category_id n ∈ cat_id <$> cats) noms).
Proof.
  induction cats as [|c cats IH].
  - intros _. replace (filter _ noms) with (@nil Nomenclature); [done|].
    symmetry. apply filter_nil_iff. intros n _ [_ Hin].
    by apply elem_of_nil in Hin.
  - rewrite fmap_cons, NoDup_cons. intros [Hnotin Hnd].
    rewrite total_cons, IH by done.
    rewrite <- (total_disjoint w
                  (λ n, stats_on c n = true)
                  (λ n, nom_is_active n = true
                        ∧ nom_category_id n ∈ cat_id <$> cats)).
    + f_equal. apply list_filter_iff. intros n. unfold stats_on.
      rewrite andb_true_iff, bool_decide_eq_true, elem_of_cons.
      split.
      * intros [[Hid Hact]|[Hact Hin]]; (split; [done|]); [by left | by right].
      * intros [Hact [Hid|Hin]]; [left | right]; done.
    + intros n Hon [_ Hin]. unfold stats_on in Hon.
      apply andb_true_iff in Hon as [Hid _].
      apply bool_decide_eq_true in Hid. apply Hnotin. by rewrite Hid.
Qed.

Lemma stats_totals (f : CategoryStats → Z) (w : Nomenclature → Z)
    (db : Database) :
  NoDup (cat_id <$> categories db) →
  (∀ c, f (stats_of_group
             ((cat_id c, cat_name c),
              left_join_row stats_on (nomenclature db) c))
        = total w (filter (λ n, stats_on c n = true) (nomenclature db))) →
  total f (get_category_stats db) = total w (on_sale db).
Proof.
  intros Hnd Hf. unfold get_category_stats.
  rewrite (total_Permutation f _ _ (order_by_Permutation _ _ _)).
  rewrite stats_groups_roster by done.
  rewrite <- list_fmap_compose, total_fmap.
  rewrite (total_ext _ (λ c, total w (filter (λ n, stats_on c n = true)
                                        (nomenclature db))))
    by (intros c _; apply Hf).
  rewrite total_over_categories by (by apply NoDup_fmap_filter).
  done.
Qed.

(** X20. With category ids that are a primary key, the aggregates of
    [get_category_stats] count every active nomenclature row of an
    active category once and nothing else: over all categories the
    product counts add up to the number of these rows, the quantities to
    their total quantity, and the values to their total price times
    quantity. *)
Theorem stats_count_every_product_once (db : Database) :
  NoDup (cat_id <$> categories db) →
  total stats_products_count (get_category_stats db)
  = Z.of_nat (length (on_sale db))
  ∧ total stats_total_quantity (get_category_stats db)
    = total nom_quantity (on_sale db)
  ∧ total stats_total_value (get_category_stats db)
    = total (λ n, (nom_price n * nom_quantity n)%Z) (on_sale db).
Proof.
  intros Hnd. split_and!.
  - rewrite <- total_ones. apply stats_totals; [done|]. intros c.
    rewrite total_ones. simpl.
    apply (AnalyticsFacts.count_left_join_row stats_on _ c nom_id).
  - apply stats_totals; [done|]. intros c. simpl.
    apply (sum_left_join_row stats_on _ c nom_quantity).
  - apply stats_totals; [done|]. intros c. simpl.
    apply (sum_left_join_row stats_on _ c
             (λ n, (nom_price n * nom_quantity n)%Z)).
Qed.

Lemma stats_count_every_product_once_witness :
  NoDup (cat_id <$> categories Fixtures.sample_db)
  ∧ total stats_products_count (get_category_stats Fixtures.sample_db) = 3%Z
  ∧ total stats_total_quantity (get_category_stats Fixtures.sample_db) = 10%Z.
Proof.
  assert (NoDup (cat_id <$> categories Fixtures.sample_db)) as Hnd
    by (by apply (bool_decide_unpack _)).
  split; [exact Hnd|].
  destruct (stats_count_every_product_once Fixtures.sample_db Hnd)
    as (Hcount & Hquantity & _).
  split; [by rewrite Hcount | by rewrite Hquantity].
Defined.

End InventoryFacts.

(** ** Reading categories *)

Module CategoryApiFacts.
Import Sql SqlFacts Categories CategoryApi.

Lemma category_response_row (cats : list Category) (c : Category) :
  category_response (c, left_join_row child_on cats c) = with_children cats c.
Proof.
  unfold category_response, with_children. simpl. f_equal.
  rewrite (AnalyticsFacts.count_left_join_row child_on cats c cat_id).
  do 2 f_equal. unfold active_children. apply list_filter_iff. intros ch.
  unfold child_on. rewrite andb_true_iff, bool_decide_eq_true. done.
Qed.

Lemma category_groups_rows (where_ : Category → Prop)
    `{∀ c, Decision (where_ c)} (cats : list Category) :
  NoDup (cat_id <$> cats) →
  category_response <$> category_groups where_ cats
  = with_children cats <$> filter where_ cats.
Proof.
  intros Hnd. unfold category_groups.
  rewrite (filter_left_join child_on cats where_).
  rewrite (group_by_left_join (λ c, c)).
  - rewrite <- list_fmap_compose. apply list_fmap_ext. intros _ c _.
    apply category_response_row.
  - rewrite list_fmap_id. apply NoDup_filter. by apply NoDup_fmap_1 in Hnd.
Qed.

Lemma get_category_found (db : Database) (c : Category) :
  NoDup (cat_id <$> categories db) → c ∈ categories db →
  get_category (cat_id c) db = Ok (with_children (categories db) c).
Proof.
  intros Hnd Hc. unfold get_category. rewrite category_groups_rows by done.
  by rewrite (AnalyticsFacts.filter_unique cat_id _ c).
Qed.

Lemma get_category_absent (category_id : Z) (db : Database) :
  NoDup (cat_id <$> categories db) → ¬ present category_id db →
  get_category category_id db = HTTPException 404 "Категория не найдена".
Proof.
  intros Hnd Habsent. unfold get_category.
  rewrite category_groups_rows by done.
  replace (filter _ (categories db)) with (@nil Category); [done|].
  symmetry. apply filter_nil_iff. intros c Hc Hid. apply Habsent.
  by exists c.
Qed.

(** X21. With category ids that are a primary key, [get_category]
    answers 404 for an id that no category has, and for the id of a
    category the columns of that category together with the number of
    active categories that name it as their parent. *)
Theorem get_category_counts_active_children (category_id : Z) (db : Database) :
  NoDup (cat_id <$> categories db) →
  (¬ present category_id db →
     get_category category_id db = HTTPException 404 "Категория не найдена")
  ∧ (∀ c, c ∈ categories db → cat_id c = category_id →
          get_category category_id db = Ok (with_children (categories db) c)).
Proof.
  intros Hnd. split.
  - by apply get_category_absent.
  - intros c Hc <-. by apply get_category_found.
Qed.

Lemma get_category_counts_active_children_witness :
  NoDup (cat_id <$> categories Fixtures.sample_db)
  ∧ get_category 9 Fixtures.sample_db = HTTPException 404 "Категория не найдена"
  ∧ get_category 1 Fixtures.sample_db
    = Ok {| category := Fixtures.category 1 "Бытовая техника" None 0;
            children_count := 2 |}.
Proof.
  assert (NoDup (cat_id <$> categories Fixtures.sample_db)) as Hnd
    by (by apply (bool_decide_unpack _)).
  split; [exact Hnd|].
  destruct (get_category_counts_active_children 9 Fixtures.sample_db Hnd)
    as [H404 _].
  destruct (get_category_counts_active_children 1 Fixtures.sample_db Hnd)
    as [_ Hok].
  split.
  - apply H404. intros (c & Hc & Hid). revert Hid.
    by apply (Forall_forall (λ c, cat_id c ≠ 9%Z) (categories Fixtures.sample_db));
      [apply (bool_decide_unpack _)|].
  - apply (Hok (Fixtures.category 1 "Бытовая техника" None 0));
      [apply list_elem_of_here | done].
Defined.

(** X22. With category ids that are a primary key, [get_categories]
    lists, before LIMIT and OFFSET, one row for each category that
    passes the filter on [is_active] (every category when the filter is
    left out), with the number of its active children; under a collation
    that is a total preorder the rows stand in the order of their names.
    Every row of every page is the row that [get_category] answers for
    its id. *)
Theorem get_categories_agrees_with_get_category (collate : relation string)
    `{∀ x y, Decision (collate x y)} `{!Total collate} `{!Transitive collate}
    (is_active : option bool) (db : Database) :
  NoDup (cat_id <$> categories db) →
  categories_listing collate is_active (categories db)
    ≡ₚ with_children (categories db)
         <$> filter (is_active_filter is_active) (categories db)
  ∧ StronglySorted (on_key collate (λ r, cat_name (category r)))
      (categories_listing collate is_active (categories db))
  ∧ ∀ pagination r,
      r ∈ get_categories collate pagination is_active db →
      get_category (cat_id (category r)) db = Ok r.
Proof.
  intros Hnd.
  assert (categories_listing collate is_active (categories db)
          ≡ₚ with_children (categories db)
               <$> filter (is_active_filter is_active) (categories db))
    as Hperm.
  { unfold categories_listing.
    rewrite order_by_Permutation. by rewrite category_groups_rows. }
  split; [done|]. split.
  - apply order_by_StronglySorted; apply _.
  - intros pagination r Hr. unfold get_categories, limit_offset in Hr.
    apply elem_of_take in Hr as (i & Hr & _).
    apply list_elem_of_lookup_2 in Hr.
    apply (elem_of_sublist _ (categories_listing collate is_active (categories db)))
      in Hr; [|apply sublist_drop].
    rewrite Hperm in Hr. apply list_elem_of_fmap in Hr as (c & -> & Hc).
    apply list_elem_of_filter in Hc as [_ Hc].
    by apply get_category_found.
Qed.

Lemma get_categories_agrees_with_get_category_witness :
  NoDup (cat_id <$> categories Fixtures.sample_db)
  ∧ length (categories_listing bytewise None (categories Fixtures.sample_db)) = 5
  ∧ ∀ r, r ∈ get_categories bytewise
               {| Pagination.page := 1; Pagination.size := 20 |} None
               Fixtures.sample_db →
         get_category (cat_id (category r)) Fixtures.sample_db = Ok r.
Proof.
  assert (NoDup (cat_id <$> categories Fixtures.sample_db)) as Hnd
    by (by apply (bool_decide_unpack _)).
  split; [exact Hnd|].
  destruct (get_categories_agrees_with_get_category bytewise None
              Fixtures.sample_db Hnd) as (Hperm & _ & Hagree).
  split; [by rewrite Hperm | apply Hagree].
Defined.

End CategoryApiFacts.

(** ** Creating a category *)

Module CategoryWritesFacts.
Import Orders OrdersFacts OrderRulesFacts IntegrityFacts.
Import Categories CategoryApi CategoryWrites CategoryApiFacts.

Lemma check_parent_run (category : CategoryCreate) (db : Database) :
  check_parent category db
  = if decide (parent_accepted category db) then (Ok (), db)
    else (HTTPException 400 "Родительская категория не найдена", db).
Proof.
  destruct (decide (parent_accepted category db)) as [Hyes|Hno];
    unfold parent_accepted in *; unfold check_parent;
    destruct (create_parent_id category) as [p|]; try done.
  - destruct (decide (p = 0%Z)) as [->|Hne]; [done|].
    destruct Hyes as [?|(c & Hc & Hid & Hact)]; [done|].
    unfold bind, query.
    destruct (head _) as [c'|] eqn:Hhead; [done|].
    rewrite head_filter_None in Hhead. by destruct (Hhead c Hc).
  - destruct (decide (p = 0%Z)) as [->|Hne]; [by destruct Hno; left|].
    unfold bind, query.
    destruct (head _) as [c|] eqn:Hc; [|done].
    apply head_filter_elem in Hc as (Hin & Hid & Hact).
    destruct Hno. right. by exists c.
Qed.

Lemma namesake_found (category : CategoryCreate) (db : Database) :
  is_Some (head (filter (λ c, cat_name c = create_name category
                              ∧ sql_eq (cat_parent_id c)
                                  (create_parent_id category)
                              ∧ cat_is_active c = true) (categories db)))
  ↔ active_namesake category db.
Proof.
  split.
  - intros [c Hc]. apply head_filter_elem in Hc as (Hin & Hname & Heq & Hact).
    unfold sql_eq in Heq.
    destruct (cat_parent_id c) as [x|] eqn:Hx; [|done].
    destruct (create_parent_id category) as [y|] eqn:Hy; [|done].
    subst y. by exists c, x.
  - intros (c & p & Hin & Hname & Hcp & Hp & Hact).
    destruct (head _) as [c'|] eqn:Hhead; [by eexists|].
    rewrite head_filter_None in Hhead. destruct (Hhead c Hin).
    split_and!; [done| |done]. by rewrite Hcp, Hp.
Qed.

Lemma create_category_run (category : CategoryCreate) (g : Generated)
    (db : Database) :
  CategoryCreate_valid category →
  create_category category g db
  = if decide (parent_accepted category db) then
      if decide (active_namesake category db) then
        (HTTPException 400 "Категория с таким именем уже существует", db)
      else handler (bind (insert_category category g)
                      (λ result, ret {| category := result;
                                        children_count := 0 |})) db
    else (HTTPException 400 "Родительская категория не найдена", db).
Proof.
  intros Hvalid. unfold create_category. rewrite decide_True by done.
  unfold handler at 1, create_category_body. unfold bind at 1.
  rewrite check_parent_run.
  case_decide as Hparent; [|by rewrite rollback_same].
  unfold bind at 1. unfold query at 1.
  pose proof (namesake_found category db) as Hfound.
  destruct (head _) as [c|].
  - rewrite decide_True by (apply Hfound; by eexists).
    unfold raise. by rewrite rollback_same.
  - rewrite decide_False; [done|].
    intros Hsake. apply Hfound in Hsake. by destruct Hsake.
Qed.

Lemma insert_category_run (category : CategoryCreate) (g : Generated)
    (db : Database) :
  gen_id g ∉ cat_id <$> categories db →
  (∀ p, create_parent_id category = Some p →
        p ∈ cat_id <$> categories db ∨ p = gen_id g) →
  handler (bind (insert_category category g)
             (λ result, ret {| category := result; children_count := 0 |})) db
  = (Ok {| category := new_category category g; children_count := 0 |},
     with_category (new_category category g) db).
Proof.
  intros Hfresh Hfk. unfold handler, bind, insert_category. simpl.
  rewrite decide_False by done. rewrite decide_True; [done|].
  destruct (create_parent_id category) as [p|]; [|constructor].
  apply Forall_singleton. rewrite fmap_app, elem_of_app. simpl.
  destruct (Hfk p eq_refl) as [?| ->]; [by left | right; left].
Qed.

(** X23. [create_category] holds a valid request against two checks.  A
    parent id other than zero has to be the id of an active category,
    else the answer is 400.  The name is then refused with 400 exactly
    when an active category with that name and that same parent id
    exists: for a category without parent the comparison of the parent
    ids never holds, so that such a category is never refused for its
    name and, with a free id from the sequence, is always inserted.  A
    refused request changes nothing. *)
Theorem create_category_checks (category : CategoryCreate) (g : Generated)
    (db : Database) :
  CategoryCreate_valid category →
  (¬ parent_accepted category db →
     create_category category g db
     = (HTTPException 400 "Родительская категория не найдена", db))
  ∧ (parent_accepted category db → active_namesake category db →
     create_category category g db
     = (HTTPException 400 "Категория с таким именем уже существует", db))
  ∧ (∀ p, create_parent_id category = Some p → active_category db p →
          ¬ active_namesake category db →
          gen_id g ∉ cat_id <$> categories db →
          create_category category g db
          = (Ok {| category := new_category category g; children_count := 0 |},
             with_category (new_category category g) db))
  ∧ (create_parent_id category = None →
     gen_id g ∉ cat_id <$> categories db →
     create_category category g db
     = (Ok {| category := new_category category g; children_count := 0 |},
        with_category (new_category category g) db)).
Proof.
  intros Hvalid. rewrite create_category_run by done. split_and!.
  - intros Hno. by rewrite decide_False.
  - intros Hparent Hsake. by rewrite !decide_True.
  - intros p Hp Hactive Hnosake Hfresh.
    rewrite decide_True by (unfold parent_accepted; rewrite Hp; by right).
    rewrite decide_False by done.
    apply insert_category_run; [done|].
    intros p' Hp'. left. rewrite Hp in Hp'. injection Hp' as <-.
    destruct Hactive as (c & Hc & <- & _). by apply list_elem_of_fmap_2.
  - intros Hroot Hfresh.
    rewrite decide_True by (unfold parent_accepted; by rewrite Hroot).
    rewrite decide_False.
    + apply insert_category_run; [done|]. intros p Hp. congruence.
    + intros (c & p & _ & _ & _ & Hp & _). congruence.
Qed.

Lemma create_category_checks_witness :
  let again :=
    {| create_name := "Компьютеры"; create_parent_id := None;
       create_is_active := true |} in
  let g := {| gen_id := 6; gen_level := 0; gen_path := None;
              gen_is_active := true |} in
  CategoryCreate_valid again
  ∧ create_category again g Fixtures.sample_db
    = (Ok {| category := new_category again g; children_count := 0 |},
       with_category (new_category again g) Fixtures.sample_db).
Proof.
  intros again g.
  assert (CategoryCreate_valid again) as Hvalid by (by apply (bool_decide_unpack _)).
  split; [exact Hvalid|].
  destruct (create_category_checks again g Fixtures.sample_db Hvalid)
    as (_ & _ & _ & Hroot).
  apply Hroot; [done|]. by apply (bool_decide_unpack _).
Defined.

(** X24. With category ids that are a primary key, parent ids that are
    ids of the table and an id from the sequence other than zero, a
    category that [create_category] has inserted is read back by
    [get_category] as the very answer of [create_category], with no
    child; and the primary key and the foreign key of [parent_id] hold
    for the table with the new row. *)
Theorem created_category_is_read_back (category : CategoryCreate)
    (g : Generated) (db db1 : Database) (resp : CategoryResponse) :
  NoDup (cat_id <$> categories db) →
  Forall (λ p, p ∈ cat_id <$> categories db)
    (omap cat_parent_id (categories db)) →
  gen_id g ≠ 0%Z →
  create_category category g db = (Ok resp, db1) →
  get_category (cat_id (CategoryApi.category resp)) db1 = Ok resp
  ∧ NoDup (cat_id <$> categories db1)
  ∧ Forall (λ p, p ∈ cat_id <$> categories db1)
      (omap cat_parent_id (categories db1)).
Proof.
  intros Hpk Hfk Hid Hrun.
  unfold create_category in Hrun. case_decide as Hvalid; [|done].
  rewrite handler_Ok in Hrun. unfold create_category_body in Hrun.
  apply bind_Ok in Hrun as ([] & d0 & Hcheck & Hrun).
  rewrite check_parent_run in Hcheck. case_decide as Hparent; [|done].
  injection Hcheck as <-.
  apply bind_Ok in Hrun as (existing & d1 & Hq & Hrun).
  unfold query in Hq. injection Hq as <- <-.
  destruct (head _) as [c|]; [done|].
  apply bind_Ok in Hrun as (row & d2 & Hins & Hret).
  unfold ret in Hret. injection Hret as <- <-.
  unfold insert_category in Hins.
  case_decide as Hfresh; [done|]. case_decide as Hnew; [|done].
  injection Hins as <- <-. simpl.
  set (row := new_category category g) in *.
  assert (NoDup (cat_id <$> categories db ++ [row])) as Hpk1.
  { rewrite fmap_app. apply NoDup_app. split_and!; [done| |apply NoDup_singleton].
    intros x Hx Hx'. simpl in Hx'. apply list_elem_of_singleton in Hx'.
    by subst x. }
  assert (create_parent_id category ≠ Some (gen_id g)) as Hself.
  { intros Hp. unfold parent_accepted in Hparent. rewrite Hp in Hparent.
    destruct Hparent as [?|(c & Hc & Hcid & _)]; [done|].
    apply Hfresh. simpl. rewrite <- Hcid. by apply list_elem_of_fmap_2. }
  split_and!.
  - change (gen_id g) with (cat_id row).
    rewrite (get_category_found (with_category row db) row Hpk1)
      by (apply elem_of_app; right; left).
    f_equal. unfold with_children. f_equal.
    replace (active_children _ row) with (@nil Category); [done|].
    symmetry. apply filter_nil_iff. simpl. intros ch Hch [Hp _].
    apply elem_of_app in Hch as [Hch|Hch].
    + apply Hfresh. rewrite Forall_forall in Hfk. apply Hfk.
      apply list_elem_of_omap. by exists ch.
    + apply list_elem_of_singleton in Hch. subst ch. by apply Hself.
  - exact Hpk1.
  - simpl. rewrite omap_app. apply Forall_app. split.
    + eapply Forall_impl; [exact Hfk|]. intros p Hp. simpl in Hp.
      rewrite fmap_app, elem_of_app. by left.
    + simpl. destruct (create_parent_id category) as [p|] eqn:Hp;
        [|constructor].
      simpl in Hnew. by rewrite Hp in Hnew.
Qed.

Lemma created_category_is_read_back_witness :
  let ovens :=
    {| create_name := "Духовые шкафы"; create_parent_id := Some 1%Z;
       create_is_active := true |} in
  let g := {| gen_id := 6; gen_level := 1; gen_path := None;
              gen_is_active := true |} in
  let out := create_category ovens g Fixtures.sample_db in
  NoDup (cat_id <$> categories Fixtures.sample_db)
  ∧ (∃ resp, out = (Ok resp, out.2))
  ∧ get_category 6 out.2
    = Ok {| category := new_category ovens g; children_count := 0 |}
  ∧ get_category 1 out.2
    = Ok {| category := Fixtures.category 1 "Бытовая техника" None 0;
            children_count := 3 |}.
Proof.
  intros ovens g out.
  assert (NoDup (cat_id <$> categories Fixtures.sample_db)) as Hpk
    by (by apply (bool_decide_unpack _)).
  split; [exact Hpk|]. split; [by eexists|].
  split; [|reflexivity].
  refine (proj1 (created_category_is_read_back ovens g Fixtures.sample_db out.2
                   {| category := new_category ovens g; children_count := 0 |}
                   Hpk _ _ eq_refl)).
  - by apply (bool_decide_unpack _).
  - done.
Defined.

End CategoryWritesFacts.

(** ** Reading an order *)

Module OrderReadsFacts.
Import Sql Orders Integrity OrderRules OrdersFacts OrderRulesFacts
  IntegrityFacts OrderLifeFacts OrderReads.

(** A join in which every left row that passes the filter has one
    partner hands back these left rows. *)
Lemma inner_join_one {A B} (on : A → B → bool) (P : A → Prop)
    `{dec1 : ∀ p : A * B, Decision (P p.1)} `{dec2 : ∀ a, Decision (P a)}
    (l : list A) (r : list B) :
  (∀ a, a ∈ l → P a → length (filter (λ b, on a b = true) r) = 1) →
  fst <$> filter (λ p : A * B, P p.1) (inner_join on l r) = filter P l.
Proof.
  induction l as [|a l IH]; intros Hone; [done|].
  rewrite LineageFacts.inner_join_cons, filter_app, fmap_app, filter_cons.
  rewrite IH by (intros a' Ha'; apply Hone; by right).
  destruct (decide (P a)) as [HP|HP].
  - specialize (Hone a (list_elem_of_here _ _) HP).
    destruct (filter _ r) as [|b [|b' bs]]; [done| |done].
    simpl. by rewrite filter_cons, decide_True.
  - replace (filter _ ((λ b, (a, b)) <$> filter _ r)) with (@nil (A * B));
      [done|].
    symmetry. apply filter_nil_iff.
    intros p (b & -> & _)%list_elem_of_fmap. done.
Qed.

Lemma head_join_first {A B} (on : A → B → bool) (P : A → Prop)
    `{dec1 : ∀ p : A * B, Decision (P p.1)} `{dec2 : ∀ a, Decision (P a)}
    (l : list A) (r : list B) :
  (∀ a, a ∈ l → P a → filter (λ b, on a b = true) r ≠ []) →
  head (fst <$> filter (λ p : A * B, P p.1) (inner_join on l r))
  = head (filter P l).
Proof.
  induction l as [|a l IH]; intros Hsome; [done|].
  rewrite LineageFacts.inner_join_cons, filter_app, fmap_app, filter_cons.
  destruct (decide (P a)) as [HP|HP].
  - specialize (Hsome a (list_elem_of_here _ _) HP).
    destruct (filter _ r) as [|b bs]; [done|].
    simpl. by rewrite filter_cons, decide_True.
  - replace (filter _ ((λ b, (a, b)) <$> filter _ r)) with (@nil (A * B)).
    + simpl. apply IH. intros a' Ha'. apply Hsome. by right.
    + symmetry. apply filter_nil_iff.
      intros p (b & -> & _)%list_elem_of_fmap. done.
Qed.

Lemma order_query_found (id : Z) (db : Database) :
  Forall (λ o, order_client_id o ∈ client_id <$> clients db) (orders db) →
  order_query id db = head (filter (λ o, order_id o = id) (orders db)).
Proof.
  intros Hfk. unfold order_query.
  apply (head_join_first _ (λ o, order_id o = id)).
  intros o Ho _ Hnil. rewrite Forall_forall in Hfk.
  pose proof (Hfk o Ho) as Hin.
  apply list_elem_of_fmap in Hin as (c & Hc & Hin).
  rewrite filter_nil_iff in Hnil. apply (Hnil c Hin).
  by apply bool_decide_eq_true.
Qed.

Lemma items_query_found (id : Z) (db : Database) :
  NoDup (nom_id <$> nomenclature db) →
  Forall (λ i, item_nomenclature_id i ∈ nom_id <$> nomenclature db)
    (order_items db) →
  items_query id db = items_of id db.
Proof.
  intros Hpk Hfk. unfold items_query, items_of.
  apply (inner_join_one _ (λ i, item_order_id i = id)).
  intros i Hi _. rewrite Forall_forall in Hfk.
  pose proof (Hfk i Hi) as Hin.
  apply list_elem_of_fmap in Hin as (n & Hn & Hin).
  erewrite list_filter_iff.
  - by rewrite (AnalyticsFacts.filter_unique nom_id _ n).
  - intros n'. simpl. rewrite bool_decide_eq_true. split; congruence.
Qed.

(** X25. With the primary keys and the foreign keys of the schema in
    force, [get_order] answers 404 for an id that no order has, and for
    the id of an order the row of that order with all its items and
    their number.  After [delete_order] has deleted an order,
    [get_order] answers 404 for it. *)
Theorem get_order_cases (id : Z) (db : Database) :
  constraints db →
  (¬ order_present id db →
     get_order id db = HTTPException 404 "Заказ не найден")
  ∧ (∀ o, o ∈ orders db → order_id o = id →
          get_order id db
          = Ok {| detail_order := o;
                  detail_items_count := length (items_of id db);
                  detail_items := items_of id db |})
  ∧ (∀ msg db', delete_order id db = (Ok msg, db') →
                get_order id db' = HTTPException 404 "Заказ не найден").
Proof.
  intros Hok.
  assert (∀ db0, constraints db0 → ¬ order_present id db0 →
            get_order id db0 = HTTPException 404 "Заказ не найден") as H404.
  { intros db0 [_ (_ & _ & Hoc & _)] Habsent. unfold get_order.
    rewrite order_query_found by done.
    apply head_filter_present in Habsent. by rewrite Habsent. }
  split_and!.
  - by apply H404.
  - destruct Hok as [(_ & Hnom & _ & Hord & _) (_ & _ & Hoc & _ & Hin)].
    intros o Ho Hid. unfold get_order.
    rewrite order_query_found by done.
    rewrite (head_filter_order id db o) by done.
    by rewrite items_query_found.
  - intros msg db' Hdel. apply H404.
    + replace db' with (delete_order id db).2 by (by rewrite Hdel).
      by apply delete_order_keeps.
    + rewrite delete_order_run in Hdel.
      destruct (head _) as [o|]; [|done]. case_decide; [done|].
      injection Hdel as _ <-. apply filter_ne_absent.
Qed.

Lemma get_order_cases_witness :
  let db := (create_order Fixtures.pending_order Fixtures.sample_db).2 in
  constraints db
  ∧ get_order 7 db = HTTPException 404 "Заказ не найден"
  ∧ (∃ detail, get_order 1 db = Ok detail ∧ detail_items_count detail = 1)
  ∧ get_order 1 (delete_order 1 db).2 = HTTPException 404 "Заказ не найден".
Proof.
  intros db.
  assert (constraints db) as Hok by (by apply (bool_decide_unpack _)).
  split; [exact Hok|].
  destruct (get_order_cases 7 db Hok) as (H404 & _ & _).
  destruct (get_order_cases 1 db Hok) as (_ & Hfound & Hdeleted).
  split_and!.
  - apply H404. intros (o & Ho & Hid).
    apply list_elem_of_singleton in Ho. by subst o.
  - eexists. split; [apply Hfound; [apply list_elem_of_here|done]|done].
  - by apply (Hdeleted "Заказ удален").
Defined.

Lemma committed_order_detail (order : OrderCreate) (db db1 : Database)
    (resp : OrderResponse) :
  NoDup (nom_id <$> nomenclature db) → order_items_reference_orders db →
  create_order order db = (Ok resp, db1) →
  get_order (resp_id resp) db1
  = Ok {| detail_order :=
            {| order_id := resp_id resp;
               order_client_id := create_client_id order;
               order_status := create_status order;
               order_payment_status := create_payment_status order |};
          detail_items_count := length (create_items order);
          detail_items := item_rows (resp_id resp) (create_items order) |}.
Proof.
  intros Hpk Hfk Hrun.
  destruct (create_order_checked _ _ _ _ Hrun)
    as (_ & (c & Hc & Hcid & _) & Hstock & _).
  destruct (create_order_Ok _ _ _ _ Hrun) as (Hfresh & Hnd & Hid & ->).
  rewrite Hid. set (o := new_order order db) in *.
  assert (filter (λ o', order_id o' = order_id o) (orders db) = []) as Hnone.
  { apply filter_nil_iff. intros o' Ho' Heq. apply Hfresh. rewrite <- Heq.
    by apply list_elem_of_fmap_2. }
  unfold get_order.
  assert (order_query (order_id o) (placed o (create_items order) (inserted o db))
          = Some o) as ->.
  { unfold order_query. simpl.
    rewrite (head_join_first _ (λ o', order_id o' = order_id o)).
    - rewrite filter_app, Hnone. simpl. by rewrite filter_cons, decide_True.
    - intros o' Ho' Heq Hnil.
      assert (o' = o) as ->.
      { apply elem_of_app in Ho' as [Ho'|Ho'].
        - rewrite filter_nil_iff in Hnone. by destruct (Hnone o' Ho').
        - by apply list_elem_of_singleton in Ho'. }
      rewrite filter_nil_iff in Hnil. apply (Hnil c Hc).
      apply bool_decide_eq_true. by rewrite Hcid. }
  assert (items_query (order_id o) (placed o (create_items order) (inserted o db))
          = item_rows (order_id o) (create_items order)) as ->.
  { unfold items_query. simpl.
    rewrite (inner_join_one _ (λ i, item_order_id i = order_id o)).
    - rewrite filter_app.
      replace (filter _ (order_items db)) with (@nil OrderItem).
      + simpl. apply filter_all. unfold item_rows.
        apply Forall_fmap, Forall_forall. by intros ??.
      + symmetry. apply filter_nil_iff. intros i Hi Heq. apply Hfresh.
        rewrite <- Heq. by apply Hfk.
    - intros i Hi Hoid.
      apply elem_of_app in Hi as [Hi|Hi].
      { exfalso. apply Hfresh. rewrite <- Hoid. by apply Hfk. }
      unfold item_rows in Hi. apply list_elem_of_fmap in Hi as (item & -> & Hitem).
      simpl. rewrite Forall_forall in Hstock.
      destruct (Hstock item Hitem) as (n & Hn & Hnid & _).
      assert (nomenclature_id item
              ∈ nom_id <$> move_all (taken (create_items order)) (nomenclature db))
        as Hin by (rewrite move_all_ids, <- Hnid; by apply list_elem_of_fmap_2).
      apply list_elem_of_fmap in Hin as (n' & Hid' & Hn').
      erewrite list_filter_iff.
      + rewrite (AnalyticsFacts.filter_unique nom_id _ n');
          [done | by rewrite move_all_ids | done].
      + intros n0. simpl. rewrite bool_decide_eq_true. split; congruence. }
  unfold item_rows at 1. by rewrite length_fmap.
Qed.

(** X26. With nomenclature ids that are a primary key and every order
    item belonging to an order of the table, an order that
    [create_order] has committed is read back by [get_order] under the
    id that the sequence has given it: the row carries that id and the
    client, status and payment status of the request, and the items are
    those of the request, one for one and in their order, each with its
    nomenclature id, quantity and price. *)
Theorem committed_order_is_read_back (order : OrderCreate) (db db1 : Database)
    (resp : OrderResponse) :
  NoDup (nom_id <$> nomenclature db) → order_items_reference_orders db →
  create_order order db = (Ok resp, db1) →
  ∃ detail,
    get_order (orders_id_seq db1) db1 = Ok detail
    ∧ detail_order detail
      = {| order_id := orders_id_seq db1;
           order_client_id := create_client_id order;
           order_status := create_status order;
           order_payment_status := create_payment_status order |}
    ∧ detail_items_count detail = length (create_items order)
    ∧ (λ i, (item_order_id i, item_nomenclature_id i, item_quantity i,
             item_price i)) <$> detail_items detail
      = (λ item, (orders_id_seq db1, nomenclature_id item, quantity item,
                  price item)) <$> create_items order.
Proof.
  intros Hpk Hfk Hrun.
  pose proof (committed_order_detail order db db1 resp Hpk Hfk Hrun) as Hget.
  destruct (create_order_Ok _ _ _ _ Hrun) as (_ & _ & Hid & Hdb1).
  assert (orders_id_seq db1 = resp_id resp) as -> by (by rewrite Hdb1, Hid).
  eexists. split; [exact Hget|]. simpl. split_and!; [done..|].
  unfold item_rows. by rewrite <- list_fmap_compose.
Qed.

Lemma committed_order_is_read_back_witness :
  let out := create_order Fixtures.pending_order Fixtures.sample_db in
  NoDup (nom_id <$> nomenclature Fixtures.sample_db)
  ∧ order_items_reference_orders Fixtures.sample_db
  ∧ (∃ resp, out = (Ok resp, out.2))
  ∧ orders_id_seq out.2 = 1%Z
  ∧ ∃ detail, get_order 1 out.2 = Ok detail
              ∧ item_quantity <$> detail_items detail = [1%Z].
Proof.
  intros out.
  assert (NoDup (nom_id <$> nomenclature Fixtures.sample_db)) as Hpk
    by (by apply (bool_decide_unpack _)).
  assert (order_items_reference_orders Fixtures.sample_db) as Hfk
    by (by apply (bool_decide_unpack _)).
  split; [exact Hpk|]. split; [exact Hfk|]. split; [by eexists|].
  split; [reflexivity|].
  destruct (committed_order_is_read_back Fixtures.pending_order
              Fixtures.sample_db out.2
              {| resp_id := 1; resp_client_id := 1; resp_status := PENDING;
                 resp_payment_status := UNPAID; resp_items_count := 1 |}
              Hpk Hfk eq_refl) as (detail & Hget & _ & _ & Hitems).
  exists detail. split; [exact Hget|].
  apply (f_equal (fmap (λ p : Z * Z * Z * Numeric, p.1.2))) in Hitems.
  rewrite <- !list_fmap_compose in Hitems. exact Hitems.
Defined.

End OrderReadsFacts.

(** ** Endpoints side by side *)

Module AcrossFacts.
Import Sql SqlFacts Tree DescendFacts Categories CategoryApi CategoryApiFacts.

(** X27. When the database accepts the statement of
    [get_category_children_count], the column [name] being of type
    [text] or [character varying] without a length, and with category
    ids that are a primary key, the two ways of counting children agree:
    every row of every page of [get_category_children_count] stands for
    an active category without parent, and its count is the
    [children_count] that [get_category] answers for that category. *)
Theorem children_counts_agree (collate : relation string)
    `{∀ x y, Decision (collate x y)} (name_type : TextType) (db : Database) :
  full_path_accepted name_type → NoDup (cat_id <$> categories db) →
  ∀ pagination,
    ∃ page,
      Analytics.get_category_children_count collate name_type (categories db)
        pagination = Some (Rows page)
      ∧ ∀ r, r ∈ page →
             ∃ c, c ∈ Analytics.roots (categories db)
                  ∧ Analytics.category_name r = cat_name c
                  ∧ get_category (cat_id c) db
                    = Ok {| category := c;
                            children_count := Analytics.children_count r |}.
Proof.
  intros Hty Hnd pagination.
  destruct (AnalyticsFacts.children_count_when_accepted collate name_type
              (categories db) Hty Hnd) as (ch & Hch & _ & Hpages).
  destruct (Hpages pagination) as (page & Hpage & Hsub).
  exists page. split; [done|]. intros r Hr.
  apply Hsub in Hr. apply list_elem_of_fmap in Hr as (c & -> & Hc).
  exists c. split_and!; [done..|].
  apply list_elem_of_filter in Hc as Hc'. destruct Hc' as [_ Hin].
  by rewrite get_category_found.
Qed.

Lemma children_counts_agree_witness :
  let db :=
    {| categories := Fixtures.grandchildren_categories; nomenclature := [];
       clients := []; orders := []; order_items := []; orders_id_seq := 0 |} in
  let pagination := {| Pagination.page := 1; Pagination.size := 20 |} in
  full_path_accepted TEXT
  ∧ NoDup (cat_id <$> categories db)
  ∧ ∃ page, Analytics.get_category_children_count bytewise TEXT (categories db)
              pagination = Some (Rows page)
            ∧ Analytics.children_count <$> page = [2%Z]
            ∧ Forall (λ r, ∃ c, get_category (cat_id c) db
                                = Ok {| category := c;
                                        children_count :=
                                          Analytics.children_count r |})
                page.
Proof.
  intros db pagination.
  assert (full_path_accepted TEXT) as Hty by reflexivity.
  assert (NoDup (cat_id <$> categories db)) as Hnd
    by (by apply (bool_decide_unpack _)).
  split; [exact Hty|]. split; [exact Hnd|].
  destruct (children_counts_agree bytewise TEXT db Hty Hnd pagination)
    as (page & Hpage & Hagree).
  exists page. split; [exact Hpage|]. split.
  - vm_compute in Hpage. injection Hpage as <-. reflexivity.
  - apply Forall_forall. intros r Hr.
    destruct (Hagree r Hr) as (c & _ & _ & Hget). by exists c.
Defined.

(** *** After [delete_category] *)

Lemma filter_split_length {A} (P Q : A → Prop) `{∀ x, Decision (P x)}
    `{∀ x, Decision (Q x)} (l : list A) :
  length (filter P l)
  = length (filter P (filter Q l)) + length (filter P (filter (λ x, ¬ Q x) l)).
Proof.
  induction l as [|x l IH]; [done|].
  rewrite !(filter_cons _ x).
  destruct (decide (Q x)) as [HQ|HQ].
  - rewrite (decide_False (P := ¬ Q x)) by tauto.
    rewrite (filter_cons P x (filter Q l)).
    destruct (decide (P x)); simpl; lia.
  - rewrite (decide_True (P := ¬ Q x)) by done.
    rewrite (filter_cons P x (filter (λ x, ¬ Q x) l)).
    destruct (decide (P x)); simpl; lia.
Qed.

(** X28. With category ids that are a primary key, a category that
    [delete_category] deletes was read by [get_category] without a
    child, and is answered with 404 afterwards.  Every other category is
    read as before, except that the parent of the deleted category, when
    this was active, counts one child less. *)
Theorem deleted_category_is_gone (category_id : Z) (db db' : Database)
    (msg : string) :
  NoDup (cat_id <$> categories db) →
  delete_category category_id db = (Ok msg, db') →
  ∃ d, d ∈ categories db ∧ cat_id d = category_id
       ∧ get_category category_id db = Ok {| category := d; children_count := 0 |}
       ∧ get_category category_id db' = HTTPException 404 "Категория не найдена"
       ∧ ∀ c, c ∈ categories db → cat_id c ≠ category_id →
              get_category (cat_id c) db'
              = Ok {| category := c;
                      children_count :=
                        (Z.of_nat (length (active_children (categories db) c))
                         - if decide (cat_parent_id d = Some (cat_id c)
                                      ∧ cat_is_active d = true)
                           then 1 else 0)%Z |}.
Proof.
  intros Hnd Hrun. unfold delete_category in Hrun.
  destruct (filter _ (categories db)) as [|d ds] eqn:Hd; [done|].
  case_decide as Hchild; [done|]. case_decide as Hprod; [done|].
  injection Hrun as _ <-.
  assert (d ∈ categories db ∧ cat_id d = category_id) as [Hin Hid].
  { assert (d ∈ filter (λ c, cat_id c = category_id) (categories db)) as Hd'
      by (rewrite Hd; left).
    by apply list_elem_of_filter in Hd' as [? ?]. }
  assert (NoDup (cat_id <$> categories (without_category category_id db)))
    as Hnd' by (by apply StatsFacts.NoDup_fmap_filter).
  exists d. split_and!; [done..| | |].
  - rewrite <- Hid. rewrite get_category_found by done.
    unfold with_children. do 2 f_equal.
    replace (active_children _ d) with (@nil Category); [done|].
    symmetry. apply filter_nil_iff. intros ch Hch [Hp _].
    apply Hchild. apply filter_length_pos. exists ch. by rewrite <- Hid.
  - apply get_category_absent; [done|].
    intros (c & Hc & Hcid). simpl in Hc.
    by apply list_elem_of_filter in Hc as [Hne _].
  - intros c Hc Hne.
    rewrite get_category_found; [|done|by apply list_elem_of_filter].
    unfold with_children. f_equal. simpl. unfold active_children.
    pose proof (filter_split_length
                  (λ ch, cat_parent_id ch = Some (cat_id c)
                         ∧ cat_is_active ch = true)
                  (λ x, cat_id x ≠ category_id) (categories db)) as Hsplit.
    rewrite (list_filter_iff (λ x, ¬ cat_id x ≠ category_id)
               (λ x, cat_id x = cat_id d)) in Hsplit
      by (intros x; rewrite Hid; destruct (decide (cat_id x = category_id));
          tauto).
    rewrite (AnalyticsFacts.filter_unique cat_id _ d) in Hsplit by done.
    rewrite filter_cons, filter_nil in Hsplit.
    f_equal. case_decide; simpl in Hsplit; lia.
Qed.

Lemma deleted_category_is_gone_witness :
  let db :=
    {| categories := Fixtures.sample_categories; nomenclature := [];
       clients := []; orders := []; order_items := []; orders_id_seq := 0 |} in
  let out := delete_category 5 db in
  NoDup (cat_id <$> categories db)
  ∧ out.1 = Ok "Категория удалена"
  ∧ get_category 5 out.2 = HTTPException 404 "Категория не найдена"
  ∧ get_category 2 db
    = Ok {| category := Fixtures.category 2 "Компьютеры" None 0;
            children_count := 1 |}
  ∧ get_category 2 out.2
    = Ok {| category := Fixtures.category 2 "Компьютеры" None 0;
            children_count := 0 |}.
Proof.
  intros db out.
  assert (NoDup (cat_id <$> categories db)) as Hnd
    by (by apply (bool_decide_unpack _)).
  destruct (deleted_category_is_gone 5 db out.2 "Категория удалена" Hnd eq_refl)
    as (d & _ & _ & _ & Hgone & _).
  split; [exact Hnd|]. split; [reflexivity|]. split; [exact Hgone|].
  split; reflexivity.
Defined.

(** *** Order of the listings *)

Lemma StronglySorted_take_drop {A} (R : relation A) (l : list A) (n m : nat) :
  StronglySorted R l → StronglySorted R (take n (drop m l)).
Proof.
  intros Hl.
  rewrite <- (take_drop m l) in Hl. apply StronglySorted_app_1_r in Hl.
  rewrite <- (take_drop n (drop m l)) in Hl.
  by apply StronglySorted_app_1_l in Hl.
Qed.

(** X29. Under a collation that is a total preorder, the answer of
    [get_category_hierarchy] stands in ascending order of [path], rows
    without path last, and every page that [get_category_children_count]
    hands back in ascending order of the category names. *)
Theorem listings_are_sorted (collate : relation string)
    `{∀ x y, Decision (collate x y)} `{!Total collate} `{!Transitive collate} :
  (∀ view,
     StronglySorted (on_key (nulls_last collate) hier_path)
       (get_category_hierarchy collate view))
  ∧ (∀ name_type cats pagination page,
       Analytics.get_category_children_count collate name_type cats pagination
       = Some (Rows page) →
       StronglySorted (on_key collate Analytics.category_name) page).
Proof.
  split.
  - intros view. unfold get_category_hierarchy.
    apply (StronglySorted_fmap _ (on_key (nulls_last collate) view_path)).
    + by intros r1 r2.
    + apply order_by_StronglySorted; apply _.
  - intros name_type cats pagination page Hpage.
    unfold Analytics.get_category_children_count in Hpage.
    case_decide; [|done].
    destruct (Analytics.category_hierarchy cats) as [ch|]; [|done].
    simpl in Hpage. injection Hpage as <-. unfold limit_offset.
    apply StronglySorted_take_drop.
    apply order_by_StronglySorted; apply _.
Qed.


Lemma listings_are_sorted_witness :
  let view :=
    [ {| view_id := 2; view_name := "Компьютеры"; view_level := 0;
         view_path := Some "2" |};
      {| view_id := 5; view_name := "Ноутбуки"; view_level := 1;
         view_path := Some "2/5" |};
      {| view_id := 1; view_name := "Бытовая техника"; view_level := 0;
         view_path := Some "1" |} ] in
  hier_id <$> get_category_hierarchy bytewise view = [1; 2; 5]%Z
  ∧ StronglySorted (on_key (nulls_last bytewise) hier_path)
      (get_category_hierarchy bytewise view)
  ∧ ∃ page,
      Analytics.get_category_children_count bytewise TEXT
        Fixtures.sample_categories
        {| Pagination.page := 1; Pagination.size := 20 |} = Some (Rows page)
      ∧ StronglySorted (on_key bytewise Analytics.category_name) page.
Proof.
  intros view.
  destruct (listings_are_sorted bytewise) as [Hview Hpage].
  split; [reflexivity|]. split; [apply Hview|].
  destruct (Analytics.get_category_children_count bytewise TEXT
              Fixtures.sample_categories
              {| Pagination.page := 1; Pagination.size := 20 |})
    as [[page|]|] eqn:Hrun; [|by vm_compute in Hrun..].
  exists page. split; [reflexivity|]. exact (Hpage _ _ _ _ Hrun).
Defined.

End AcrossFacts.
